(** * Agent–Environment Lab: the grid-world decision engine

    A shallow embedding of [agent-env-lab/src/App.jsx]: the environment
    transition ([stepEnvironment]), the duplication of a model
    ([cloneEnv]), the stagnation detector ([isABAB], [isStuck]), the
    information heuristic ([unseenAroundFrom]), the Monte-Carlo rollout
    ([evaluateAction]) and the anytime planner ([pickAction]).

    The JavaScript code works on mutable objects that are shared by
    reference, so the embedding is written in a state monad over an
    explicit object store: an environment is a location holding a record
    whose [agent], [goal], [adversary], [obstacles], [seen] and [recent]
    fields are themselves locations.  [Math.random()] and
    [performance.now()] are read from oracles carried by the state.

    Conventions.
    - Grid coordinates, ticks and distances are integers ([Z]).  In the
      program they are doubles, which hold every integer between -2^53
      and 2^53 and add one exactly below 2^53; the statements on the
      growth of the tick carry this bound.
    - Rewards, rollout scores, probabilities and times are JavaScript
      doubles; they are modelled by exact rationals ([Q]).
    - The set keys [`${x},${y}`] are modelled by the pair [(x, y)]: the
      template string is an injective rendering of the two integers and
      [key.split(',').map(Number)] is its inverse.
    - A JavaScript [Set] iterates in insertion order, which decides which
      random draw each obstacle receives; it is modelled by the list of
      its elements in insertion order. *)

From Stdlib Require Import ZArith QArith Qround Lia.
From stdpp Require Import base tactics option list strings.

Local Open Scope Z_scope.

(** ** Utils *)

Definition clamp (v a b : Z) : Z := Z.max a (Z.min b v).

(** An object [{x, y}]. *)
Record point := Pt { px : Z; py : Z }.

Definition manhattan (a b : point) : Z :=
  Z.abs (px a - px b) + Z.abs (py a - py b).

Definition key : Type := Z * Z.

Definition keyOf (p : point) : key := (px p, py p).

(** [a.x===b.x && a.y===b.y] *)
Definition samePoint (a b : point) : bool :=
  (px a =? px b) && (py a =? py b).

Definition atCell (a : point) (x y : Z) : bool :=
  (px a =? x) && (py a =? y).

Record dir := Dir { name : string; dx : Z; dy : Z }.

Definition UP : dir := Dir "UP" 0 (-1).
Definition RIGHT : dir := Dir "RIGHT" 1 0.
Definition DOWN : dir := Dir "DOWN" 0 1.
Definition LEFT : dir := Dir "LEFT" (-1) 0.

Definition DIRS : list dir := [UP; RIGHT; DOWN; LEFT].

(** ** Tuning knobs *)

Definition LOOP_PENALTY : Q := 10 # 100.
Definition LOOP_PENALTY_STEPS : Z := 6.
Definition INFO_GAIN_WEIGHT : Q := 2 # 100.
Definition NO_PROGRESS_TICKS : Z := 18.
Definition STUCK_MIN_HISTORY : Z := 6.

(** ** Configuration *)

Record config := Config {
  cfg_width : Z;
  cfg_height : Z;
  partialObs : bool;
  obsRadius : Z;
  slipProb : Q;
  dynamicObstacles : bool;
  episodic : bool;
  granularity : Z;
  multiAgent : bool;
  timeBudgetMs : Q;
  adversaryType : string;
  sensorNoise : Q
}.

Definition DEFAULTS : config :=
  Config 15 15 true 3 (2 # 10) false true 1 false 25 "random" 0.

(** ** JavaScript sets and arrays of keys *)

Module JSSet.

Definition t : Type := list key.

Definition has (k : key) (s : t) : bool := bool_decide (k ∈ s).

(** [s.add(k)]: a key already present keeps its place. *)
Definition add (k : key) (s : t) : t := if has k s then s else s ++ [k].

Definition delete (k : key) (s : t) : t := filter (λ k', k' ≠ k) s.

(** [new Set(iterable)] *)
Definition of_list (l : list key) : t := foldl (λ s k, add k s) [] l.

Definition size (s : t) : Z := Z.of_nat (length s).

End JSSet.

Module JSArray.

Definition lengthZ {A} (a : list A) : Z := Z.of_nat (length a).

(** [a[i]] for an integer index; [None] is [undefined]. *)
Definition get {A} (a : list A) (i : Z) : option A :=
  if i <? 0 then None else a !! Z.to_nat i.

Definition push {A} (a : list A) (x : A) : list A := a ++ [x].

Definition shift {A} (a : list A) : list A := tail a.

(** [a.slice(-n)] for [n > 0]: the last [n] elements. *)
Definition slice_last {A} (n : nat) (a : list A) : list A :=
  drop (length a - n)%nat a.

End JSArray.

(** ** Randomness and time

    [Math.random()] returns a number in [[0, 1)].  A draw is a rational
    [dnum / (dnum + dgap)], which lies in that interval by construction
    (and every rational of the interval has this form). *)

Record draw := Draw { dnum : N; dgap : positive }.

Definition draw_den (d : draw) : positive :=
  match dnum d with
  | N0 => dgap d
  | Npos p => (p + dgap d)%positive
  end.

Definition draw_val (d : draw) : Q := Z.of_N (dnum d) # draw_den d.

(** [a < b] on numbers *)
Definition Qltb (a b : Q) : bool := negb (Qle_bool b a).

(** ** The object store *)

Definition loc : Type := nat.

(** The object returned by [makeEnv] and [cloneEnv]. *)
Record envobj := EnvObj {
  tick : Z;
  width : Z;
  height : Z;
  obstacles : loc;
  agent : loc;
  goal : loc;
  adversary : option loc;
  reward : Q;
  done : bool;
  seen : loc;
  recent : loc;
  bestDist : Z;
  lastImprovedTick : Z
}.

Inductive obj :=
| OPoint (p : point)
| OSet (s : JSSet.t)
| OArray (a : list key)
| OEnv (e : envobj).

(** The state: the store, the stream of [Math.random()] results with a
    cursor, and the clock.  [performance.now()] is monotonic: every
    reading first lets the clock advance by the next (non-negative)
    lapse, in microseconds. *)
Record world := World {
  heap : list obj;
  rand : nat → draw;
  rcur : nat;
  lapse : nat → N;
  lcur : nat;
  time : N
}.

Definition set_heap (h : list obj) (w : world) : world :=
  World h (rand w) (rcur w) (lapse w) (lcur w) (time w).

(** ** The monad: state, and failure for a runtime [TypeError]
    (or, in the budgeted loop of [pickAction], for exhausted fuel). *)

Definition M (A : Type) : Type := world → option (A * world).

Definition ret {A} (a : A) : M A := λ w, Some (a, w).

Definition fail {A} : M A := λ _, None.

Definition bind {A B} (m : M A) (k : A → M B) : M B :=
  λ w, match m w with
       | Some (a, w') => k a w'
       | None => None
       end.

Notation "x <- m ;; k" := (bind m (λ x, k))
  (at level 100, m at next level, right associativity).
Notation "m ;;; k" := (bind m (λ _, k))
  (at level 100, right associativity).

Definition when (b : bool) (m : M unit) : M unit := if b then m else ret tt.

Fixpoint forEach {A} (l : list A) (body : A → M unit) : M unit :=
  match l with
  | [] => ret tt
  | x :: l' => body x ;;; forEach l' body
  end.

Definition load (l : loc) : M obj :=
  λ w, match heap w !! l with
       | Some o => Some (o, w)
       | None => None
       end.

Definition store (l : loc) (o : obj) : M unit :=
  λ w, if decide (l < length (heap w))%nat
       then Some (tt, set_heap (<[l:=o]> (heap w)) w)
       else None.

Definition alloc (o : obj) : M loc :=
  λ w, Some (length (heap w), set_heap (heap w ++ [o]) w).

Definition getPoint (l : loc) : M point :=
  o <- load l ;; match o with OPoint p => ret p | _ => fail end.

Definition getSet (l : loc) : M JSSet.t :=
  o <- load l ;; match o with OSet s => ret s | _ => fail end.

Definition getArray (l : loc) : M (list key) :=
  o <- load l ;; match o with OArray a => ret a | _ => fail end.

Definition getEnv (l : loc) : M envobj :=
  o <- load l ;; match o with OEnv e => ret e | _ => fail end.

(** [p.x = v] and [p.y = v] *)
Definition setX (l : loc) (v : Z) : M unit :=
  p <- getPoint l ;; store l (OPoint (Pt v (py p))).

Definition setY (l : loc) (v : Z) : M unit :=
  p <- getPoint l ;; store l (OPoint (Pt (px p) v)).

Definition setAdd (l : loc) (k : key) : M unit :=
  s <- getSet l ;; store l (OSet (JSSet.add k s)).

Definition setDelete (l : loc) (k : key) : M unit :=
  s <- getSet l ;; store l (OSet (JSSet.delete k s)).

(** Field updates of an environment object. *)
Definition with_obstacles (l : loc) (e : envobj) : envobj :=
  EnvObj (tick e) (width e) (height e) l (agent e) (goal e) (adversary e)
         (reward e) (done e) (seen e) (recent e) (bestDist e)
         (lastImprovedTick e).

Definition with_reward (r : Q) (e : envobj) : envobj :=
  EnvObj (tick e) (width e) (height e) (obstacles e) (agent e) (goal e)
         (adversary e) r (done e) (seen e) (recent e) (bestDist e)
         (lastImprovedTick e).

Definition with_tick (t : Z) (e : envobj) : envobj :=
  EnvObj t (width e) (height e) (obstacles e) (agent e) (goal e)
         (adversary e) (reward e) (done e) (seen e) (recent e) (bestDist e)
         (lastImprovedTick e).

Definition with_bestDist (d : Z) (e : envobj) : envobj :=
  EnvObj (tick e) (width e) (height e) (obstacles e) (agent e) (goal e)
         (adversary e) (reward e) (done e) (seen e) (recent e) d
         (lastImprovedTick e).

Definition with_lastImprovedTick (t : Z) (e : envobj) : envobj :=
  EnvObj (tick e) (width e) (height e) (obstacles e) (agent e) (goal e)
         (adversary e) (reward e) (done e) (seen e) (recent e) (bestDist e)
         t.

Definition with_done (b : bool) (e : envobj) : envobj :=
  EnvObj (tick e) (width e) (height e) (obstacles e) (agent e) (goal e)
         (adversary e) (reward e) b (seen e) (recent e) (bestDist e)
         (lastImprovedTick e).

Definition updEnv (l : loc) (f : envobj → envobj) : M unit :=
  e <- getEnv l ;; store l (OEnv (f e)).

(** [Math.random()] *)
Definition random : M Q :=
  λ w, Some (draw_val (rand w (rcur w)),
             World (heap w) (rand w) (S (rcur w)) (lapse w) (lcur w) (time w)).

(** [performance.now()], in milliseconds *)
Definition now : M Q :=
  λ w, let t := (time w + lapse w (lcur w))%N in
       Some (Z.of_N t # 1000,
             World (heap w) (rand w) (rcur w) (lapse w) (S (lcur w)) t).

(** [arr[Math.floor(Math.random()*arr.length)]]; [None] is [undefined]. *)
Definition choice {A} (arr : list A) : M (option A) :=
  u <- random ;;
  ret (JSArray.get arr (Qfloor (u * inject_Z (JSArray.lengthZ arr)))).

(** A [choice] whose result is dereferenced right away. *)
Definition choice_def {A} (arr : list A) : M A :=
  o <- choice arr ;; match o with Some a => ret a | None => fail end.

Fixpoint forFold {A S} (l : list A) (s : S) (body : A → S → M S) : M S :=
  match l with
  | [] => ret s
  | x :: l' => s' <- body x s ;; forFold l' s' body
  end.

Fixpoint filterM {A} (p : A → M bool) (l : list A) : M (list A) :=
  match l with
  | [] => ret []
  | x :: l' =>
      b <- p x ;;
      r <- filterM p l' ;;
      ret (if b then x :: r else r)
  end.

(** The integers [a, a+1, ..., b] of a [for (let i=a; i<=b; i++)] loop. *)
Definition range (a b : Z) : list Z := seqZ a (b - a + 1).

(** ** Env helpers *)

Definition cloneEnv (e : loc) : M loc :=
  E <- getEnv e ;;
  obs <- getSet (obstacles E) ;;
  obs' <- alloc (OSet (JSSet.of_list obs)) ;;
  ag <- getPoint (agent E) ;;
  ag' <- alloc (OPoint (Pt (px ag) (py ag))) ;;
  gl <- getPoint (goal E) ;;
  gl' <- alloc (OPoint (Pt (px gl) (py gl))) ;;
  adv' <- match adversary E with
          | Some a =>
              p <- getPoint a ;;
              l <- alloc (OPoint (Pt (px p) (py p))) ;;
              ret (Some l)
          | None => ret None
          end ;;
  sn <- getSet (seen E) ;;
  sn' <- alloc (OSet (JSSet.of_list sn)) ;;
  rc <- getArray (recent E) ;;
  rc' <- alloc (OArray rc) ;;
  alloc (OEnv (EnvObj (tick E) (width E) (height E) obs' ag' gl' adv'
                      (reward E) (done E) sn' rc' (bestDist E)
                      (lastImprovedTick E))).

Definition inGrid (E : envobj) (x y : Z) : bool :=
  (0 <=? x) && (0 <=? y) && (x <? width E) && (y <? height E).

Definition isBlocked (env : loc) (x y : Z) : M bool :=
  E <- getEnv env ;;
  if (x <? 0) || (y <? 0) || (x >=? width E) || (y >=? height E)
  then ret true
  else s <- getSet (obstacles E) ;; ret (JSSet.has (x, y) s).

(** The four [{d, x, y}] neighbour records of the adversary that are not
    blocked; the field [d] is never read and is left out. *)
Definition advCandidates (env : loc) (E : envobj) (adv : point) : M (list point) :=
  filterM (λ p, b <- isBlocked env (px p) (py p) ;; ret (negb b))
          (map (λ d, Pt (clamp (px adv + dx d) 0 (width E - 1))
                        (clamp (py adv + dy d) 0 (height E - 1))) DIRS).

(** [stepEnvironment], section by section, in the order and under the
    headings of the source.  [E] is the environment object as read on
    entry: the fields taken from it ([width], [height], and the
    references [agent], [goal], [adversary], [seen], [recent]) are never
    assigned by the function; [obstacles], [reward], [tick], [bestDist],
    [lastImprovedTick] and [done] are read again where the source reads
    them after an assignment. *)

(** stochastic slip *)
Definition slip (cfg : config) (action : dir) : M dir :=
  u <- random ;;
  if Qltb u (slipProb cfg)
  then choice_def (filter (λ d, name d ≠ name action) DIRS)
  else ret action.

(** (granularity placeholder: still 1-cell moves) *)
Definition moveAgent (env : loc) (E : envobj) (a : dir) : M unit :=
  ag <- getPoint (agent E) ;;
  let nx := px ag + dx a in
  let ny := py ag + dy a in
  blocked <- isBlocked env nx ny ;;
  when (negb blocked)
       (setX (agent E) (clamp nx 0 (width E - 1)) ;;;
        setY (agent E) (clamp ny 0 (height E - 1))).

(** reveal seen cells *)
Definition reveal (env : loc) (E : envobj) (cfg : config) : M unit :=
  if partialObs cfg then
    let r := obsRadius cfg in
    forEach (range (- r) r) (λ dy,
      forEach (range (- r) r) (λ dx,
        ag <- getPoint (agent E) ;;
        let x := px ag + dx in
        let y := py ag + dy in
        when (inGrid E x y)
             (v <- random ;;
              if Qltb v (sensorNoise cfg) then ret tt
              else setAdd (seen E) (x, y))))
  else
    sn <- getSet (seen E) ;;
    when (JSSet.size sn <? width E * height E)
         (forEach (range 0 (height E - 1)) (λ y,
            forEach (range 0 (width E - 1)) (λ x,
              setAdd (seen E) (x, y)))).

(** dynamic obstacles: the body of [env.obstacles.forEach] *)
Definition driftOne (env : loc) (E : envobj) (moved : loc) (k : key) : M unit :=
  let '(ox, oy) := k in
  d <- choice_def DIRS ;;
  let tx := clamp (ox + dx d) 0 (width E - 1) in
  let ty := clamp (oy + dy d) 0 (height E - 1) in
  b <- isBlocked env tx ty ;;
  ag <- getPoint (agent E) ;;
  gl <- getPoint (goal E) ;;
  if negb b && negb (atCell ag tx ty) && negb (atCell gl tx ty)
  then setAdd moved (tx, ty)
  else setAdd moved (ox, oy).

(** dynamic obstacles *)
Definition driftObstacles (env : loc) (E : envobj) (cfg : config) : M unit :=
  when (dynamicObstacles cfg && (Z.rem (tick E) 3 =? 0))
       (moved <- alloc (OSet []) ;;
        obs <- getSet (obstacles E) ;;
        forEach obs (driftOne env E moved) ;;;
        updEnv env (with_obstacles moved) ;;;
        ag <- getPoint (agent E) ;;
        setDelete moved (keyOf ag) ;;;
        gl <- getPoint (goal E) ;;
        setDelete moved (keyOf gl) ;;;
        match adversary E with
        | Some advl => adv <- getPoint advl ;; setDelete moved (keyOf adv)
        | None => ret tt
        end).

(** adversary; the result is [advPenalty] *)
Definition moveAdversary (env : loc) (E : envobj) (cfg : config) : M Q :=
  match adversary E with
  | Some advl =>
      adv <- getPoint advl ;;
      cands <- advCandidates env E adv ;;
      advMove <-
        (if String.eqb (adversaryType cfg) "chaser" then
           ag <- getPoint (agent E) ;;
           ret (foldl (λ b c, if manhattan c ag <? manhattan b ag
                              then c else b)
                      (default (Pt (px adv) (py adv)) (head cands)) cands)
         else
           o <- choice cands ;;
           ret (default (Pt (px adv) (py adv)) o)) ;;
      setX advl (px advMove) ;;;
      setY advl (py advMove) ;;;
      adv' <- getPoint advl ;;
      ag <- getPoint (agent E) ;;
      ret (if samePoint adv' ag then (-5)%Q else 0%Q)
  | None => ret 0%Q
  end.

(** rewards, progress tracking, recent positions, termination *)
Definition account (env : loc) (E : envobj) (cfg : config) (advPenalty : Q)
    : M unit :=
  ag <- getPoint (agent E) ;;
  gl <- getPoint (goal E) ;;
  let r := (- (5 # 100))%Q in
  let r := if samePoint ag gl then (r + 10)%Q else r in
  let r := (r + advPenalty)%Q in
  updEnv env (λ e, with_reward (reward e + r)%Q e) ;;;
  updEnv env (λ e, with_tick (tick e + 1) e) ;;;
  let dist := manhattan ag gl in
  E' <- getEnv env ;;
  when (dist <? bestDist E')
       (updEnv env (with_bestDist dist) ;;;
        updEnv env (λ e, with_lastImprovedTick (tick e) e)) ;;;
  rc <- getArray (recent E) ;;
  store (recent E) (OArray (JSArray.push rc (keyOf ag))) ;;;
  rc' <- getArray (recent E) ;;
  when (JSArray.lengthZ rc' >? 16)
       (store (recent E) (OArray (JSArray.shift rc'))) ;;;
  when (episodic cfg && samePoint ag gl) (updEnv env (with_done true)).

Definition stepEnvironment (env : loc) (cfg : config) (action : dir) : M loc :=
  E <- getEnv env ;;
  if done E then ret env else
  a <- slip cfg action ;;
  moveAgent env E a ;;;
  reveal env E cfg ;;;
  driftObstacles env E cfg ;;;
  advPenalty <- moveAdversary env E cfg ;;
  account env E cfg advPenalty ;;;
  ret env.

(** ** Stuck detection and info gain *)

Definition isABAB (recent : list key) : bool :=
  if JSArray.lengthZ recent <? 4 then false
  else
    let n := JSArray.lengthZ recent in
    bool_decide (JSArray.get recent (n - 1) = JSArray.get recent (n - 3))
    && bool_decide (JSArray.get recent (n - 2) = JSArray.get recent (n - 4)).

Definition isStuck (env : loc) : M bool :=
  E <- getEnv env ;;
  rc <- getArray (recent E) ;;
  if JSArray.lengthZ rc <? STUCK_MIN_HISTORY then ret false
  else
    (* No progress for a while OR classic A-B-A-B loop *)
    let noProgress := tick E - lastImprovedTick E >=? NO_PROGRESS_TICKS in
    let abab := isABAB rc in
    (* Few unique cells in last 6 (pacing in a corner) *)
    let tail := JSArray.slice_last 6 rc in
    let uniq := JSSet.of_list tail in
    let tinyVar := JSSet.size uniq <=? 2 in
    ret (noProgress || abab || tinyVar).

Definition unseenAroundFrom (pos : point) (env : loc) (cfg : config) : M Z :=
  let r := obsRadius cfg in
  forFold (range (- r) r) 0 (λ dy c,
    forFold (range (- r) r) c (λ dx c,
      let x := px pos + dx in
      let y := py pos + dy in
      E <- getEnv env ;;
      if inGrid E x y then
        sn <- getSet (seen E) ;;
        ret (if JSSet.has (x, y) sn then c else c + 1)
      else ret c)).

(** ** Anytime Monte-Carlo rollouts (with loop penalty + info gain) *)

(** The accumulator of a rollout: the running [total], and two ghost
    fields that the program does not have: the loop indices [t] at which
    the goal bonus was added (latest first), and the number of simulated
    ticks. *)
Record tally := Tally { total : Q; bonusAt : list Z; ticksRun : Z }.

(** The body of the [for (let t=0; t<horizon && !sim.done; t++)] loop;
    [n] counts the iterations that [t < horizon] still allows. *)
Fixpoint rollout (sim : loc) (cfg : config) (action : dir)
    (startSeen : Z) (recentSet : JSSet.t) (n : nat) (t : Z) (acc : tally)
    : M tally :=
  match n with
  | O => ret acc
  | S n' =>
      E <- getEnv sim ;;
      if done E then ret acc else
      a <- (if t =? 0 then ret action else choice_def DIRS) ;;
      stepEnvironment sim cfg a ;;;
      (* Distance shaping toward goal *)
      E' <- getEnv sim ;;
      ag <- getPoint (agent E') ;;
      gl <- getPoint (goal E') ;;
      let tot := (total acc + inject_Z (- manhattan ag gl) * (2 # 100))%Q in
      (* Info gain: reward revealing new cells *)
      sn <- getSet (seen E') ;;
      let gain := JSSet.size sn - startSeen in
      let tot := (tot + inject_Z gain * INFO_GAIN_WEIGHT)%Q in
      (* Early loop-avoidance penalty *)
      let tot := if (t <? LOOP_PENALTY_STEPS) && JSSet.has (keyOf ag) recentSet
                 then (tot - LOOP_PENALTY)%Q else tot in
      let acc' := if samePoint ag gl
                  then Tally (tot + 5)%Q (t :: bonusAt acc) (ticksRun acc + 1)
                  else Tally tot (bonusAt acc) (ticksRun acc + 1) in
      rollout sim cfg action startSeen recentSet n' (t + 1) acc'
  end.

(** [evaluateAction] with its ghost record of bonus ticks. *)
Definition evaluateAction_tally (env : loc) (cfg : config) (action : dir)
    (horizon : nat) : M tally :=
  sim <- cloneEnv env ;;
  E <- getEnv sim ;;
  sn <- getSet (seen E) ;;
  let startSeen := JSSet.size sn in
  rc <- getArray (recent E) ;;
  let recentSet := JSSet.of_list rc in
  rollout sim cfg action startSeen recentSet horizon 0 (Tally 0 [] 0).

Definition evaluateAction (env : loc) (cfg : config) (action : dir)
    (horizon : nat) : M Q :=
  r <- evaluateAction_tally env cfg action horizon ;; ret (total r).

(** A sequence of calls of [evaluateAction] on the same model, each with
    its configuration, first action and horizon. *)
Fixpoint evaluateAll (env : loc) (calls : list (config * dir * nat))
    : M (list Q) :=
  match calls with
  | [] => ret []
  | call :: calls' =>
      v <- evaluateAction env call.1.1 call.1.2 call.2 ;;
      vs <- evaluateAll env calls' ;;
      ret (v :: vs)
  end.

(** ** The planner *)

(** A number that may be [-Infinity] ([None]). *)
Definition xnum : Type := option Q.

(** [a > b] *)
Definition xgt (a b : xnum) : bool :=
  match a, b with
  | Some x, Some y => Qltb y x
  | Some _, None => true
  | None, _ => false
  end.

(** The records [{s, n}] of the [scores] map, keyed by direction name in
    insertion order. *)
Record rec := Rec { rec_s : Q; rec_n : Z }.

Definition scores_t : Type := list (string * rec).

Fixpoint scores_get (k : string) (sc : scores_t) : option rec :=
  match sc with
  | [] => None
  | (k', r) :: sc' => if String.eqb k' k then Some r else scores_get k sc'
  end.

Fixpoint scores_set (k : string) (r : rec) (sc : scores_t) : scores_t :=
  match sc with
  | [] => []
  | (k', r') :: sc' =>
      if String.eqb k' k then (k', r) :: sc' else (k', r') :: scores_set k r sc'
  end.

(** [rec.n ? rec.s/rec.n : -Infinity] *)
Definition meanOf (r : rec) : xnum :=
  if rec_n r =? 0 then None else Some (rec_s r / inject_Z (rec_n r))%Q.

Record decision := MkDecision {
  d_action : dir;
  d_estimates : list (string * Q);
  d_iters : Z;
  d_mode : string
}.

(** The information-seeking fallback: the loop over [DIRS] that keeps
    [best] and [bestInfo] (initially [-Infinity], here [None]). *)
Definition exploreLoop (env : loc) (cfg : config) : M (dir * option Z) :=
  forFold DIRS (UP, None) (λ d st,
    let '(best, bestInfo) := st in
    E <- getEnv env ;;
    ag <- getPoint (agent E) ;;
    let nx := clamp (px ag + dx d) 0 (width E - 1) in
    let ny := clamp (py ag + dy d) 0 (height E - 1) in
    blocked <- isBlocked env nx ny ;;
    if blocked then ret (best, bestInfo)
    else
      info <- unseenAroundFrom (Pt nx ny) env cfg ;;
      if match bestInfo with None => true | Some b => info >? b end
      then ret (d, Some info)
      else ret (best, bestInfo)).

(** One pass of [for (const d of DIRS)] with its [break]. *)
Fixpoint rolloutPass (env : loc) (cfg : config) (horizon : nat)
    (start budgetMs : Q) (ds : list dir) (scores : scores_t) (iters : Z)
    : M (scores_t * Z) :=
  match ds with
  | [] => ret (scores, iters)
  | d :: ds' =>
      val <- evaluateAction env cfg d horizon ;;
      match scores_get (name d) scores with
      | None => fail
      | Some r =>
          let scores' :=
            scores_set (name d) (Rec (rec_s r + val)%Q (rec_n r + 1)) scores in
          let iters' := iters + 1 in
          t <- now ;;
          if Qle_bool budgetMs (t - start)%Q then ret (scores', iters')
          else rolloutPass env cfg horizon start budgetMs ds' scores' iters'
      end
  end.

(** [while (now() - start < budgetMs)]; [fuel] bounds the number of
    passes. *)
Fixpoint anytimeLoop (fuel : nat) (env : loc) (cfg : config) (horizon : nat)
    (start budgetMs : Q) (scores : scores_t) (iters : Z)
    : M (scores_t * Z) :=
  t <- now ;;
  if Qltb (t - start)%Q budgetMs then
    match fuel with
    | O => fail
    | S fuel' =>
        r <- rolloutPass env cfg horizon start budgetMs DIRS scores iters ;;
        anytimeLoop fuel' env cfg horizon start budgetMs r.1 r.2
    end
  else ret (scores, iters).

(** The selection of the direction of highest mean. *)
Definition bestByMean (scores : scores_t) : option dir :=
  fst <$> foldl (λ (acc : option (dir * xnum)) d,
            '(best, bestMean) ← acc;
            r ← scores_get (name d) scores;
            let mean := meanOf r in
            Some (if xgt mean bestMean then (d, mean) else (best, bestMean)))
          (Some (UP, None)) DIRS.

(** The sign of the comparator [(a,b) => bM - aM] of the sort: the
    difference of two [-Infinity] is [NaN], which [sort] takes as [0]. *)
Definition compareMeans (aM bM : xnum) : comparison :=
  match aM, bM with
  | Some x, Some y => (y - x ?= 0)%Q
  | None, Some _ => Gt
  | Some _, None => Lt
  | None, None => Eq
  end.

(** [Array.prototype.sort] is stable; for a comparator that is a total
    preorder every stable sort gives the result of insertion sort. *)
Fixpoint sortInsert (cmp : dir → dir → comparison) (x : dir) (l : list dir)
    : list dir :=
  match l with
  | [] => [x]
  | y :: l' =>
      match cmp x y with
      | Lt => x :: y :: l'
      | _ => y :: sortInsert cmp x l'
      end
  end.

Definition sortBy (cmp : dir → dir → comparison) (l : list dir) : list dir :=
  foldl (λ acc x, sortInsert cmp x acc) [] l.

(** The end of [pickAction]: the direction of highest mean, the epsilon
    override, and the returned record. *)
Definition selectAction (scores : scores_t) (iters : Z) : M decision :=
  match bestByMean scores with
  | None => fail
  | Some best =>
      (* Tiny epsilon to avoid deterministic ties *)
      u <- random ;;
      best <- (if Qltb u (5 # 100) then
                 let mean d :=
                   default None (meanOf <$> scores_get (name d) scores) in
                 let sorted :=
                   sortBy (λ a b, compareMeans (mean a) (mean b)) DIRS in
                 let top := Z.max 2 (JSArray.lengthZ sorted / 2) in
                 choice_def (take (Z.to_nat top) sorted)
               else ret best) ;;
      ret (MkDecision best
             (map (λ kv, (kv.1, if rec_n kv.2 =? 0 then 0%Q
                                else (rec_s kv.2 / inject_Z (rec_n kv.2))%Q))
                  scores)
             iters "mc")
  end.

(** The start of [pickAction]: the information-seeking fallback, which
    yields a direction when the model is stuck, observability is partial
    and some direction is not blocked. *)
Definition exploreFallback (env : loc) (cfg : config) : M (option dir) :=
  stuck <- isStuck env ;;
  if stuck && partialObs cfg then
    r <- exploreLoop env cfg ;;
    ret (match r.2 with Some _ => Some r.1 | None => None end)
  else ret None.

Definition pickAction (fuel : nat) (env : loc) (cfg : config) (budgetMs : Q)
    : M decision :=
  start <- now ;;
  let scores : scores_t := map (λ d, (name d, Rec 0 0)) DIRS in
  let horizon := if partialObs cfg then 14%nat else 10%nat in
  (* If stuck, try an information-seeking fallback first *)
  fallback <- exploreFallback env cfg ;;
  match fallback with
  | Some best => ret (MkDecision best [] 0 "explore")
  | None =>
      (* Normal anytime rollouts *)
      r <- anytimeLoop fuel env cfg horizon start budgetMs scores 0 ;;
      selectAction r.1 r.2
  end.

(** ** Models as values

    The value held by the object graph of an environment: what
    [cloneEnv] copies, field by field. *)

Record model := Model {
  m_tick : Z;
  m_width : Z;
  m_height : Z;
  m_obstacles : JSSet.t;
  m_agent : point;
  m_goal : point;
  m_adversary : option point;
  m_reward : Q;
  m_done : bool;
  m_seen : JSSet.t;
  m_recent : list key;
  m_bestDist : Z;
  m_lastImprovedTick : Z
}.

Definition lookupPoint (h : list obj) (l : loc) : option point :=
  match h !! l with Some (OPoint p) => Some p | _ => None end.

Definition lookupSet (h : list obj) (l : loc) : option JSSet.t :=
  match h !! l with Some (OSet s) => Some s | _ => None end.

Definition lookupArray (h : list obj) (l : loc) : option (list key) :=
  match h !! l with Some (OArray a) => Some a | _ => None end.

Definition lookupEnv (h : list obj) (l : loc) : option envobj :=
  match h !! l with Some (OEnv e) => Some e | _ => None end.

(** The value of the environment object [E] in the store [h]. *)
Definition valueOf (h : list obj) (E : envobj) : option model :=
  obs ← lookupSet h (obstacles E);
  ag ← lookupPoint h (agent E);
  gl ← lookupPoint h (goal E);
  adv ← match adversary E with
         | Some a => Some <$> lookupPoint h a
         | None => Some None
         end;
  sn ← lookupSet h (seen E);
  rc ← lookupArray h (recent E);
  Some (Model (tick E) (width E) (height E) obs ag gl adv (reward E) (done E)
              sn rc (bestDist E) (lastImprovedTick E)).

Definition snapshot (h : list obj) (e : loc) : option model :=
  E ← lookupEnv h e; valueOf h E.

(** The locations an environment object refers to. *)
Definition refsOf (E : envobj) : list loc :=
  obstacles E :: agent E :: goal E :: seen E :: recent E
  :: match adversary E with Some a => [a] | None => [] end.

(** Builds the object graph of the value [m], in the order of the object
    literal of [cloneEnv]. *)
Definition allocModel (m : model) : M loc :=
  obs <- alloc (OSet (m_obstacles m)) ;;
  ag <- alloc (OPoint (m_agent m)) ;;
  gl <- alloc (OPoint (m_goal m)) ;;
  adv <- match m_adversary m with
         | Some p => l <- alloc (OPoint p) ;; ret (Some l)
         | None => ret None
         end ;;
  sn <- alloc (OSet (m_seen m)) ;;
  rc <- alloc (OArray (m_recent m)) ;;
  alloc (OEnv (EnvObj (m_tick m) (m_width m) (m_height m) obs ag gl adv
                      (m_reward m) (m_done m) sn rc (m_bestDist m)
                      (m_lastImprovedTick m))).

(** The store that holds [m] and nothing else; the model is at
    [modelLoc m]. *)
Definition emptyWorld (rnd : nat → draw) (lps : nat → N) : world :=
  World [] rnd 0 lps 0 0.

Definition heapOf (m : model) : list obj :=
  match allocModel m (emptyWorld (λ _, Draw 0 1) (λ _, 0%N)) with
  | Some (_, w) => heap w
  | None => []
  end.

Definition modelLoc (m : model) : loc :=
  match m_adversary m with Some _ => 6%nat | None => 5%nat end.

Definition worldOf (m : model) (rnd : nat → draw) (lps : nat → N) : world :=
  World (heapOf m) rnd 0 lps 0 0.

(** ** The transition as a function on values

    What [stepEnvironment] does to the value of a model, written as a
    function from the value and the cursor of the random stream to the
    new value and cursor.  [stepEnvironment_value] below proves that the
    imperative code computes exactly this on every well-formed store. *)

Definition m_with_agent (p : point) (m : model) : model :=
  Model (m_tick m) (m_width m) (m_height m) (m_obstacles m) p (m_goal m)
        (m_adversary m) (m_reward m) (m_done m) (m_seen m) (m_recent m)
        (m_bestDist m) (m_lastImprovedTick m).

Definition m_with_seen (s : JSSet.t) (m : model) : model :=
  Model (m_tick m) (m_width m) (m_height m) (m_obstacles m) (m_agent m)
        (m_goal m) (m_adversary m) (m_reward m) (m_done m) s (m_recent m)
        (m_bestDist m) (m_lastImprovedTick m).

Definition m_with_obstacles (s : JSSet.t) (m : model) : model :=
  Model (m_tick m) (m_width m) (m_height m) s (m_agent m) (m_goal m)
        (m_adversary m) (m_reward m) (m_done m) (m_seen m) (m_recent m)
        (m_bestDist m) (m_lastImprovedTick m).

Definition m_with_adversary (p : point) (m : model) : model :=
  Model (m_tick m) (m_width m) (m_height m) (m_obstacles m) (m_agent m)
        (m_goal m) (Some p) (m_reward m) (m_done m) (m_seen m) (m_recent m)
        (m_bestDist m) (m_lastImprovedTick m).

Section Values.

(** The stream of [Math.random()] results. *)
Variable rnd : nat → draw.

Definition pickAt {A} (c : nat) (arr : list A) : option A :=
  JSArray.get arr
    (Qfloor (draw_val (rnd c) * inject_Z (JSArray.lengthZ arr))).

Definition inGridV (m : model) (x y : Z) : bool :=
  (0 <=? x) && (0 <=? y) && (x <? m_width m) && (y <? m_height m).

Definition blockedV (m : model) (x y : Z) : bool :=
  if (x <? 0) || (y <? 0) || (x >=? m_width m) || (y >=? m_height m)
  then true
  else JSSet.has (x, y) (m_obstacles m).

Definition slipV (cfg : config) (action : dir) (c : nat) : dir * nat :=
  if Qltb (draw_val (rnd c)) (slipProb cfg)
  then (default action
          (pickAt (S c) (filter (λ d, name d ≠ name action) DIRS)),
        S (S c))
  else (action, S c).

Definition moveAgentV (a : dir) (m : model) : model :=
  let nx := px (m_agent m) + dx a in
  let ny := py (m_agent m) + dy a in
  if blockedV m nx ny then m
  else m_with_agent (Pt (clamp nx 0 (m_width m - 1))
                        (clamp ny 0 (m_height m - 1))) m.

(** The cells visited by the two nested loops of the partial reveal,
    in order, [dy] outermost. *)
Definition window (ag : point) (r : Z) : list key :=
  dy ← range (- r) r; dx ← range (- r) r; [(px ag + dx, py ag + dy)].

(** The cells of the whole grid, [y] outermost. *)
Definition allCells (m : model) : list key :=
  y ← range 0 (m_height m - 1); x ← range 0 (m_width m - 1); [(x, y)].

(** One cell of the partial reveal: the state is the [seen] set and
    the cursor of the random stream. *)
Definition revealStep (m : model) (noise : Q) (st : JSSet.t * nat)
    (k : key) : JSSet.t * nat :=
  if inGridV m k.1 k.2 then
    if Qltb (draw_val (rnd st.2)) noise then (st.1, S st.2)
    else (JSSet.add k st.1, S st.2)
  else st.

Definition revealV (cfg : config) (m : model) (c : nat) : model * nat :=
  if partialObs cfg then
    let r := foldl (revealStep m (sensorNoise cfg)) (m_seen m, c)
                   (window (m_agent m) (obsRadius cfg)) in
    (m_with_seen r.1 m, r.2)
  else if JSSet.size (m_seen m) <? m_width m * m_height m then
    (m_with_seen (foldl (λ s k, JSSet.add k s) (m_seen m) (allCells m)) m, c)
  else (m, c).

(** Where the obstacle [k] ends up when it draws the direction [d]. *)
Definition driftTarget (m : model) (k : key) (d : dir) : key :=
  let tx := clamp (k.1 + dx d) 0 (m_width m - 1) in
  let ty := clamp (k.2 + dy d) 0 (m_height m - 1) in
  if negb (blockedV m tx ty) && negb (atCell (m_agent m) tx ty)
     && negb (atCell (m_goal m) tx ty)
  then (tx, ty)
  else k.

(** One obstacle of the drift: the state is the [moved] set and the
    cursor of the random stream. *)
Definition driftStep (m : model) (st : JSSet.t * nat) (k : key)
    : JSSet.t * nat :=
  (JSSet.add (driftTarget m k (default UP (pickAt st.2 DIRS))) st.1,
   S st.2).

Definition driftAll (m : model) (obs : list key) (c : nat) : JSSet.t * nat :=
  foldl (driftStep m) ([], c) obs.

Definition driftObstaclesV (cfg : config) (m : model) (c : nat)
    : model * nat :=
  if dynamicObstacles cfg && (Z.rem (m_tick m) 3 =? 0) then
    let r := driftAll m (m_obstacles m) c in
    let mv := JSSet.delete (keyOf (m_agent m)) r.1 in
    let mv := JSSet.delete (keyOf (m_goal m)) mv in
    let mv := match m_adversary m with
              | Some adv => JSSet.delete (keyOf adv) mv
              | None => mv
              end in
    (m_with_obstacles mv m, r.2)
  else (m, c).

Definition advCandidatesV (m : model) (adv : point) : list point :=
  filter (λ p, blockedV m (px p) (py p) = false)
         (map (λ d, Pt (clamp (px adv + dx d) 0 (m_width m - 1))
                       (clamp (py adv + dy d) 0 (m_height m - 1))) DIRS).

Definition moveAdversaryV (cfg : config) (m : model) (c : nat)
    : model * Q * nat :=
  match m_adversary m with
  | Some adv =>
      let cands := advCandidatesV m adv in
      let r :=
        if String.eqb (adversaryType cfg) "chaser" then
          (foldl (λ b c, if manhattan c (m_agent m) <? manhattan b (m_agent m)
                         then c else b)
                 (default (Pt (px adv) (py adv)) (head cands)) cands, c)
        else (default (Pt (px adv) (py adv)) (pickAt c cands), S c) in
      let adv' := Pt (px r.1) (py r.1) in
      (m_with_adversary adv' m,
       if samePoint adv' (m_agent m) then (-5)%Q else 0%Q, r.2)
  | None => (m, 0%Q, c)
  end.

Definition accountV (cfg : config) (advPenalty : Q) (m : model) : model :=
  let ag := m_agent m in
  let gl := m_goal m in
  let r := (- (5 # 100))%Q in
  let r := if samePoint ag gl then (r + 10)%Q else r in
  let r := (r + advPenalty)%Q in
  let tk := m_tick m + 1 in
  let dist := manhattan ag gl in
  let improved := dist <? m_bestDist m in
  let rc := JSArray.push (m_recent m) (keyOf ag) in
  Model tk (m_width m) (m_height m) (m_obstacles m) ag gl (m_adversary m)
        (m_reward m + r)%Q
        (if episodic cfg && samePoint ag gl then true else m_done m)
        (m_seen m)
        (if JSArray.lengthZ rc >? 16 then JSArray.shift rc else rc)
        (if improved then dist else m_bestDist m)
        (if improved then tk else m_lastImprovedTick m).

Definition stepModel (cfg : config) (action : dir) (m : model) (c : nat)
    : model * nat :=
  if m_done m then (m, c) else
  let s := slipV cfg action c in
  let m1 := moveAgentV s.1 m in
  let r2 := revealV cfg m1 s.2 in
  let r3 := driftObstaclesV cfg r2.1 r2.2 in
  let r4 := moveAdversaryV cfg r3.1 r3.2 in
  (accountV cfg r4.1.2 r4.1.1, r4.2).

(** *** The read-only functions on values *)

Definition isStuckV (m : model) : bool :=
  if JSArray.lengthZ (m_recent m) <? STUCK_MIN_HISTORY then false
  else
    let noProgress := m_tick m - m_lastImprovedTick m >=? NO_PROGRESS_TICKS in
    let abab := isABAB (m_recent m) in
    let tail := JSArray.slice_last 6 (m_recent m) in
    let uniq := JSSet.of_list tail in
    let tinyVar := JSSet.size uniq <=? 2 in
    noProgress || abab || tinyVar.

Definition unseenStep (m : model) (c : Z) (k : key) : Z :=
  if inGridV m k.1 k.2 then
    if JSSet.has k (m_seen m) then c else c + 1
  else c.

Definition unseenAroundFromV (pos : point) (m : model) (cfg : config) : Z :=
  foldl (unseenStep m) 0 (window pos (obsRadius cfg)).

(** The cell a direction leads to, as the fallback computes it. *)
Definition clampedTarget (m : model) (d : dir) : point :=
  Pt (clamp (px (m_agent m) + dx d) 0 (m_width m - 1))
     (clamp (py (m_agent m) + dy d) 0 (m_height m - 1)).

Definition exploreStep (m : model) (cfg : config) (st : dir * option Z)
    (d : dir) : dir * option Z :=
  let p := clampedTarget m d in
  if blockedV m (px p) (py p) then st
  else
    let info := unseenAroundFromV p m cfg in
    if match st.2 with None => true | Some b => info >? b end
    then (d, Some info)
    else st.

Definition exploreLoopV (m : model) (cfg : config) : dir * option Z :=
  foldl (exploreStep m cfg) (UP, None) DIRS.

Definition exploreFallbackV (m : model) (cfg : config) : option dir :=
  if isStuckV m && partialObs cfg then
    match (exploreLoopV m cfg).2 with
    | Some _ => Some (exploreLoopV m cfg).1
    | None => None
    end
  else None.

(** The rollout loop on values. *)
Fixpoint rolloutV (cfg : config) (action : dir) (startSeen : Z)
    (recentSet : JSSet.t) (n : nat) (t : Z) (acc : tally) (m : model)
    (c : nat) : tally * model * nat :=
  match n with
  | O => (acc, m, c)
  | S n' =>
      if m_done m then (acc, m, c) else
      let a := if t =? 0 then (action, c)
               else (default UP (pickAt c DIRS), S c) in
      let r := stepModel cfg a.1 m a.2 in
      let m' := r.1 in
      let tot := (total acc
                  + inject_Z (- manhattan (m_agent m') (m_goal m'))
                    * (2 # 100))%Q in
      let gain := JSSet.size (m_seen m') - startSeen in
      let tot := (tot + inject_Z gain * INFO_GAIN_WEIGHT)%Q in
      let tot := if (t <? LOOP_PENALTY_STEPS)
                    && JSSet.has (keyOf (m_agent m')) recentSet
                 then (tot - LOOP_PENALTY)%Q else tot in
      let acc' := if samePoint (m_agent m') (m_goal m')
                  then Tally (tot + 5)%Q (t :: bonusAt acc) (ticksRun acc + 1)
                  else Tally tot (bonusAt acc) (ticksRun acc + 1) in
      rolloutV cfg action startSeen recentSet n' (t + 1) acc' m' r.2
  end.

Definition evaluateActionV (cfg : config) (action : dir) (horizon : nat)
    (m : model) (c : nat) : tally * model * nat :=
  rolloutV cfg action (JSSet.size (m_seen m)) (JSSet.of_list (m_recent m))
           horizon 0 (Tally 0 [] 0) m c.

End Values.

(** Runs a list of actions through [stepEnvironment]. *)
Definition advanceAll (env : loc) (cfg : config) (actions : list dir) : M unit :=
  forEach actions (λ a, stepEnvironment env cfg a ;;; ret tt).

Fixpoint advanceAllV (rnd : nat → draw) (cfg : config) (actions : list dir)
    (m : model) (c : nat) : model * nat :=
  match actions with
  | [] => (m, c)
  | a :: actions' =>
      let r := stepModel rnd cfg a m c in
      advanceAllV rnd cfg actions' r.1 r.2
  end.

(** ** Well-formed stores *)

(** [models_at h e E m]: in [h] the location [e] holds the environment
    object [E], whose value is [m]; the objects of [E] are pairwise
    distinct (as [makeEnv] and [cloneEnv] build them) and its sets have
    no repeated key. *)
Record models_at (h : list obj) (e : loc) (E : envobj) (m : model) : Prop :=
  ModelsAt {
    ma_env : h !! e = Some (OEnv E);
    ma_obstacles : h !! obstacles E = Some (OSet (m_obstacles m));
    ma_agent : h !! agent E = Some (OPoint (m_agent m));
    ma_goal : h !! goal E = Some (OPoint (m_goal m));
    ma_adversary :
      match adversary E, m_adversary m with
      | Some a, Some p => h !! a = Some (OPoint p)
      | None, None => True
      | _, _ => False
      end;
    ma_seen : h !! seen E = Some (OSet (m_seen m));
    ma_recent : h !! recent E = Some (OArray (m_recent m));
    ma_tick : tick E = m_tick m;
    ma_width : width E = m_width m;
    ma_height : height E = m_height m;
    ma_reward : reward E = m_reward m;
    ma_done : done E = m_done m;
    ma_bestDist : bestDist E = m_bestDist m;
    ma_lastImprovedTick : lastImprovedTick E = m_lastImprovedTick m;
    ma_separate : NoDup (e :: refsOf E);
    ma_obstacles_set : NoDup (m_obstacles m);
    ma_seen_set : NoDup (m_seen m)
  }.

Definition models (h : list obj) (e : loc) (m : model) : Prop :=
  ∃ E, models_at h e E m.

(** [frame F h h']: the store [h'] extends [h] and agrees with it
    outside the locations [F]. *)
Definition frame (F : list loc) (h h' : list obj) : Prop :=
  (length h ≤ length h')%nat
  ∧ ∀ l, (l < length h)%nat → l ∉ F → h' !! l = h !! l.

(** ** Example inputs *)

(** The scenario of the specification: a fresh 5×5 model without
    obstacles, the agent at (0,4) and the goal at (4,0). *)
Definition scenarioModel : model :=
  Model 0 5 5 [] (Pt 0 4) (Pt 4 0) None 0 false [(0, 4)] [(0, 4)] 8 0.

(** No slip, no sensor noise, no dynamic obstacles, episodic. *)
Definition scenarioCfg (po : bool) (r : Z) : config :=
  Config 5 5 po r 0 false true 1 false 25 "random" 0.

Definition scenarioActions : list dir :=
  [RIGHT; RIGHT; RIGHT; RIGHT; UP; UP; UP; UP].

(** A random stream that always returns 1/2, and a clock that stands
    still. *)
Definition halfDraws : nat → draw := λ _, Draw 1 1.
Definition noLapse : nat → N := λ _, 0%N.

(** A random stream given by its first draws, 1/2 afterwards. *)
Definition drawsOf (l : list draw) : nat → draw :=
  λ n, default (Draw 1 1) (l !! n).

(** Two obstacles next to the same free cell (2,1). *)
Definition mergeModel : model :=
  Model 0 5 5 [(1, 1); (3, 1)] (Pt 0 4) (Pt 4 0) None 0 false
        [(0, 4)] [(0, 4)] 8 0.

Definition driftCfg (multi : bool) : config :=
  Config 5 5 false 3 0 true true 1 multi 25 "random" 0.

(** The slip draw, then RIGHT (1/4) for the first obstacle and LEFT (3/4)
    for the second. *)
Definition mergeDraws : nat → draw := drawsOf [Draw 1 1; Draw 1 3; Draw 3 1].

(** One obstacle at (2,2) below the adversary at (2,1). *)
Definition adversaryModel : model :=
  Model 0 5 5 [(2, 2)] (Pt 0 4) (Pt 4 0) (Some (Pt 2 1)) 0 false
        [(0, 4)] [(0, 4)] 8 0.

(** The slip draw, then UP (0) for the obstacle. *)
Definition upDraws : nat → draw := drawsOf [Draw 1 1; Draw 0 1].

(** The agent one cell below the goal (4,0), at the border. *)
Definition goalAdjacentModel : model :=
  Model 0 5 5 [] (Pt 4 1) (Pt 4 0) None 0 false [(4, 1)] [(4, 1)] 1 0.

(** Maintenance mode: [episodic = false]. *)
Definition maintenanceCfg : config :=
  Config 5 5 false 3 0 false false 1 false 25 "random" 0.

(** The slip draw of tick 0, then UP (0) for the random action of tick 1
    and its slip draw. *)
Definition stayDraws : nat → draw := drawsOf [Draw 1 1; Draw 0 1; Draw 1 1].

(** A model whose last six positions alternate between (1,1) and (2,1),
    and whose best distance improved on the last tick. *)
Definition ababModel : model :=
  Model 6 5 5 [] (Pt 2 1) (Pt 4 0) None (- (3 # 10)) false
        [(1, 1); (2, 1)]
        [(1, 1); (2, 1); (1, 1); (2, 1); (1, 1); (2, 1)] 3 6.

(** Every cell of the 5×5 grid. *)
Definition fullGrid : JSSet.t := y ← range 0 4; x ← range 0 4; [(x, y)].

(** A model that paces between (2,1) and the border cell (2,0), where
    it stands now, with the whole grid observed. *)
Definition borderModel : model :=
  Model 6 5 5 [] (Pt 2 0) (Pt 4 4) None (- (3 # 10)) false fullGrid
        [(2, 1); (2, 0); (2, 1); (2, 0); (2, 1); (2, 0)] 4 0.

(** A clock given by its first lapses (in microseconds), standing still
    afterwards. *)
Definition lapsesOf (l : list N) : nat → N := λ n, default 0%N (l !! n).




(** ** Definitions used by the proofs *)

(** The state of the loops that fill [seen]: the store is [h] with the
    set [st.1] at [seen E], and the cursor of the random stream is
    [st.2]. *)
Definition seenState (rnd : nat → draw) (lps : nat → N) (lc : nat) (t : N)
    (h : list obj) (E : envobj) (st : JSSet.t * nat) (w : world) : Prop :=
  w = World (<[seen E := OSet st.1]> h) rnd st.2 lps lc t ∧ NoDup st.1.

(** The state of the loop that fills [moved], the object allocated
    last. *)
Definition movedState (rnd : nat → draw) (lps : nat → N) (lc : nat) (t : N)
    (h : list obj) (st : JSSet.t * nat) (w : world) : Prop :=
  w = World (h ++ [OSet st.1]) rnd st.2 lps lc t ∧ NoDup st.1.

(** The fields of the environment object that [stepEnvironment] never
    assigns. *)
Definition sameFixed (E E' : envobj) : Prop :=
  width E' = width E ∧ height E' = height E ∧ agent E' = agent E
  ∧ goal E' = goal E ∧ adversary E' = adversary E ∧ seen E' = seen E
  ∧ recent E' = recent E.

(** Without slip, dynamic obstacles and adversary, the observed cells
    are the only part of a model that depends on the reveal; everything
    else follows [stepCore]. *)
Definition forgetSeen (m : model) : model := m_with_seen [] m.

Definition stepCore (epi : bool) (a : dir) (m : model) : model :=
  if m_done m then m
  else accountV (Config 0 0 false 0 0 false epi 0 false 0 "random" 0) 0
                (moveAgentV a m).

(** One tick on the store that holds just [m]: the value afterwards. *)
Definition afterStep (m : model) (cfg : config) (a : dir) (rnd : nat → draw)
    : option model :=
  match stepEnvironment (modelLoc m) cfg a (worldOf m rnd noLapse) with
  | Some (_, w') => snapshot (heap w') (modelLoc m)
  | None => None
  end.

(** The store [h'] keeps every object of [h]: the caller of a function
    that runs from [h] to [h'] finds all its objects unchanged. *)
Definition keeps (h h' : list obj) : Prop :=
  (length h ≤ length h')%nat ∧ ∀ l, (l < length h)%nat → h' !! l = h !! l.

(** [b] is the first element of [l] of highest [score]. *)
Definition firstMax {A} (score : A → Z) (l : list A) (b : A) : Prop :=
  ∃ l1 l2, l = l1 ++ b :: l2
           ∧ (∀ d, d ∈ l1 → score d < score b)
           ∧ (∀ d, d ∈ l2 → score d ≤ score b).

(** The directions that the fallback of [pickAction] considers: those
    whose target cell, clamped into the grid, is not blocked. *)
Definition considered (m : model) : list dir :=
  filter (λ d, blockedV m (px (clampedTarget m d)) (py (clampedTarget m d))
               = false) DIRS.

(** The score of a direction in the fallback. *)
Definition infoScore (m : model) (cfg : config) (d : dir) : Z :=
  unseenAroundFromV (clampedTarget m d) m cfg.

(** The [scores] map of [pickAction]: one record per direction, in the
    order of [DIRS]. *)
Definition scoreTable (r0 r1 r2 r3 : rec) : scores_t :=
  [("UP", r0); ("RIGHT", r1); ("DOWN", r2); ("LEFT", r3)]%string.

Definition initScores : scores_t := map (λ d, (name d, Rec 0 0)) DIRS.

(** A table whose counts are the [iters] rollouts made so far. *)
Definition tallied (scores : scores_t) (iters : Z) : Prop :=
  ∃ r0 r1 r2 r3,
    scores = scoreTable r0 r1 r2 r3
    ∧ 0 ≤ rec_n r0 ∧ 0 ≤ rec_n r1 ∧ 0 ≤ rec_n r2 ∧ 0 ≤ rec_n r3
    ∧ iters = rec_n r0 + rec_n r1 + rec_n r2 + rec_n r3.



(** ** Building a model *)

(** [a+Math.floor(Math.random()*(b-a+1))] *)
Definition randInt (a b : Z) : M Z :=
  u <- random ;; ret (a + Qfloor (u * inject_Z (b - a + 1))).

(** The loop [while (obstacles.size < obstacleCount)] of [makeEnv];
    [fuel] bounds the number of iterations, and the loop fails when it
    is used up. *)
Fixpoint placeObstacles (fuel : nat) (obstacles : loc)
    (obstacleCount width height : Z) : M unit :=
  s <- getSet obstacles ;;
  if JSSet.size s <? obstacleCount then
    match fuel with
    | O => fail
    | S fuel' =>
        x <- randInt 0 (width - 1) ;;
        y <- randInt 0 (height - 1) ;;
        setAdd obstacles (x, y) ;;;
        placeObstacles fuel' obstacles obstacleCount width height
    end
  else ret tt.

(** [Math.floor(width*height*0.12)].  The product of the two integers
    is exact (below 2^53), the double nearest to 0.12 differs from
    12/100 by less than half a unit in the last place, and 12/100 of an
    integer is an integer or at least 1/25 away from one: the floor of
    the double product is the floor of the exact one. *)
Definition obstacleCountOf (width height : Z) : Z :=
  Qfloor (inject_Z (width * height) * (12 # 100)).

Definition makeEnv (fuel : nat) (cfg : config) : M loc :=
  let width := cfg_width cfg in
  let height := cfg_height cfg in
  obstacles <- alloc (OSet []) ;;
  let obstacleCount := obstacleCountOf width height in
  placeObstacles fuel obstacles obstacleCount width height ;;;
  agent <- alloc (OPoint (Pt 1 (height - 2))) ;;
  goal <- alloc (OPoint (Pt (width - 2) 1)) ;;
  ag <- getPoint agent ;;
  setDelete obstacles (keyOf ag) ;;;
  gl <- getPoint goal ;;
  setDelete obstacles (keyOf gl) ;;;
  adversary <- (if multiAgent cfg
                then l <- alloc (OPoint (Pt (width - 2) (height - 2))) ;;
                     ret (Some l)
                else ret None) ;;
  match adversary with
  | Some l => adv <- getPoint l ;; setDelete obstacles (keyOf adv)
  | None => ret tt
  end ;;;
  let bestDist := manhattan ag gl in
  seen <- alloc (OSet (JSSet.of_list [keyOf ag])) ;;
  recent <- alloc (OArray [keyOf ag]) ;;
  alloc (OEnv (EnvObj 0 width height obstacles agent goal adversary 0 false
                      seen recent bestDist 0)).

(** [{ ...cfg, width, height }] *)
Definition with_size (width height : Z) (cfg : config) : config :=
  Config width height (partialObs cfg) (obsRadius cfg) (slipProb cfg)
         (dynamicObstacles cfg) (episodic cfg) (granularity cfg)
         (multiAgent cfg) (timeBudgetMs cfg) (adversaryType cfg)
         (sensorNoise cfg).

(** The [randomize] of the [App] component; the result is the
    environment passed to [setEnv]. *)
Definition randomize (fuel : nat) (cfg : config) : M loc :=
  width <- randInt 10 18 ;;
  height <- randInt 10 18 ;;
  makeEnv fuel (with_size width height cfg).

(** ** One step of the application

    The [step] of the [App] component, for the environment [env] held by
    the component: nothing is set when the episode is over; otherwise
    the result is the environment passed to [setEnv] and the record
    passed to [setLastDecision]. *)

Record lastDecision := LastDecision {
  ld_decision : decision;
  ld_tick : Z;
  ld_reward : Q
}.

Definition step (fuel : nat) (env : loc) (cfg : config)
    : M (option (loc * lastDecision)) :=
  E <- getEnv env ;;
  if done E then ret None else
  decision <- pickAction fuel env cfg (timeBudgetMs cfg) ;;
  next <- cloneEnv env ;;
  stepEnvironment next cfg (d_action decision) ;;;
  N <- getEnv next ;;
  ret (Some (next, LastDecision decision (tick N) (reward N))).

(** ** [makeEnv] on values *)

Definition randIntV (rnd : nat → draw) (c : nat) (a b : Z) : Z :=
  a + Qfloor (draw_val (rnd c) * inject_Z (b - a + 1)).

(** The cell drawn by one iteration of the placement loop. *)
Definition drawnCell (rnd : nat → draw) (c : nat) (width height : Z) : key :=
  (randIntV rnd c 0 (width - 1), randIntV rnd (S c) 0 (height - 1)).

Fixpoint placeObstaclesV (rnd : nat → draw) (fuel : nat)
    (obstacleCount width height : Z) (s : JSSet.t) (c : nat)
    : option (JSSet.t * nat) :=
  if JSSet.size s <? obstacleCount then
    match fuel with
    | O => None
    | S fuel' =>
        placeObstaclesV rnd fuel' obstacleCount width height
          (JSSet.add (drawnCell rnd c width height) s) (S (S c))
    end
  else Some (s, c).

Definition makeModel (rnd : nat → draw) (fuel : nat) (cfg : config) (c : nat)
    : option (model * nat) :=
  let width := cfg_width cfg in
  let height := cfg_height cfg in
  r ← placeObstaclesV rnd fuel (obstacleCountOf width height) width height
        [] c;
  let ag := Pt 1 (height - 2) in
  let gl := Pt (width - 2) 1 in
  let adv := if multiAgent cfg then Some (Pt (width - 2) (height - 2))
             else None in
  let obs := JSSet.delete (keyOf gl) (JSSet.delete (keyOf ag) r.1) in
  let obs := match adv with
             | Some p => JSSet.delete (keyOf p) obs
             | None => obs
             end in
  Some (Model 0 width height obs ag gl adv 0 false [keyOf ag] [keyOf ag]
              (manhattan ag gl) 0,
        r.2).

(** The first [n] cells that the placement loop draws from the cursor
    [c] on. *)
Fixpoint drawnCells (rnd : nat → draw) (n : nat) (c : nat) (width height : Z)
    : list key :=
  match n with
  | O => []
  | S n' => drawnCell rnd c width height
            :: drawnCells rnd n' (S (S c)) width height
  end.

(** ** Predicates of the further properties *)

(** On the world [w], [stepEnvironment] returns and leaves the model
    [m'] at [e]. *)
Definition stepsTo (e : loc) (cfg : config) (a : dir) (w : world)
    (m' : model) : Prop :=
  ∃ w', stepEnvironment e cfg a w = Some (e, w') ∧ models (heap w') e m'.

(** The same for a list of actions. *)
Definition advancesTo (e : loc) (cfg : config) (actions : list dir)
    (w : world) (m' : model) : Prop :=
  ∃ w', advanceAll e cfg actions w = Some (tt, w') ∧ models (heap w') e m'.

(** Boundedness: the agent, the goal, the adversary and every obstacle
    lie within the grid, and no obstacle is on the cell of the agent, of
    the goal or of the adversary. *)
Definition boundedV (m : model) : bool :=
  inGridV m (px (m_agent m)) (py (m_agent m))
  && inGridV m (px (m_goal m)) (py (m_goal m))
  && match m_adversary m with
     | Some p => inGridV m (px p) (py p)
                 && negb (JSSet.has (keyOf p) (m_obstacles m))
     | None => true
     end
  && forallb (λ k, inGridV m k.1 k.2) (m_obstacles m)
  && negb (JSSet.has (keyOf (m_agent m)) (m_obstacles m))
  && negb (JSSet.has (keyOf (m_goal m)) (m_obstacles m)).

(** Every observed cell lies within the grid. *)
Definition seenInGrid (m : model) : bool :=
  forallb (λ k, inGridV m k.1 k.2) (m_seen m).

(** The cell named by a key: [key.split(',').map(Number)]. *)
Definition cellOf (k : key) : point := Pt k.1 k.2.

(** The cell a direction leads to from [p]. *)
Definition target (p : point) (d : dir) : point :=
  Pt (px p + dx d) (py p + dy d).

(** The neighbour of [p] in direction [d], clamped into the grid. *)
Definition neighbour (m : model) (p : point) (d : dir) : point :=
  Pt (clamp (px p + dx d) 0 (m_width m - 1))
     (clamp (py p + dy d) 0 (m_height m - 1)).

(** The reward of one tick that ends in [m']. *)
Definition tickReward (m' : model) : Q :=
  (- (5 # 100)
   + (if samePoint (m_agent m') (m_goal m') then 10 else 0)
   + (match m_adversary m' with
      | Some adv => if samePoint adv (m_agent m') then - 5 else 0
      | None => 0
      end))%Q.

(** The cells of the window of radius [r] around [pos] that lie within
    the grid and are not observed. *)
Definition unseenCells (pos : point) (m : model) (r : Z) : list key :=
  filter (λ k, inGridV m k.1 k.2 = true ∧ k ∉ m_seen m) (window pos r).



(** The names of the directions, in the order of [DIRS]. *)
Definition dirNames : list string := map name DIRS.

(** ** The rollouts of the planner *)


(** ** The ticks of a rollout *)

(** The agent of a model is on the goal: the test of the goal bonus. *)
Definition onGoal (m : model) : bool := samePoint (m_agent m) (m_goal m).

(** The values of [sim] after each [stepEnvironment(sim, cfg, a)] of the
    loop of [evaluateAction], in the order of the ticks; [t] is the loop
    index of the first of them. *)
Fixpoint rolloutTrace (rnd : nat → draw) (cfg : config) (action : dir)
    (n : nat) (t : Z) (m : model) (c : nat) : list model :=
  match n with
  | O => []
  | S n' =>
      if m_done m then [] else
      let a := if t =? 0 then (action, c)
               else (default UP (pickAt rnd c DIRS), S c) in
      let r := stepModel rnd cfg a.1 m a.2 in
      r.1 :: rolloutTrace rnd cfg action n' (t + 1) r.1 r.2
  end.

(** What the tick of index [t] that ends in [m'] adds to the score
    apart from the goal bonus: the distance shaping, the information
    gain and the early loop penalty. *)
Definition shapingOf (startSeen : Z) (recentSet : JSSet.t) (t : Z)
    (m' : model) : Q :=
  (inject_Z (- manhattan (m_agent m') (m_goal m')) * (2 # 100)
   + inject_Z (JSSet.size (m_seen m') - startSeen) * INFO_GAIN_WEIGHT
   - (if (t <? LOOP_PENALTY_STEPS)
         && JSSet.has (keyOf (m_agent m')) recentSet
      then LOOP_PENALTY else 0))%Q.

(** The sum of [shapingOf] over the ticks of a trace, the first of which
    has the index [t]. *)
Fixpoint shapingSum (startSeen : Z) (recentSet : JSSet.t) (t : Z)
    (trace : list model) : Q :=
  match trace with
  | [] => 0
  | m' :: trace' =>
      (shapingOf startSeen recentSet t m'
       + shapingSum startSeen recentSet (t + 1) trace')%Q
  end.

(** The indices of the ticks of a trace that end with the agent on the
    goal, in increasing order. *)
Fixpoint goalTicks (t : Z) (trace : list model) : list Z :=
  match trace with
  | [] => []
  | m' :: trace' =>
      if onGoal m' then t :: goalTicks (t + 1) trace'
      else goalTicks (t + 1) trace'
  end.

(** ** Further example inputs *)

(** The draws of three distinct cells of a 5×5 grid: (0,0), (2,0) and
    (2,2). *)
Definition placementDraws : nat → draw :=
  drawsOf [Draw 0 1; Draw 0 1; Draw 1 1; Draw 0 1; Draw 1 1; Draw 1 1].

(** Two draws of 1/2, which [randomize] turns into a 14×14 grid, and
    then the cells (0,0), (1,0), ..., (13,0), (0,1), ... in turn: the
    draw [k/14] gives the coordinate [k]. *)
Definition sweepDraws : nat → draw :=
  λ n, match n with
       | O | S O => Draw 1 1
       | S (S n') =>
           let i := N.of_nat (n' / 2) in
           let k := if Nat.even n' then (i mod 14)%N else (i / 14)%N in
           Draw k (Pos.of_nat (14 - N.to_nat k))
       end.

(** A 5×5 model with two obstacles and a chasing adversary. *)
Definition chaseModel : model :=
  Model 3 5 5 [(1, 1); (3, 1)] (Pt 0 4) (Pt 4 0) (Some (Pt 3 3))
        (- (15 # 100)) false [(0, 4)] [(0, 4)] 8 0.

Definition chaseCfg : config :=
  Config 5 5 true 1 (2 # 10) true true 1 true 25 "chaser" (1 # 10).

(** A clock that advances by 1 ms at every reading. *)
Definition steadyClock : nat → N := λ _, 1000%N.

(** A terminal model: the agent is on the goal. *)
Definition finishedModel : model :=
  Model 8 5 5 [] (Pt 4 0) (Pt 4 0) None (96 # 10) true fullGrid
        [(4, 1); (4, 0)] 0 8.

(** The whole budget of 25 ms passes during the first rollout; the other
    readings of the clock find it where it was. *)
Definition budgetClock : nat → N := lapsesOf [0; 0; 25000]%N.


(** * Proofs

    First the refinement: every section of [stepEnvironment], and then
    the whole function, computes its value function on a well-formed
    store and touches nothing else.  The properties are then proved on
    values and carried back to the store. *)

(** ** Running the monad *)

Lemma bind_run {A B} (m : M A) (k : A → M B) w a w' :
  m w = Some (a, w') → bind m k w = k a w'.
Proof. unfold bind. by intros ->. Qed.

Lemma getPoint_run h l p rnd c lps lc t :
  h !! l = Some (OPoint p) →
  getPoint l (World h rnd c lps lc t) = Some (p, World h rnd c lps lc t).
Proof. intros H. unfold getPoint, bind, load. simpl. by rewrite H. Qed.

Lemma getSet_run h l s rnd c lps lc t :
  h !! l = Some (OSet s) →
  getSet l (World h rnd c lps lc t) = Some (s, World h rnd c lps lc t).
Proof. intros H. unfold getSet, bind, load. simpl. by rewrite H. Qed.

Lemma getArray_run h l a rnd c lps lc t :
  h !! l = Some (OArray a) →
  getArray l (World h rnd c lps lc t) = Some (a, World h rnd c lps lc t).
Proof. intros H. unfold getArray, bind, load. simpl. by rewrite H. Qed.

Lemma getEnv_run h l E rnd c lps lc t :
  h !! l = Some (OEnv E) →
  getEnv l (World h rnd c lps lc t) = Some (E, World h rnd c lps lc t).
Proof. intros H. unfold getEnv, bind, load. simpl. by rewrite H. Qed.

Lemma store_run h l o o' rnd c lps lc t :
  h !! l = Some o' →
  store l o (World h rnd c lps lc t)
  = Some (tt, World (<[l:=o]> h) rnd c lps lc t).
Proof.
  intros H. apply lookup_lt_Some in H. unfold store. simpl.
  by rewrite decide_True.
Qed.

Lemma setX_run h l p v rnd c lps lc t :
  h !! l = Some (OPoint p) →
  setX l v (World h rnd c lps lc t)
  = Some (tt, World (<[l:=OPoint (Pt v (py p))]> h) rnd c lps lc t).
Proof.
  intros H. unfold setX. rewrite (bind_run _ _ _ _ _ (getPoint_run _ _ _ _ _ _ _ _ H)).
  by eapply store_run.
Qed.

Lemma setY_run h l p v rnd c lps lc t :
  h !! l = Some (OPoint p) →
  setY l v (World h rnd c lps lc t)
  = Some (tt, World (<[l:=OPoint (Pt (px p) v)]> h) rnd c lps lc t).
Proof.
  intros H. unfold setY. rewrite (bind_run _ _ _ _ _ (getPoint_run _ _ _ _ _ _ _ _ H)).
  by eapply store_run.
Qed.

Lemma setAdd_run h l s k rnd c lps lc t :
  h !! l = Some (OSet s) →
  setAdd l k (World h rnd c lps lc t)
  = Some (tt, World (<[l:=OSet (JSSet.add k s)]> h) rnd c lps lc t).
Proof.
  intros H. unfold setAdd. rewrite (bind_run _ _ _ _ _ (getSet_run _ _ _ _ _ _ _ _ H)).
  by eapply store_run.
Qed.

Lemma setDelete_run h l s k rnd c lps lc t :
  h !! l = Some (OSet s) →
  setDelete l k (World h rnd c lps lc t)
  = Some (tt, World (<[l:=OSet (JSSet.delete k s)]> h) rnd c lps lc t).
Proof.
  intros H. unfold setDelete. rewrite (bind_run _ _ _ _ _ (getSet_run _ _ _ _ _ _ _ _ H)).
  by eapply store_run.
Qed.

Lemma updEnv_run h l E f rnd c lps lc t :
  h !! l = Some (OEnv E) →
  updEnv l f (World h rnd c lps lc t)
  = Some (tt, World (<[l:=OEnv (f E)]> h) rnd c lps lc t).
Proof.
  intros H. unfold updEnv. rewrite (bind_run _ _ _ _ _ (getEnv_run _ _ _ _ _ _ _ _ H)).
  by eapply store_run.
Qed.

Lemma random_run h rnd c lps lc t :
  random (World h rnd c lps lc t)
  = Some (draw_val (rnd c), World h rnd (S c) lps lc t).
Proof. reflexivity. Qed.

Lemma choice_run {A} (arr : list A) h rnd c lps lc t :
  choice arr (World h rnd c lps lc t)
  = Some (pickAt rnd c arr, World h rnd (S c) lps lc t).
Proof. reflexivity. Qed.

(** ** Draws *)

Lemma draw_val_nonneg d : (0 <= draw_val d)%Q.
Proof. unfold draw_val, Qle. simpl. lia. Qed.

Lemma draw_val_lt_1 d : (draw_val d < 1)%Q.
Proof.
  unfold draw_val, Qlt, draw_den. simpl. destruct (dnum d); simpl; lia.
Qed.

Lemma Qltb_lt a b : Qltb a b = true ↔ (a < b)%Q.
Proof.
  unfold Qltb. rewrite negb_true_iff, <- not_true_iff_false, Qle_bool_iff.
  split; [apply Qnot_le_lt | apply Qlt_not_le].
Qed.

Lemma Qltb_draw_nonpos d q : (q <= 0)%Q → Qltb (draw_val d) q = false.
Proof.
  intros Hq. apply not_true_iff_false. rewrite Qltb_lt. intros H.
  pose proof (draw_val_nonneg d).
  apply (Qlt_irrefl 0). eapply Qle_lt_trans; [eassumption|].
  eapply Qlt_le_trans; eassumption.
Qed.

(** A draw picks an element of every non-empty array. *)
Lemma draw_index_range d n :
  0 < n → 0 <= Qfloor (draw_val d * inject_Z n) < n.
Proof.
  intros Hn. unfold draw_val, Qfloor, Qmult, inject_Z. simpl.
  rewrite Pos.mul_1_r.
  assert (Hd : Z.of_N (dnum d) < Z.pos (draw_den d)).
  { unfold draw_den. destruct (dnum d); simpl; lia. }
  split.
  - apply Z.div_pos; lia.
  - apply Z.div_lt_upper_bound; [lia|]. nia.
Qed.

Lemma pickAt_Some {A} rnd c (arr : list A) :
  arr ≠ [] → ∃ a, pickAt rnd c arr = Some a ∧ a ∈ arr.
Proof.
  intros Hne. unfold pickAt, JSArray.get, JSArray.lengthZ.
  assert (Hn : 0 < Z.of_nat (length arr)) by (destruct arr; [done | simpl; lia]).
  pose proof (draw_index_range (rnd c) _ Hn) as [H0 H1].
  destruct (Z.ltb_spec (Qfloor (draw_val (rnd c) * inject_Z (Z.of_nat (length arr)))) 0);
    [lia|].
  destruct (lookup_lt_is_Some_2 arr
              (Z.to_nat (Qfloor (draw_val (rnd c) * inject_Z (Z.of_nat (length arr))))))
    as [a Ha]; [lia|].
  exists a. split; [done|]. by eapply list_elem_of_lookup_2.
Qed.

Lemma choice_def_run {A} (arr : list A) h rnd c lps lc t :
  arr ≠ [] →
  ∃ a, pickAt rnd c arr = Some a ∧ a ∈ arr
       ∧ choice_def arr (World h rnd c lps lc t)
         = Some (a, World h rnd (S c) lps lc t).
Proof.
  intros Hne. destruct (pickAt_Some rnd c arr Hne) as (a & Ha & Hin).
  exists a. split; [done|]. split; [done|].
  unfold choice_def. rewrite (bind_run _ _ _ _ _ (choice_run _ _ _ _ _ _ _)).
  by rewrite Ha.
Qed.


(** ** Updates of a well-formed store *)

Lemma refs_separate e E :
  NoDup (e :: refsOf E) →
  e ≠ obstacles E ∧ e ≠ agent E ∧ e ≠ goal E ∧ e ≠ seen E ∧ e ≠ recent E
  ∧ obstacles E ≠ agent E ∧ obstacles E ≠ goal E ∧ obstacles E ≠ seen E
  ∧ obstacles E ≠ recent E ∧ agent E ≠ goal E ∧ agent E ≠ seen E
  ∧ agent E ≠ recent E ∧ goal E ≠ seen E ∧ goal E ≠ recent E
  ∧ seen E ≠ recent E
  ∧ ∀ a, adversary E = Some a →
         a ≠ e ∧ a ≠ obstacles E ∧ a ≠ agent E ∧ a ≠ goal E ∧ a ≠ seen E
         ∧ a ≠ recent E.
Proof.
  unfold refsOf. intros H.
  repeat (apply NoDup_cons in H as [? H]).
  repeat match goal with
         | H : _ ∉ _ :: _ |- _ => apply not_elem_of_cons in H as [? ?]
         end.
  repeat (split; [done|]).
  intros a Ha. rewrite Ha in *.
  repeat match goal with
         | H : _ ∉ _ :: _ |- _ => apply not_elem_of_cons in H as [? ?]
         end.
  repeat split; congruence.
Qed.

Tactic Notation "separate" constr(H) "as" ident(S) :=
  pose proof (refs_separate _ _ H) as S;
  destruct S as (?&?&?&?&?&?&?&?&?&?&?&?&?&?&?&S).

(** [lia] without the disequalities of the context, on which it would
    case split. *)
Ltac nlia := repeat match goal with H : _ ≠ _ |- _ => clear H end; lia.

(** Membership in a list that shows the element. *)
Ltac inlist :=
  repeat first [ apply list_elem_of_here | apply list_elem_of_further ].

Ltac lookups :=
  repeat first
    [ rewrite list_lookup_insert_ne by congruence
    | rewrite list_lookup_insert_eq
        by (rewrite ?length_insert; eapply lookup_lt_Some; eassumption) ].

Lemma models_at_agent h e E m p :
  models_at h e E m →
  models_at (<[agent E := OPoint p]> h) e E (m_with_agent p m).
Proof.
  intros H. separate (ma_separate _ _ _ _ H) as Hsep. destruct H.
  constructor; simpl; try done; lookups; try done.
  destruct (adversary E) as [a|] eqn:Ha, (m_adversary m); try done.
  destruct (Hsep a eq_refl) as (?&?&?&?&?&?). by lookups.
Qed.

Lemma models_at_seen h e E m s :
  models_at h e E m → NoDup s →
  models_at (<[seen E := OSet s]> h) e E (m_with_seen s m).
Proof.
  intros H Hs. separate (ma_separate _ _ _ _ H) as Hsep. destruct H.
  constructor; simpl; try done; lookups; try done.
  destruct (adversary E) as [a|] eqn:Ha, (m_adversary m); try done.
  destruct (Hsep a eq_refl) as (?&?&?&?&?&?). by lookups.
Qed.

Lemma models_at_obstacles h e E m s :
  models_at h e E m → NoDup s →
  models_at (<[obstacles E := OSet s]> h) e E (m_with_obstacles s m).
Proof.
  intros H Hs. separate (ma_separate _ _ _ _ H) as Hsep. destruct H.
  constructor; simpl; try done; lookups; try done.
  destruct (adversary E) as [a|] eqn:Ha, (m_adversary m); try done.
  destruct (Hsep a eq_refl) as (?&?&?&?&?&?). by lookups.
Qed.

Lemma models_at_adversary h e E m a p :
  models_at h e E m → adversary E = Some a →
  models_at (<[a := OPoint p]> h) e E (m_with_adversary p m).
Proof.
  intros H Ha. separate (ma_separate _ _ _ _ H) as Hsep.
  destruct (Hsep a Ha) as (?&?&?&?&?&?).
  pose proof (ma_adversary _ _ _ _ H) as Hadv. rewrite Ha in Hadv.
  destruct (m_adversary m) as [q|] eqn:Hq; [|done]. destruct H.
  constructor; simpl; try done; lookups; try done.
  rewrite Ha. by lookups.
Qed.

(** A store extended by a fresh object. *)
Lemma models_at_alloc h e E m o :
  models_at h e E m → models_at (h ++ [o]) e E m.
Proof.
  intros []. constructor; try done; try by apply lookup_app_l_Some.
  destruct (adversary E), (m_adversary m); try done.
  by apply lookup_app_l_Some.
Qed.

(** [env.obstacles = moved] for a set object allocated last. *)
Lemma models_at_new_obstacles h e E m s :
  models_at h e E m → NoDup s →
  models_at (<[e := OEnv (with_obstacles (length h) E)]> (h ++ [OSet s]))
            e (with_obstacles (length h) E) (m_with_obstacles s m).
Proof.
  intros H Hs. separate (ma_separate _ _ _ _ H) as Hsep.
  pose proof (models_at_alloc _ _ _ _ (OSet s) H) as H'.
  pose proof (lookup_lt_Some _ _ _ (ma_env _ _ _ _ H)).
  pose proof (lookup_lt_Some _ _ _ (ma_obstacles _ _ _ _ H)).
  pose proof (lookup_lt_Some _ _ _ (ma_agent _ _ _ _ H)).
  pose proof (lookup_lt_Some _ _ _ (ma_goal _ _ _ _ H)).
  pose proof (lookup_lt_Some _ _ _ (ma_seen _ _ _ _ H)).
  pose proof (lookup_lt_Some _ _ _ (ma_recent _ _ _ _ H)).
  assert (Hadv : ∀ a, adversary E = Some a → (a < length h)%nat).
  { intros a Ha. pose proof (ma_adversary _ _ _ _ H) as Hp. rewrite Ha in Hp.
    destruct (m_adversary m); [|done]. by eapply lookup_lt_Some. }
  pose proof (ma_separate _ _ _ _ H) as ma_separate0.
  destruct H'.
  constructor; simpl; try done; lookups; try done.
  - rewrite list_lookup_insert_ne by nlia.
    rewrite lookup_app_r by nlia. by rewrite Nat.sub_diag.
  - destruct (adversary E) as [a|] eqn:Ha, (m_adversary m); try done.
    destruct (Hsep a eq_refl) as (?&?&?&?&?&?). by lookups.
  - unfold refsOf in *. simpl.
    apply NoDup_cons in ma_separate0 as [Hne Hnd].
    apply NoDup_cons in Hnd as [_ Hnd].
    apply not_elem_of_cons in Hne as [_ Hne].
    apply NoDup_cons. split.
    + apply not_elem_of_cons. split; [nlia | done].
    + apply NoDup_cons. split; [|done].
      intros Hin. repeat (apply elem_of_cons in Hin as [Hin|Hin]; [nlia|]).
      destruct (adversary E) as [a|] eqn:Ha.
      * apply list_elem_of_singleton in Hin. specialize (Hadv a eq_refl). nlia.
      * by apply elem_of_nil in Hin.
Qed.

(** The scalar fields and the [recent] array, as [account] leaves them. *)
Lemma models_at_account h e E m E' m' rc :
  models_at h e E m →
  obstacles E' = obstacles E → agent E' = agent E → goal E' = goal E →
  adversary E' = adversary E → seen E' = seen E → recent E' = recent E →
  width E' = width E → height E' = height E →
  m_obstacles m' = m_obstacles m → m_agent m' = m_agent m →
  m_goal m' = m_goal m → m_adversary m' = m_adversary m →
  m_seen m' = m_seen m → m_width m' = m_width m → m_height m' = m_height m →
  m_recent m' = rc →
  tick E' = m_tick m' → reward E' = m_reward m' → done E' = m_done m' →
  bestDist E' = m_bestDist m' → lastImprovedTick E' = m_lastImprovedTick m' →
  models_at (<[recent E := OArray rc]> (<[e := OEnv E']> h)) e E' m'.
Proof.
  intros H Ho Ha Hg Hadv Hs Hr Hw Hh Hmo Hma Hmg Hmadv Hms Hmw Hmh Hmr.
  intros Ht Hrw Hd Hb Hl.
  separate (ma_separate _ _ _ _ H) as Hsep. destruct H.
  constructor; rewrite ?Ho, ?Ha, ?Hg, ?Hadv, ?Hs, ?Hr, ?Hw, ?Hh, ?Hmo, ?Hma,
    ?Hmg, ?Hmadv, ?Hms, ?Hmw, ?Hmh, ?Hmr; try done; lookups; try done.
  - destruct (adversary E) as [a|] eqn:Hae, (m_adversary m); try done.
    destruct (Hsep a eq_refl) as (?&?&?&?&?&?). by lookups.
  - unfold refsOf. by rewrite Ho, Ha, Hg, Hadv, Hs, Hr.
Qed.

(** ** Frames *)

Lemma frame_refl F h : frame F h h.
Proof. by split. Qed.

Lemma frame_insert F h0 h l o :
  frame F h0 h → l ∈ F ∨ (length h0 ≤ l)%nat → frame F h0 (<[l:=o]> h).
Proof.
  intros [Hlen Hf] Hl. split; [by rewrite length_insert|].
  intros l' Hl' Hn. rewrite list_lookup_insert_ne; [by apply Hf|].
  intros ->. destruct Hl; [done | lia].
Qed.

Lemma frame_alloc F h0 h o : frame F h0 h → frame F h0 (h ++ [o]).
Proof.
  intros [Hlen Hf]. split; [rewrite length_app; lia|].
  intros l Hl Hn. rewrite lookup_app_l by lia. by apply Hf.
Qed.

Lemma frame_trans F F' h0 h1 h2 :
  frame F h0 h1 → frame F' h1 h2 →
  (∀ l, l ∈ F' → l ∈ F ∨ (length h0 ≤ l)%nat) →
  frame F h0 h2.
Proof.
  intros [Hlen1 Hf1] [Hlen2 Hf2] Hsub. split; [lia|].
  intros l Hl Hn. rewrite Hf2; [by apply Hf1 | lia |].
  intros Hin. destruct (Hsub l Hin); [done | lia].
Qed.

(** ** Loops *)

Lemma forEach_fold {A S} (I : S → world → Prop) (f : S → A → S)
    (body : A → M unit) (l : list A) :
  (∀ x st w, x ∈ l → I st w →
     ∃ w', body x w = Some (tt, w') ∧ I (f st x) w') →
  ∀ st w, I st w →
    ∃ w', forEach l body w = Some (tt, w') ∧ I (foldl f st l) w'.
Proof.
  induction l as [|x l IH]; intros Hbody st w HI; simpl.
  - by exists w.
  - destruct (Hbody x st w) as (w1 & Hrun & HI1); [by left | done |].
    rewrite (bind_run _ _ _ _ _ Hrun).
    apply IH; [|done]. intros y st' w' Hy. apply Hbody. by right.
Qed.

Lemma forFold_fold {A S T} (I : T → world → Prop) (R : T → S → Prop)
    (f : T → A → T) (body : A → S → M S) (l : list A) :
  (∀ x s st w, x ∈ l → I st w → R st s →
     ∃ s' w', body x s w = Some (s', w') ∧ I (f st x) w' ∧ R (f st x) s') →
  ∀ s st w, I st w → R st s →
    ∃ s' w', forFold l s body w = Some (s', w')
             ∧ I (foldl f st l) w' ∧ R (foldl f st l) s'.
Proof.
  induction l as [|x l IH]; intros Hbody s st w HI HR; simpl.
  - by exists s, w.
  - destruct (Hbody x s st w) as (s1 & w1 & Hrun & HI1 & HR1); [by left | done..|].
    rewrite (bind_run _ _ _ _ _ Hrun).
    apply IH; [|done..]. intros y s' st' w' Hy. apply Hbody. by right.
Qed.

Lemma foldl_bind {A B S} (f : S → B → S) (k : A → list B) (l : list A) st :
  foldl f st (l ≫= k) = foldl (λ st x, foldl f st (k x)) st l.
Proof.
  revert st. induction l as [|x l IH]; intros st; [done|].
  change ((x :: l) ≫= k) with (k x ++ l ≫= k).
  by rewrite foldl_app, IH.
Qed.

(** The fold over the cells of two nested loops. *)
Lemma foldl_singletons {B C S} (f : S → C → S) (g : B → C) (l : list B) st :
  foldl f st (b ← l; [g b]) = foldl (λ st b, f st (g b)) st l.
Proof. revert st. induction l as [|b l IH]; intros st; [done|]. apply IH. Qed.

Lemma foldl_nested {A B C S} (f : S → C → S) (g : A → B → C)
    (l1 : list A) (l2 : list B) st :
  foldl f st (a ← l1; b ← l2; [g a b])
  = foldl (λ st a, foldl (λ st b, f st (g a b)) st l2) st l1.
Proof.
  rewrite foldl_bind. revert st.
  induction l1 as [|a l1 IH]; intros st; [done|].
  simpl. by rewrite IH, foldl_singletons.
Qed.

Lemma refs_allocated h e E m l :
  models_at h e E m → l ∈ e :: refsOf E → (l < length h)%nat.
Proof.
  intros H Hl. unfold refsOf in Hl.
  repeat (apply elem_of_cons in Hl as [->|Hl];
          [eapply lookup_lt_Some; apply H|]).
  pose proof (ma_adversary _ _ _ _ H) as Ha.
  destruct (adversary E) as [a|]; [|by apply elem_of_nil in Hl].
  apply list_elem_of_singleton in Hl as ->.
  destruct (m_adversary m); [|done]. by eapply lookup_lt_Some.
Qed.

(** A store at a location that is not part of the environment. *)
Lemma models_at_other h e E m l o :
  models_at h e E m → l ∉ e :: refsOf E → models_at (<[l:=o]> h) e E m.
Proof.
  intros H Hl. unfold refsOf in Hl.
  repeat (apply not_elem_of_cons in Hl as [? Hl]).
  destruct H. constructor; try done; try by lookups.
  destruct (adversary E) as [a|], (m_adversary m); try done.
  apply not_elem_of_cons in Hl as [? _]. by lookups.
Qed.

Lemma insert_last {A} (h : list A) x y : <[length h := y]> (h ++ [x]) = h ++ [y].
Proof. by rewrite insert_app_r_alt, Nat.sub_diag by lia. Qed.

Lemma lookup_last {A} (h : list A) x : (h ++ [x]) !! length h = Some x.
Proof. by rewrite lookup_app_r, Nat.sub_diag by lia. Qed.


(** ** Sets without repetition *)

Lemma add_NoDup k s : NoDup s → NoDup (JSSet.add k s).
Proof.
  intros Hs. unfold JSSet.add, JSSet.has. case_bool_decide; [done|].
  apply NoDup_app. split; [done|]. split; [|apply NoDup_singleton].
  intros x Hx Hk. apply list_elem_of_singleton in Hk. by subst.
Qed.

Lemma delete_NoDup k s : NoDup s → NoDup (JSSet.delete k s).
Proof. apply NoDup_filter. Qed.

Lemma foldl_add_NoDup (l : list key) s :
  NoDup s → NoDup (foldl (λ s k, JSSet.add k s) s l).
Proof.
  revert s. induction l as [|k l IH]; intros s Hs; [done|].
  simpl. by apply IH, add_NoDup.
Qed.

Lemma elem_of_add k k' s : k' ∈ JSSet.add k s ↔ k' = k ∨ k' ∈ s.
Proof.
  unfold JSSet.add, JSSet.has. case_bool_decide.
  - split; [by right|]. intros [->|]; done.
  - rewrite elem_of_app, list_elem_of_singleton. tauto.
Qed.

Lemma length_add k s : (length s ≤ length (JSSet.add k s))%nat.
Proof.
  unfold JSSet.add. destruct (JSSet.has k s); [done|].
  rewrite length_app. lia.
Qed.

(** ** The sections of [stepEnvironment] compute their value functions *)

Ltac run L :=
  erewrite bind_run;
  [| eapply L;
     first [ eassumption
           | eauto using ma_env, ma_obstacles, ma_agent, ma_goal, ma_seen,
               ma_recent ] ].

Lemma sameFixed_refl E : sameFixed E E.
Proof. by repeat split. Qed.

Lemma sameFixed_trans E1 E2 E3 :
  sameFixed E1 E2 → sameFixed E2 E3 → sameFixed E1 E3.
Proof.
  intros (?&?&?&?&?&?&?) (?&?&?&?&?&?&?). repeat split; congruence.
Qed.

Lemma refs_evolve e E E' n :
  sameFixed E E' → obstacles E' = obstacles E ∨ (n ≤ obstacles E')%nat →
  ∀ l, l ∈ e :: refsOf E' → l ∈ e :: refsOf E ∨ (n ≤ l)%nat.
Proof.
  intros (Hw & Hh & Ha & Hg & Hadv & Hs & Hr) Ho l.
  unfold refsOf. rewrite Ha, Hg, Hadv, Hs, Hr.
  rewrite !elem_of_cons. destruct Ho as [-> | Ho]; [tauto|].
  intros [?|[->|?]]; tauto.
Qed.

Section Sections.

Context (rnd : nat → draw) (lps : nat → N) (lc : nat) (t : N).

Abbreviation W h c := (World h rnd c lps lc t).

Lemma isBlocked_run h e E m x y c :
  models_at h e E m →
  isBlocked e x y (W h c) = Some (blockedV m x y, W h c).
Proof.
  intros H. unfold isBlocked, blockedV.
  run getEnv_run.
  rewrite (ma_width _ _ _ _ H), (ma_height _ _ _ _ H).
  destruct ((x <? 0) || (y <? 0) || (x >=? m_width m) || (y >=? m_height m));
    [done|].
  by run getSet_run.
Qed.

Lemma slip_filter_nonempty action :
  filter (λ d, name d ≠ name action) DIRS ≠ [].
Proof.
  intros Hnil.
  destruct (decide (name UP = name action)) as [Hu|Hu].
  - assert (Hin : RIGHT ∈ filter (λ d, name d ≠ name action) DIRS).
    { apply list_elem_of_filter. split.
      - rewrite <- Hu. done.
      - unfold DIRS. inlist. }
    rewrite Hnil in Hin. by apply elem_of_nil in Hin.
  - assert (Hin : UP ∈ filter (λ d, name d ≠ name action) DIRS).
    { apply list_elem_of_filter. split; [done|]. unfold DIRS. inlist. }
    rewrite Hnil in Hin. by apply elem_of_nil in Hin.
Qed.

Lemma slip_run cfg action h c :
  slip cfg action (W h c)
  = Some ((slipV rnd cfg action c).1, W h (slipV rnd cfg action c).2).
Proof.
  unfold slip, slipV. run random_run.
  destruct (Qltb (draw_val (rnd c)) (slipProb cfg)); [|done].
  destruct (choice_def_run (filter (λ d, name d ≠ name action) DIRS)
              h rnd (S c) lps lc t (slip_filter_nonempty action))
    as (a & Ha & _ & Hrun).
  rewrite Hrun. simpl. by rewrite Ha.
Qed.

Lemma moveAgent_run h e E m a c :
  models_at h e E m →
  ∃ h', moveAgent e E a (W h c) = Some (tt, W h' c)
        ∧ models_at h' e E (moveAgentV a m)
        ∧ frame (e :: refsOf E) h h'.
Proof.
  intros H. unfold moveAgent, moveAgentV.
  run getPoint_run.
  run isBlocked_run.
  destruct (blockedV m _ _); simpl.
  - exists h. split; [done|]. split; [done | apply frame_refl].
  - eexists. split.
    + run setX_run. simpl.
      erewrite setY_run; [|apply list_lookup_insert_eq; eapply lookup_lt_Some, H].
      rewrite list_insert_insert_eq. simpl. reflexivity.
    + rewrite (ma_width _ _ _ _ H), (ma_height _ _ _ _ H).
      split; [by apply models_at_agent|].
      apply frame_insert; [apply frame_refl|]. left. unfold refsOf. inlist.
Qed.

Lemma inGrid_value h e E m x y :
  models_at h e E m → inGrid E x y = inGridV m x y.
Proof.
  intros H. unfold inGrid, inGridV.
  by rewrite (ma_width _ _ _ _ H), (ma_height _ _ _ _ H).
Qed.

Lemma reveal_cell_run h e E m noise dx dy st w :
  models_at h e E m → seenState rnd lps lc t h E st w →
  ∃ w', (ag <- getPoint (agent E) ;;
         let x := px ag + dx in
         let y := py ag + dy in
         when (inGrid E x y)
              (v <- random ;;
               if Qltb v noise then ret tt
               else setAdd (seen E) (x, y))) w = Some (tt, w')
        ∧ seenState rnd lps lc t h E
            (revealStep rnd m noise st
               (px (m_agent m) + dx, py (m_agent m) + dy)) w'.
Proof.
  intros H [-> Hnd].
  separate (ma_separate _ _ _ _ H) as Hsep.
  pose proof (ma_agent _ _ _ _ H) as Hag.
  pose proof (ma_seen _ _ _ _ H) as Hsn.
  erewrite bind_run; [|apply getPoint_run; by lookups].
  cbv beta zeta. rewrite (inGrid_value _ _ _ _ _ _ H). unfold revealStep. simpl.
  destruct (inGridV m _ _); simpl; [|by eexists].
  run random_run.
  destruct (Qltb _ noise); simpl; [by eexists|].
  eexists. split.
  - erewrite setAdd_run; [|by lookups]. by rewrite list_insert_insert_eq.
  - split; [done|]. by apply add_NoDup.
Qed.

Lemma add_cell_run h e E m k (s : JSSet.t) c w :
  models_at h e E m → seenState rnd lps lc t h E (s, c) w →
  ∃ w', setAdd (seen E) k w = Some (tt, w')
        ∧ seenState rnd lps lc t h E (JSSet.add k s, c) w'.
Proof.
  intros H [-> Hnd]. pose proof (ma_seen _ _ _ _ H) as Hsn. simpl in *.
  eexists. split.
  - erewrite setAdd_run; [|by lookups]. by rewrite list_insert_insert_eq.
  - split; [done|]. by apply add_NoDup.
Qed.

Lemma reveal_run h e E m cfg c :
  models_at h e E m →
  ∃ h', reveal e E cfg (W h c) = Some (tt, W h' (revealV rnd cfg m c).2)
        ∧ models_at h' e E (revealV rnd cfg m c).1
        ∧ frame (e :: refsOf E) h h'.
Proof.
  intros H. unfold reveal, revealV.
  pose proof (ma_seen _ _ _ _ H) as Hsn.
  assert (Hin : seen E ∈ e :: refsOf E) by (unfold refsOf; inlist).
  destruct (partialObs cfg).
  - set (r := obsRadius cfg). set (noise := sensorNoise cfg).
    destruct (forEach_fold (seenState rnd lps lc t h E)
                (λ st dy, foldl (λ st dx, revealStep rnd m noise st
                                   (px (m_agent m) + dx, py (m_agent m) + dy))
                                st (range (- r) r))
                (λ dy, forEach (range (- r) r) (λ dx,
                   ag <- getPoint (agent E) ;;
                   let x := px ag + dx in
                   let y := py ag + dy in
                   when (inGrid E x y)
                        (v <- random ;;
                         if Qltb v noise then ret tt
                         else setAdd (seen E) (x, y))))
                (range (- r) r)) with (st := (m_seen m, c)) (w := W h c)
      as (w' & Hrun & [-> Hnd]).
    + intros dy st w _ Hst.
      apply (forEach_fold (seenState rnd lps lc t h E)
               (λ st dx, revealStep rnd m noise st
                  (px (m_agent m) + dx, py (m_agent m) + dy))); [|done].
      intros dx st' w' _ Hst'. by eapply reveal_cell_run.
    + split; [|apply H]. simpl. by rewrite list_insert_id.
    + unfold window.
      rewrite (foldl_nested _ (λ dy dx, (px (m_agent m) + dx, py (m_agent m) + dy))).
      simpl. eexists. split; [exact Hrun|]. split.
      * by apply models_at_seen.
      * apply frame_insert; [apply frame_refl | by left].
  - run getSet_run. rewrite (ma_width _ _ _ _ H), (ma_height _ _ _ _ H).
    destruct (JSSet.size (m_seen m) <? m_width m * m_height m); simpl.
    2:{ exists h. split; [done|]. split; [done | apply frame_refl]. }
    destruct (forEach_fold (λ s, seenState rnd lps lc t h E (s, c))
                (λ s y, foldl (λ s x, JSSet.add (x, y) s)
                              s (range 0 (m_width m - 1)))
                (λ y, forEach (range 0 (m_width m - 1)) (λ x,
                   setAdd (seen E) (x, y)))
                (range 0 (m_height m - 1))) with (st := m_seen m) (w := W h c)
      as (w' & Hrun & [-> Hnd]).
    + intros y st w _ Hst.
      apply (forEach_fold (λ s, seenState rnd lps lc t h E (s, c))
               (λ s x, JSSet.add (x, y) s)); [|done].
      intros x s' w' _ Hst'. by eapply add_cell_run.
    + split; [|apply H]. simpl. by rewrite list_insert_id.
    + unfold allCells.
      rewrite (foldl_nested (λ s k, JSSet.add k s) (λ y x, (x, y))).
      simpl in *. eexists. split; [exact Hrun|]. split.
      * by apply models_at_seen.
      * apply frame_insert; [apply frame_refl | by left].
Qed.

Lemma driftOne_run h e E m k st w :
  models_at h e E m → movedState rnd lps lc t h st w →
  ∃ w', driftOne e E (length h) k w = Some (tt, w')
        ∧ movedState rnd lps lc t h (driftStep rnd m st k) w'.
Proof.
  intros H [-> Hnd]. destruct k as [ox oy]. unfold driftOne.
  pose proof (models_at_alloc _ _ _ _ (OSet st.1) H) as H'.
  destruct (choice_def_run DIRS (h ++ [OSet st.1]) rnd st.2 lps lc t)
    as (d & Hd & _ & Hrun); [done|].
  rewrite (bind_run _ _ _ _ _ Hrun).
  run isBlocked_run. run getPoint_run. run getPoint_run.
  unfold driftStep, driftTarget. rewrite Hd. simpl.
  rewrite (ma_width _ _ _ _ H), (ma_height _ _ _ _ H).
  destruct (negb _ && negb _ && negb _).
  - eexists. split.
    + erewrite setAdd_run by apply lookup_last. by rewrite insert_last.
    + split; [done|]. by apply add_NoDup.
  - eexists. split.
    + erewrite setAdd_run by apply lookup_last. by rewrite insert_last.
    + split; [done|]. by apply add_NoDup.
Qed.

Lemma driftObstacles_run h e E m cfg c :
  models_at h e E m →
  ∃ h' E',
    driftObstacles e E cfg (W h c)
    = Some (tt, W h' (driftObstaclesV rnd cfg m c).2)
    ∧ models_at h' e E' (driftObstaclesV rnd cfg m c).1
    ∧ frame (e :: refsOf E) h h'
    ∧ sameFixed E E'
    ∧ (obstacles E' = obstacles E ∨ (length h ≤ obstacles E')%nat).
Proof.
  intros H. unfold driftObstacles, driftObstaclesV.
  rewrite (ma_tick _ _ _ _ H).
  destruct (dynamicObstacles cfg && (Z.rem (m_tick m) 3 =? 0)); simpl.
  2:{ exists h, E. split; [done|]. split; [done|].
      split; [apply frame_refl|]. split; [apply sameFixed_refl | by left]. }
  unfold bind at 1. simpl.
  pose proof (models_at_alloc _ _ _ _ (OSet []) H) as H0.
  run getSet_run.
  destruct (forEach_fold (movedState rnd lps lc t h) (driftStep rnd m)
              (driftOne e E (length h)) (m_obstacles m))
    with (st := (@nil key, c)) (w := W (h ++ [OSet []]) c)
    as (w' & Hrun & [-> Hnd]).
  { intros k st w _ Hst. by eapply driftOne_run. }
  { split; [done | apply NoDup_nil_2]. }
  rewrite (bind_run _ _ _ _ _ Hrun). fold (driftAll rnd m (m_obstacles m) c) in *.
  set (r := driftAll rnd m (m_obstacles m) c) in *.
  pose proof (models_at_alloc _ _ _ _ (OSet r.1) H) as H1.
  run updEnv_run.
  pose proof (models_at_new_obstacles _ _ _ _ _ H Hnd) as H2.
  set (E1 := with_obstacles (length h) E) in *.
  set (h2 := <[e:=OEnv E1]> (h ++ [OSet r.1])) in *.
  assert (Hf2 : frame (e :: refsOf E) h h2).
  { apply frame_insert; [apply frame_alloc, frame_refl | left; inlist]. }
  erewrite bind_run; [|apply getPoint_run; apply (ma_agent _ _ _ _ H2)].
  erewrite bind_run;
    [|apply setDelete_run; apply (ma_obstacles _ _ _ _ H2)].
  cbn [m_agent m_goal m_obstacles m_adversary m_with_obstacles].
  set (s3 := JSSet.delete (keyOf (m_agent m)) r.1).
  set (h3 := <[length h := OSet s3]> h2).
  assert (H3 : models_at h3 e E1 (m_with_obstacles s3 m)).
  { apply (models_at_obstacles _ _ _ _ _ H2), delete_NoDup, Hnd. }
  assert (Hf3 : frame (e :: refsOf E) h h3).
  { apply frame_insert; [done | by right]. }
  erewrite bind_run; [|apply getPoint_run; apply (ma_goal _ _ _ _ H3)].
  erewrite bind_run;
    [|apply setDelete_run; apply (ma_obstacles _ _ _ _ H3)].
  cbn [m_agent m_goal m_obstacles m_adversary m_with_obstacles].
  set (s4 := JSSet.delete (keyOf (m_goal m)) s3).
  set (h4 := <[length h := OSet s4]> h3).
  assert (H4 : models_at h4 e E1 (m_with_obstacles s4 m)).
  { apply (models_at_obstacles _ _ _ _ _ H3), delete_NoDup, delete_NoDup, Hnd. }
  assert (Hf4 : frame (e :: refsOf E) h h4).
  { apply frame_insert; [done | by right]. }
  pose proof (ma_adversary _ _ _ _ H4) as Hadv. simpl in Hadv.
  destruct (adversary E) as [a|] eqn:Ha, (m_adversary m) as [p|] eqn:Hp;
    try done.
  - run getPoint_run.
    eexists _, E1. split.
    + erewrite setDelete_run by apply (ma_obstacles _ _ _ _ H4). reflexivity.
    + split.
      * apply (models_at_obstacles _ _ _ _ _ H4). by repeat apply delete_NoDup.
      * split; [apply frame_insert; [done | by right]|].
        split; [by repeat split | by right].
  - eexists _, E1. split; [reflexivity|].
    split; [exact H4|]. split; [done|]. split; [by repeat split | by right].
Qed.

Lemma filterM_run {A} (P : A → Prop) `{∀ x, Decision (P x)}
    (p : A → M bool) (q : A → bool) (l : list A) w :
  (∀ x, p x w = Some (q x, w)) → (∀ x, P x ↔ q x = true) →
  filterM p l w = Some (filter P l, w).
Proof.
  intros Hp HP. induction l as [|x l IH]; [done|]. simpl.
  rewrite (bind_run _ _ _ _ _ (Hp x)), (bind_run _ _ _ _ _ IH).
  unfold ret. destruct (q x) eqn:Hq.
  - by rewrite filter_cons_True by by apply HP.
  - rewrite filter_cons_False; [done|]. rewrite HP. congruence.
Qed.

Lemma advCandidates_run h e E m adv c :
  models_at h e E m →
  advCandidates e E adv (W h c) = Some (advCandidatesV m adv, W h c).
Proof.
  intros H. unfold advCandidates, advCandidatesV.
  rewrite (ma_width _ _ _ _ H), (ma_height _ _ _ _ H).
  apply (filterM_run _ _ (λ p, negb (blockedV m (px p) (py p)))).
  - intros p. by run isBlocked_run.
  - intros p. by rewrite negb_true_iff.
Qed.

Lemma moveAdversary_run h e E m cfg c :
  models_at h e E m →
  ∃ h', moveAdversary e E cfg (W h c)
        = Some ((moveAdversaryV rnd cfg m c).1.2,
                W h' (moveAdversaryV rnd cfg m c).2)
        ∧ models_at h' e E (moveAdversaryV rnd cfg m c).1.1
        ∧ frame (e :: refsOf E) h h'.
Proof.
  intros H. unfold moveAdversary, moveAdversaryV.
  pose proof (ma_adversary _ _ _ _ H) as Hadv.
  destruct (adversary E) as [a|] eqn:Ha, (m_adversary m) as [adv|] eqn:Hm;
    try done.
  2:{ exists h. split; [done|]. split; [done | apply frame_refl]. }
  separate (ma_separate _ _ _ _ H) as Hsep.
  destruct (Hsep a Ha) as (?&?&?&?&?&?).
  pose proof (ma_agent _ _ _ _ H) as Hag.
  assert (Hin : a ∈ e :: refsOf E).
  { unfold refsOf. rewrite Ha. inlist. }
  run getPoint_run. run advCandidates_run.
  set (cands := advCandidatesV m adv).
  set (r := if String.eqb (adversaryType cfg) "chaser" then
              (foldl (λ b c, if manhattan c (m_agent m) <? manhattan b (m_agent m)
                             then c else b)
                     (default (Pt (px adv) (py adv)) (head cands)) cands, c)
            else (default (Pt (px adv) (py adv)) (pickAt rnd c cands), S c)).
  assert (Hmove :
    (if String.eqb (adversaryType cfg) "chaser" then
       ag <- getPoint (agent E) ;;
       ret (foldl (λ b c, if manhattan c ag <? manhattan b ag then c else b)
                  (default (Pt (px adv) (py adv)) (head cands)) cands)
     else
       o <- choice cands ;; ret (default (Pt (px adv) (py adv)) o))
      (W h c) = Some (r.1, W h r.2)).
  { subst r. destruct (String.eqb _ _).
    - by run getPoint_run.
    - by rewrite (bind_run _ _ _ _ _ (choice_run _ _ _ _ _ _ _)). }
  rewrite (bind_run _ _ _ _ _ Hmove).
  run setX_run. 
  erewrite bind_run; [|apply setY_run; by lookups].
  rewrite list_insert_insert_eq. simpl.
  erewrite bind_run; [|apply getPoint_run; by lookups].
  erewrite bind_run; [|apply getPoint_run; by lookups].
  eexists. split; [reflexivity|]. split.
  - by apply models_at_adversary.
  - apply frame_insert; [apply frame_refl | by left].
Qed.

Lemma account_run h e E m cfg pen c :
  models_at h e E m →
  ∃ h' E',
    account e E cfg pen (W h c) = Some (tt, W h' c)
    ∧ models_at h' e E' (accountV cfg pen m)
    ∧ frame (e :: refsOf E) h h'
    ∧ sameFixed E E' ∧ obstacles E' = obstacles E.
Proof.
  intros H. unfold account.
  separate (ma_separate _ _ _ _ H) as Hsep.
  pose proof (ma_env _ _ _ _ H) as He.
  pose proof (ma_recent _ _ _ _ H) as Hrc.
  assert (Hine : e ∈ e :: refsOf E) by inlist.
  assert (Hinr : recent E ∈ e :: refsOf E) by (unfold refsOf; inlist).
  set (m' := accountV cfg pen m).
  set (E' := EnvObj (m_tick m') (width E) (height E) (obstacles E) (agent E)
                    (goal E) (adversary E) (m_reward m') (m_done m')
                    (seen E) (recent E) (m_bestDist m')
                    (m_lastImprovedTick m')).
  exists (<[recent E := OArray (m_recent m')]> (<[e := OEnv E']> h)), E'.
  split; [|split; [|split; [|split]]].
  - run getPoint_run. run getPoint_run. run updEnv_run.
    erewrite bind_run; [|apply updEnv_run; by lookups].
    rewrite list_insert_insert_eq.
    erewrite bind_run; [|apply getEnv_run; by lookups].
    cbn [with_reward with_tick bestDist tick reward].
    subst E' m'. unfold accountV.
    rewrite <- (ma_tick _ _ _ _ H), <- (ma_reward _ _ _ _ H),
      <- (ma_bestDist _ _ _ _ H), <- (ma_done _ _ _ _ H),
      <- (ma_lastImprovedTick _ _ _ _ H).
    cbn [m_tick m_reward m_done m_bestDist m_lastImprovedTick m_recent].
    destruct (manhattan (m_agent m) (m_goal m) <? bestDist E) eqn:Himp;
      cbn [when].
    + erewrite bind_run.
      2:{ erewrite bind_run; [|apply updEnv_run; by lookups].
          rewrite list_insert_insert_eq.
          apply updEnv_run. by lookups. }
      rewrite list_insert_insert_eq.
      erewrite bind_run; [|apply getArray_run; by lookups].
      erewrite bind_run; [|eapply store_run; by lookups].
      erewrite bind_run; [|apply getArray_run; by lookups].
      destruct (JSArray.lengthZ _ >? 16) eqn:Hlen; cbn [when].
      * erewrite bind_run; [|eapply store_run; by lookups].
        rewrite list_insert_insert_eq.
        destruct (episodic cfg && samePoint (m_agent m) (m_goal m));
          cbn [when].
        -- erewrite updEnv_run by by lookups.
           rewrite (list_insert_insert_ne _ e (recent E)) by done.
           by rewrite list_insert_insert_eq.
        -- destruct E; reflexivity.
      * unfold bind at 1, ret at 1.
        destruct (episodic cfg && samePoint (m_agent m) (m_goal m));
          cbn [when].
        -- erewrite updEnv_run by by lookups.
           rewrite (list_insert_insert_ne _ e (recent E)) by done.
           by rewrite list_insert_insert_eq.
        -- destruct E; reflexivity.
    + unfold bind at 1, ret at 1.
      erewrite bind_run; [|apply getArray_run; by lookups].
      erewrite bind_run; [|eapply store_run; by lookups].
      erewrite bind_run; [|apply getArray_run; by lookups].
      destruct (JSArray.lengthZ _ >? 16) eqn:Hlen; cbn [when].
      * erewrite bind_run; [|eapply store_run; by lookups].
        rewrite list_insert_insert_eq.
        destruct (episodic cfg && samePoint (m_agent m) (m_goal m));
          cbn [when].
        -- erewrite updEnv_run by by lookups.
           rewrite (list_insert_insert_ne _ e (recent E)) by done.
           by rewrite list_insert_insert_eq.
        -- destruct E; reflexivity.
      * unfold bind at 1, ret at 1.
        destruct (episodic cfg && samePoint (m_agent m) (m_goal m));
          cbn [when].
        -- erewrite updEnv_run by by lookups.
           rewrite (list_insert_insert_ne _ e (recent E)) by done.
           by rewrite list_insert_insert_eq.
        -- destruct E; reflexivity.
  - by apply (models_at_account h e E m E' m').
  - apply frame_insert; [apply frame_insert; [apply frame_refl|] |]; by left.
  - by repeat split.
  - done.
Qed.

Lemma moveAdversary_fixed e E E' cfg :
  sameFixed E E' → moveAdversary e E' cfg = moveAdversary e E cfg.
Proof.
  intros (Hw & Hh & Ha & Hg & Hadv & Hs & Hr).
  unfold moveAdversary, advCandidates. by rewrite Hw, Hh, Ha, Hadv.
Qed.

Lemma account_fixed e E E' cfg pen :
  sameFixed E E' → account e E' cfg pen = account e E cfg pen.
Proof.
  intros (Hw & Hh & Ha & Hg & Hadv & Hs & Hr).
  unfold account. by rewrite Ha, Hg, Hr.
Qed.

(** [stepEnvironment] computes [stepModel] on every well-formed store,
    and writes only to the objects of the environment and to objects
    it allocates. *)
Theorem stepEnvironment_value h e E m cfg a c :
  models_at h e E m →
  ∃ h' E',
    stepEnvironment e cfg a (W h c)
    = Some (e, W h' (stepModel rnd cfg a m c).2)
    ∧ models_at h' e E' (stepModel rnd cfg a m c).1
    ∧ frame (e :: refsOf E) h h'
    ∧ sameFixed E E'
    ∧ (obstacles E' = obstacles E ∨ (length h ≤ obstacles E')%nat).
Proof.
  intros H. unfold stepEnvironment, stepModel.
  run getEnv_run. rewrite (ma_done _ _ _ _ H).
  destruct (m_done m).
  { exists h, E. split; [done|]. split; [done|].
    split; [apply frame_refl|]. split; [apply sameFixed_refl | by left]. }
  rewrite (bind_run _ _ _ _ _ (slip_run _ _ _ _)).
  set (s := slipV rnd cfg a c).
  destruct (moveAgent_run h e E m s.1 s.2 H) as (h1 & Hrun1 & H1 & Hf1).
  rewrite (bind_run _ _ _ _ _ Hrun1).
  set (m1 := moveAgentV s.1 m) in *.
  destruct (reveal_run h1 e E m1 cfg s.2 H1) as (h2 & Hrun2 & H2 & Hf2).
  rewrite (bind_run _ _ _ _ _ Hrun2).
  set (r2 := revealV rnd cfg m1 s.2) in *.
  destruct (driftObstacles_run h2 e E r2.1 cfg r2.2 H2)
    as (h3 & E3 & Hrun3 & H3 & Hf3 & Hfix3 & Hobs3).
  rewrite (bind_run _ _ _ _ _ Hrun3).
  set (r3 := driftObstaclesV rnd cfg r2.1 r2.2) in *.
  destruct (moveAdversary_run h3 e E3 r3.1 cfg r3.2 H3)
    as (h4 & Hrun4 & H4 & Hf4).
  rewrite (moveAdversary_fixed e E E3 cfg Hfix3) in Hrun4.
  rewrite (bind_run _ _ _ _ _ Hrun4).
  set (r4 := moveAdversaryV rnd cfg r3.1 r3.2) in *.
  destruct (account_run h4 e E3 r4.1.1 cfg r4.1.2 r4.2 H4)
    as (h5 & E5 & Hrun5 & H5 & Hf5 & Hfix5 & Hobs5).
  rewrite (account_fixed e E E3 cfg _ Hfix3) in Hrun5.
  rewrite (bind_run _ _ _ _ _ Hrun5).
  assert (Hlen2 : (length h ≤ length h2)%nat).
  { destruct Hf1, Hf2. lia. }
  assert (Hobs : obstacles E3 = obstacles E ∨ (length h ≤ obstacles E3)%nat).
  { destruct Hobs3; [by left | right; lia]. }
  exists h5, E5. split; [done|]. split; [done|]. split; [|split].
  - assert (Hf : frame (e :: refsOf E) h h3).
    { eapply frame_trans; [|exact Hf3|by left].
      eapply frame_trans; [exact Hf1|exact Hf2|by left]. }
    eapply frame_trans; [|exact Hf5|by apply refs_evolve].
    eapply frame_trans; [exact Hf|exact Hf4|by apply refs_evolve].
  - by eapply sameFixed_trans.
  - by rewrite Hobs5.
Qed.

End Sections.


(** ** Building a well-formed store *)

Lemma models_heapOf m :
  NoDup (m_obstacles m) → NoDup (m_seen m) →
  models (heapOf m) (modelLoc m) m.
Proof.
  intros Ho Hs. unfold heapOf, modelLoc, allocModel.
  destruct m as [tk w hh obs ag gl [adv|] rw dn sn rc bd li]; simpl in *.
  - exists (EnvObj tk w hh 0%nat 1%nat 2%nat (Some 3%nat) rw dn 4%nat 5%nat bd li).
    constructor; try done. simpl.
    compute_done.
  - exists (EnvObj tk w hh 0%nat 1%nat 2%nat None rw dn 3%nat 4%nat bd li).
    constructor; try done. simpl.
    compute_done.
Qed.

(** A well-formed store determines the value of the model. *)
Lemma models_at_snapshot h e E m : models_at h e E m → snapshot h e = Some m.
Proof.
  intros H. pose proof (ma_adversary _ _ _ _ H) as Hadv.
  destruct H as [He Ho Hag Hgl _ Hsn Hrc ? ? ? ? ? ? ? _ _ _].
  unfold snapshot, lookupEnv, valueOf, lookupSet, lookupPoint, lookupArray.
  rewrite He. simpl. rewrite Ho, Hag, Hgl. simpl.
  destruct m as [? ? ? ? ? ? madv ? ? ? ? ? ?]; simpl in *.
  destruct (adversary E) as [a|], madv as [p|]; try done; simpl.
  - rewrite Hadv. simpl. rewrite Hsn, Hrc. simpl. congruence.
  - rewrite Hsn, Hrc. simpl. congruence.
Qed.

Lemma models_snapshot h e m : models h e m → snapshot h e = Some m.
Proof. intros [E H]. by eapply models_at_snapshot. Qed.

Lemma models_unique h e m m' : models h e m → models h e m' → m = m'.
Proof.
  intros H H'. apply models_snapshot in H, H'. congruence.
Qed.

(** ** What one step keeps and what it changes, on values *)

Section StepFacts.

Context (rnd : nat → draw).

Lemma moveAgentV_fields a m :
  let m' := moveAgentV a m in
  m_tick m' = m_tick m ∧ m_width m' = m_width m ∧ m_height m' = m_height m
  ∧ m_obstacles m' = m_obstacles m ∧ m_goal m' = m_goal m
  ∧ m_adversary m' = m_adversary m ∧ m_reward m' = m_reward m
  ∧ m_done m' = m_done m ∧ m_seen m' = m_seen m
  ∧ m_recent m' = m_recent m ∧ m_bestDist m' = m_bestDist m
  ∧ m_lastImprovedTick m' = m_lastImprovedTick m.
Proof. unfold moveAgentV. by destruct (blockedV _ _ _). Qed.

Lemma revealV_fields cfg m c :
  let m' := (revealV rnd cfg m c).1 in
  m_tick m' = m_tick m ∧ m_width m' = m_width m ∧ m_height m' = m_height m
  ∧ m_obstacles m' = m_obstacles m ∧ m_agent m' = m_agent m
  ∧ m_goal m' = m_goal m
  ∧ m_adversary m' = m_adversary m ∧ m_reward m' = m_reward m
  ∧ m_done m' = m_done m
  ∧ m_recent m' = m_recent m ∧ m_bestDist m' = m_bestDist m
  ∧ m_lastImprovedTick m' = m_lastImprovedTick m.
Proof.
  unfold revealV. destruct (partialObs cfg); [done|].
  by destruct (_ <? _).
Qed.

Lemma driftObstaclesV_fields cfg m c :
  let m' := (driftObstaclesV rnd cfg m c).1 in
  m_tick m' = m_tick m ∧ m_width m' = m_width m ∧ m_height m' = m_height m
  ∧ m_agent m' = m_agent m ∧ m_goal m' = m_goal m
  ∧ m_adversary m' = m_adversary m ∧ m_reward m' = m_reward m
  ∧ m_done m' = m_done m ∧ m_seen m' = m_seen m
  ∧ m_recent m' = m_recent m ∧ m_bestDist m' = m_bestDist m
  ∧ m_lastImprovedTick m' = m_lastImprovedTick m.
Proof. unfold driftObstaclesV. by destruct (_ && _). Qed.

Lemma moveAdversaryV_fields cfg m c :
  let m' := (moveAdversaryV rnd cfg m c).1.1 in
  m_tick m' = m_tick m ∧ m_width m' = m_width m ∧ m_height m' = m_height m
  ∧ m_obstacles m' = m_obstacles m
  ∧ m_agent m' = m_agent m ∧ m_goal m' = m_goal m
  ∧ m_reward m' = m_reward m
  ∧ m_done m' = m_done m ∧ m_seen m' = m_seen m
  ∧ m_recent m' = m_recent m ∧ m_bestDist m' = m_bestDist m
  ∧ m_lastImprovedTick m' = m_lastImprovedTick m.
Proof. unfold moveAdversaryV. by destruct (m_adversary m). Qed.

(** *** The observed cells only grow *)

Lemma revealStep_grows m noise st k :
  (∀ k', k' ∈ st.1 → k' ∈ (revealStep rnd m noise st k).1)
  ∧ (length st.1 ≤ length (revealStep rnd m noise st k).1)%nat.
Proof.
  unfold revealStep. destruct (inGridV _ _ _); [|done].
  destruct (Qltb _ _); [done|]. simpl. split.
  - intros k' Hk'. apply elem_of_add. by right.
  - apply length_add.
Qed.

Lemma foldl_grows {A} (f : JSSet.t * nat → A → JSSet.t * nat) l st :
  (∀ st x, (∀ k', k' ∈ st.1 → k' ∈ (f st x).1)
           ∧ (length st.1 ≤ length (f st x).1)%nat) →
  (∀ k', k' ∈ st.1 → k' ∈ (foldl f st l).1)
  ∧ (length st.1 ≤ length (foldl f st l).1)%nat.
Proof.
  intros Hf. revert st. induction l as [|x l IH]; intros st; [done|].
  simpl. destruct (IH (f st x)) as [IH1 IH2]. destruct (Hf st x) as [H1 H2].
  split; [auto | lia].
Qed.

Lemma foldl_add_grows (l : list key) s :
  (∀ k', k' ∈ s → k' ∈ foldl (λ s k, JSSet.add k s) s l)
  ∧ (length s ≤ length (foldl (λ s k, JSSet.add k s) s l))%nat.
Proof.
  revert s. induction l as [|x l IH]; intros s; [done|].
  simpl. destruct (IH (JSSet.add x s)) as [IH1 IH2].
  pose proof (length_add x s). split; [|lia].
  intros k' Hk'. apply IH1, elem_of_add. by right.
Qed.

Lemma revealV_grows cfg m c :
  (∀ k, k ∈ m_seen m → k ∈ m_seen (revealV rnd cfg m c).1)
  ∧ (length (m_seen m) ≤ length (m_seen (revealV rnd cfg m c).1))%nat.
Proof.
  unfold revealV. destruct (partialObs cfg); simpl.
  - apply (foldl_grows (revealStep rnd m (sensorNoise cfg)) _ (m_seen m, c)).
    intros st x. apply revealStep_grows.
  - destruct (_ <? _); [|done]. simpl. apply foldl_add_grows.
Qed.

Lemma stepModel_seen_grows cfg a m c :
  (∀ k, k ∈ m_seen m → k ∈ m_seen (stepModel rnd cfg a m c).1)
  ∧ JSSet.size (m_seen m) ≤ JSSet.size (m_seen (stepModel rnd cfg a m c).1).
Proof.
  unfold stepModel, JSSet.size. destruct (m_done m); [done|]. simpl.
  set (s := slipV rnd cfg a c).
  set (m1 := moveAgentV s.1 m).
  set (r2 := revealV rnd cfg m1 s.2).
  set (r3 := driftObstaclesV rnd cfg r2.1 r2.2).
  set (r4 := moveAdversaryV rnd cfg r3.1 r3.2).
  destruct (moveAgentV_fields s.1 m) as (_&_&_&_&_&_&_&_&Hs1&_).
  destruct (driftObstaclesV_fields cfg r2.1 r2.2) as (_&_&_&_&_&_&_&_&Hs3&_).
  destruct (moveAdversaryV_fields cfg r3.1 r3.2) as (_&_&_&_&_&_&_&_&Hs4&_).
  fold r3 r4 in Hs3, Hs4. fold m1 in Hs1.
  rewrite Hs4, Hs3, <- Hs1.
  destruct (revealV_grows cfg m1 s.2) as [H1 H2]. fold r2 in H1, H2.
  split; [done | lia].
Qed.

(** *** The best distance only improves *)

Lemma stepModel_bestDist cfg a m c :
  m_bestDist (stepModel rnd cfg a m c).1 ≤ m_bestDist m.
Proof.
  unfold stepModel. destruct (m_done m); [done|]. simpl.
  set (s := slipV rnd cfg a c).
  set (m1 := moveAgentV s.1 m).
  set (r2 := revealV rnd cfg m1 s.2).
  set (r3 := driftObstaclesV rnd cfg r2.1 r2.2).
  set (r4 := moveAdversaryV rnd cfg r3.1 r3.2).
  destruct (moveAgentV_fields s.1 m) as (_&_&_&_&_&_&_&_&_&_&Hb1&_).
  destruct (revealV_fields cfg m1 s.2) as (_&_&_&_&_&_&_&_&_&_&Hb2&_).
  destruct (driftObstaclesV_fields cfg r2.1 r2.2) as (_&_&_&_&_&_&_&_&_&_&Hb3&_).
  destruct (moveAdversaryV_fields cfg r3.1 r3.2) as (_&_&_&_&_&_&_&_&_&_&Hb4&_).
  fold m1 in Hb1. fold r2 in Hb2. fold r3 in Hb3. fold r4 in Hb4.
  rewrite <- Hb1, <- Hb2, <- Hb3, <- Hb4.
  destruct (Z.ltb_spec (manhattan (m_agent r4.1.1) (m_goal r4.1.1))
              (m_bestDist r4.1.1)); lia.
Qed.

End StepFacts.


(** ** Sequences of transitions *)

Lemma advanceAll_value rnd lps lc t cfg actions :
  ∀ h e E m c,
    models_at h e E m →
    ∃ h' E',
      advanceAll e cfg actions (World h rnd c lps lc t)
      = Some (tt, World h' rnd (advanceAllV rnd cfg actions m c).2 lps lc t)
      ∧ models_at h' e E' (advanceAllV rnd cfg actions m c).1.
Proof.
  unfold advanceAll.
  induction actions as [|a actions IH]; intros h e E m c H; simpl.
  - by exists h, E.
  - destruct (stepEnvironment_value rnd lps lc t h e E m cfg a c H)
      as (h1 & E1 & Hrun & H1 & _).
    unfold bind at 1. unfold bind at 1. rewrite Hrun. unfold ret at 1.
    exact (IH _ _ _ _ _ H1).
Qed.

(** ** Transitions without randomness *)

Section Quiet.

Context (cfg : config).
Hypothesis noSlip : (slipProb cfg == 0)%Q.
Hypothesis noDrift : dynamicObstacles cfg = false.

Lemma slipV_quiet rnd a c : slipV rnd cfg a c = (a, S c).
Proof.
  unfold slipV. rewrite Qltb_draw_nonpos; [done|]. rewrite noSlip.
  apply Qle_refl.
Qed.

(** The transition when nothing is drawn but the slip test and the
    sensor tests. *)
Lemma stepModel_quiet rnd a m c :
  m_adversary m = None →
  (stepModel rnd cfg a m c).1
  = if m_done m then m
    else accountV cfg 0 (revealV rnd cfg (moveAgentV a m) (S c)).1.
Proof.
  intros Hadv. unfold stepModel. destruct (m_done m); [done|].
  rewrite slipV_quiet. cbn [fst snd].
  set (r2 := revealV rnd cfg (moveAgentV a m) (S c)).
  unfold driftObstaclesV. rewrite noDrift. cbn [andb fst snd].
  unfold moveAdversaryV.
  destruct (revealV_fields rnd cfg (moveAgentV a m) (S c))
    as (_&_&_&_&_&_&Ha2&_).
  destruct (moveAgentV_fields a m) as (_&_&_&_&_&Ha1&_).
  fold r2 in Ha2. by rewrite Ha2, Ha1, Hadv.
Qed.

Lemma stepModel_adversary rnd a m c :
  m_adversary m = None → m_adversary (stepModel rnd cfg a m c).1 = None.
Proof.
  intros Hadv. rewrite stepModel_quiet by done.
  destruct (m_done m); [done|]. simpl.
  destruct (revealV_fields rnd cfg (moveAgentV a m) (S c))
    as (_&_&_&_&_&_&Ha2&_).
  destruct (moveAgentV_fields a m) as (_&_&_&_&_&Ha1&_).
  by rewrite Ha2, Ha1.
Qed.

(** *** Without sensor noise the result does not depend on the draws *)

Hypothesis noNoise : (sensorNoise cfg == 0)%Q.

Lemma revealStep_quiet rnd m st k :
  (revealStep rnd m (sensorNoise cfg) st k).1
  = if inGridV m k.1 k.2 then JSSet.add k st.1 else st.1.
Proof.
  unfold revealStep. destruct (inGridV _ _ _); [|done].
  rewrite Qltb_draw_nonpos; [done|]. rewrite noNoise. apply Qle_refl.
Qed.

Lemma reveal_fold_quiet rnd1 rnd2 m l :
  ∀ st1 st2, st1.1 = st2.1 →
    (foldl (revealStep rnd1 m (sensorNoise cfg)) st1 l).1
    = (foldl (revealStep rnd2 m (sensorNoise cfg)) st2 l).1.
Proof.
  induction l as [|k l IH]; intros st1 st2 Hst; [done|]. simpl.
  apply IH. by rewrite !revealStep_quiet, Hst.
Qed.

Lemma revealV_quiet rnd1 rnd2 m c1 c2 :
  (revealV rnd1 cfg m c1).1 = (revealV rnd2 cfg m c2).1.
Proof.
  unfold revealV. destruct (partialObs cfg); simpl.
  - f_equal. by apply reveal_fold_quiet.
  - by destruct (_ <? _).
Qed.

Lemma stepModel_deterministic rnd1 rnd2 a m c1 c2 :
  m_adversary m = None →
  (stepModel rnd1 cfg a m c1).1 = (stepModel rnd2 cfg a m c2).1.
Proof.
  intros Hadv. rewrite !stepModel_quiet by done.
  destruct (m_done m); [done|].
  by rewrite (revealV_quiet rnd1 rnd2 _ (S c1) (S c2)).
Qed.

Lemma advanceAllV_deterministic rnd1 rnd2 actions :
  ∀ m c1 c2,
    m_adversary m = None →
    (advanceAllV rnd1 cfg actions m c1).1
    = (advanceAllV rnd2 cfg actions m c2).1.
Proof.
  induction actions as [|a actions IH]; intros m c1 c2 Hadv; [done|].
  simpl. rewrite (stepModel_deterministic rnd1 rnd2 a m c1 c2 Hadv).
  apply IH. by apply stepModel_adversary.
Qed.

End Quiet.

(** ** Transitions up to the observed cells *)

Lemma accountV_episodic cfg pen m :
  accountV cfg pen m
  = accountV (Config 0 0 false 0 0 false (episodic cfg) 0 false 0 "random" 0) pen m.
Proof. done. Qed.

Lemma moveAgentV_forgetSeen a m s :
  forgetSeen (moveAgentV a (m_with_seen s m)) = forgetSeen (moveAgentV a m).
Proof.
  unfold moveAgentV.
  change (blockedV (m_with_seen s m)) with (blockedV m).
  by destruct (blockedV m _ _).
Qed.

Lemma stepCore_forgetSeen epi a m s :
  forgetSeen (stepCore epi a (m_with_seen s m)) = forgetSeen (stepCore epi a m).
Proof.
  unfold stepCore. simpl. destruct (m_done m); [done|].
  unfold moveAgentV.
  change (blockedV (m_with_seen s m)) with (blockedV m).
  by destruct (blockedV m _ _).
Qed.

Lemma revealV_seen rnd cfg m c :
  ∃ s, (revealV rnd cfg m c).1 = m_with_seen s m.
Proof.
  unfold revealV. destruct (partialObs cfg); [by eexists|].
  destruct (_ <? _); [by eexists|]. exists (m_seen m). by destruct m.
Qed.

Lemma stepModel_core cfg rnd a m c :
  (slipProb cfg == 0)%Q → dynamicObstacles cfg = false →
  m_adversary m = None →
  forgetSeen (stepModel rnd cfg a m c).1
  = forgetSeen (stepCore (episodic cfg) a m).
Proof.
  intros Hs Hd Hadv. rewrite stepModel_quiet by done. unfold stepCore.
  destruct (m_done m); [done|].
  destruct (revealV_seen rnd cfg (moveAgentV a m) (S c)) as [s ->].
  by rewrite accountV_episodic.
Qed.

Lemma forgetSeen_eq m m' :
  forgetSeen m = forgetSeen m' → ∃ s, m = m_with_seen s m'.
Proof.
  intros H. exists (m_seen m). destruct m, m'. unfold forgetSeen in H.
  simpl in *. by inversion H.
Qed.

Lemma advanceAllV_core cfg rnd actions :
  (slipProb cfg == 0)%Q → dynamicObstacles cfg = false →
  ∀ m c,
    m_adversary m = None →
    forgetSeen (advanceAllV rnd cfg actions m c).1
    = forgetSeen (foldl (λ m a, stepCore (episodic cfg) a m) m actions).
Proof.
  intros Hs Hd.
  assert (Hcore : ∀ actions m s,
    forgetSeen (foldl (λ m a, stepCore (episodic cfg) a m) (m_with_seen s m) actions)
    = forgetSeen (foldl (λ m a, stepCore (episodic cfg) a m) m actions)).
  { clear. induction actions as [|a actions IH]; intros m s; [done|]. simpl.
    destruct (forgetSeen_eq _ _ (stepCore_forgetSeen (episodic cfg) a m s))
      as [s' ->].
    apply IH. }
  induction actions as [|a actions IH]; intros m c Hadv; [done|]. simpl.
  rewrite IH by by apply stepModel_adversary.
  destruct (forgetSeen_eq _ _ (stepModel_core cfg rnd a m c Hs Hd Hadv))
    as [s' ->].
  apply Hcore.
Qed.


(** ** The obstacle count *)

Lemma length_add_S k s : (length (JSSet.add k s) ≤ S (length s))%nat.
Proof.
  unfold JSSet.add. destruct (JSSet.has k s); [lia|].
  rewrite length_app. simpl. lia.
Qed.

Lemma length_delete k s : (length (JSSet.delete k s) ≤ length s)%nat.
Proof. apply length_filter. Qed.

Lemma driftAll_length rnd m obs c :
  (length (driftAll rnd m obs c).1 ≤ length obs)%nat.
Proof.
  unfold driftAll.
  enough (∀ st, (length (foldl (driftStep rnd m) st obs).1
                 ≤ length st.1 + length obs)%nat) as H by apply (H ([], c)).
  induction obs as [|k obs IH]; intros st; simpl; [lia|].
  specialize (IH (driftStep rnd m st k)).
  assert (length (driftStep rnd m st k).1 ≤ S (length st.1))%nat
    by apply length_add_S.
  lia.
Qed.

Lemma stepModel_obstacles rnd cfg a m c :
  JSSet.size (m_obstacles (stepModel rnd cfg a m c).1)
  ≤ JSSet.size (m_obstacles m).
Proof.
  unfold stepModel, JSSet.size. destruct (m_done m); [done|]. simpl.
  set (s := slipV rnd cfg a c).
  set (m1 := moveAgentV s.1 m).
  set (r2 := revealV rnd cfg m1 s.2).
  set (r3 := driftObstaclesV rnd cfg r2.1 r2.2).
  set (r4 := moveAdversaryV rnd cfg r3.1 r3.2).
  destruct (moveAgentV_fields s.1 m) as (_&_&_&Ho1&_).
  destruct (revealV_fields rnd cfg m1 s.2) as (_&_&_&Ho2&_).
  destruct (moveAdversaryV_fields rnd cfg r3.1 r3.2) as (_&_&_&Ho4&_).
  fold m1 in Ho1. fold r2 in Ho2. fold r3 r4 in Ho4.
  rewrite Ho4, <- Ho1, <- Ho2.
  subst r3. unfold driftObstaclesV.
  destruct (_ && _); [|done]. simpl.
  pose proof (driftAll_length rnd r2.1 (m_obstacles r2.1) r2.2) as Hd.
  set (mv := (driftAll rnd r2.1 (m_obstacles r2.1) r2.2).1) in *.
  pose proof (length_delete (keyOf (m_agent r2.1)) mv).
  pose proof (length_delete (keyOf (m_goal r2.1))
                (JSSet.delete (keyOf (m_agent r2.1)) mv)).
  destruct (m_adversary r2.1) as [adv|]; [|lia].
  pose proof (length_delete (keyOf adv)
                (JSSet.delete (keyOf (m_goal r2.1))
                   (JSSet.delete (keyOf (m_agent r2.1)) mv))).
  lia.
Qed.

(** ** Claims about one transition *)

(** C3.  One application of [stepEnvironment] never removes a cell from
    the observed cells [seen], so that their number does not decrease,
    and never increases [bestDist]; this holds for every well-formed
    store, action, configuration and random stream (and also when the
    model is terminal, where the transition changes nothing). *)
Theorem C3_seen_grows_bestDist_improves h e m cfg a rnd c lps lc t :
  models h e m →
  ∃ w' m',
    stepEnvironment e cfg a (World h rnd c lps lc t) = Some (e, w')
    ∧ models (heap w') e m'
    ∧ (∀ k, k ∈ m_seen m → k ∈ m_seen m')
    ∧ JSSet.size (m_seen m) ≤ JSSet.size (m_seen m')
    ∧ m_bestDist m' ≤ m_bestDist m.
Proof.
  intros [E H].
  destruct (stepEnvironment_value rnd lps lc t h e E m cfg a c H)
    as (h' & E' & Hrun & H' & _).
  eexists _, _. split; [exact Hrun|]. split; [by exists E'|].
  destruct (stepModel_seen_grows rnd cfg a m c) as [Hin Hsize].
  split; [done|]. split; [done|]. apply stepModel_bestDist.
Qed.

Lemma C3_witness :
  models (heapOf scenarioModel) 5%nat scenarioModel
  ∧ ∃ w' m',
      stepEnvironment 5%nat (scenarioCfg true 3) RIGHT
        (World (heapOf scenarioModel) halfDraws 0 noLapse 0 0) = Some (5%nat, w')
      ∧ models (heap w') 5%nat m'
      ∧ (∀ k, k ∈ m_seen scenarioModel → k ∈ m_seen m')
      ∧ JSSet.size (m_seen scenarioModel) ≤ JSSet.size (m_seen m')
      ∧ m_bestDist m' ≤ m_bestDist scenarioModel.
Proof.
  assert (H : models (heapOf scenarioModel) 5%nat scenarioModel).
  { apply (models_heapOf scenarioModel); compute_done. }
  split; [exact H|].
  exact (C3_seen_grows_bestDist_improves _ _ _ _ _ _ _ _ _ _ H).
Defined.

(** C10.  [stepEnvironment] never increases the number of obstacle
    cells.  With dynamic obstacles the number can strictly decrease in
    one tick: two obstacles that both move to the free cell (2,1) merge
    into one, and an obstacle that moves onto the cell of the adversary
    is removed. *)
Theorem C10_obstacle_count_never_increases h e m cfg a rnd c lps lc t :
  models h e m →
  (∃ w' m',
     stepEnvironment e cfg a (World h rnd c lps lc t) = Some (e, w')
     ∧ models (heap w') e m'
     ∧ JSSet.size (m_obstacles m') ≤ JSSet.size (m_obstacles m))
  ∧ (∃ m',
       afterStep mergeModel (driftCfg false) RIGHT mergeDraws = Some m'
       ∧ m_obstacles mergeModel = [(1, 1); (3, 1)]
       ∧ m_obstacles m' = [(2, 1)])
  ∧ (∃ m',
       afterStep adversaryModel (driftCfg true) RIGHT upDraws = Some m'
       ∧ m_obstacles adversaryModel = [(2, 2)]
       ∧ m_adversary adversaryModel = Some (Pt 2 1)
       ∧ m_obstacles m' = []).
Proof.
  intros [E H]. split; [|split].
  - destruct (stepEnvironment_value rnd lps lc t h e E m cfg a c H)
      as (h' & E' & Hrun & H' & _).
    eexists _, _. split; [exact Hrun|]. split; [by exists E'|].
    apply stepModel_obstacles.
  - eexists. split; [by vm_compute|]. done.
  - eexists. split; [by vm_compute|]. done.
Qed.

Lemma C10_witness :
  models (heapOf mergeModel) 5%nat mergeModel
  ∧ ∃ w' m',
      stepEnvironment 5%nat (driftCfg false) RIGHT
        (World (heapOf mergeModel) mergeDraws 0 noLapse 0 0) = Some (5%nat, w')
      ∧ models (heap w') 5%nat m'
      ∧ JSSet.size (m_obstacles m') ≤ JSSet.size (m_obstacles mergeModel).
Proof.
  assert (H : models (heapOf mergeModel) 5%nat mergeModel).
  { apply (models_heapOf mergeModel); compute_done. }
  split; [exact H|].
  exact (proj1 (C10_obstacle_count_never_increases
                  _ _ _ (driftCfg false) RIGHT mergeDraws 0%nat noLapse 0%nat 0%N H)).
Defined.


(** C4.  With [slipProb = 0], [sensorNoise = 0], dynamic obstacles
    disabled and no adversary, two runs of the same actions from stores
    that hold the same model end in stores that hold the same model
    (agent, obstacles, observed cells, tick, reward, terminal flag,
    recent positions, best distance and its tick), whatever the two
    random streams and clocks are. *)
Theorem C4_deterministic_without_randomness
    h1 e1 h2 e2 m cfg actions rnd1 c1 lps1 lc1 t1 rnd2 c2 lps2 lc2 t2 :
  models h1 e1 m → models h2 e2 m →
  (slipProb cfg == 0)%Q → (sensorNoise cfg == 0)%Q →
  dynamicObstacles cfg = false → m_adversary m = None →
  ∃ w1 w2 m',
    advanceAll e1 cfg actions (World h1 rnd1 c1 lps1 lc1 t1) = Some (tt, w1)
    ∧ advanceAll e2 cfg actions (World h2 rnd2 c2 lps2 lc2 t2) = Some (tt, w2)
    ∧ models (heap w1) e1 m' ∧ models (heap w2) e2 m'.
Proof.
  intros [E1 H1] [E2 H2] Hslip Hnoise Hdrift Hadv.
  destruct (advanceAll_value rnd1 lps1 lc1 t1 cfg actions h1 e1 E1 m c1 H1)
    as (h1' & E1' & Hrun1 & H1').
  destruct (advanceAll_value rnd2 lps2 lc2 t2 cfg actions h2 e2 E2 m c2 H2)
    as (h2' & E2' & Hrun2 & H2').
  eexists _, _, _. split; [exact Hrun1|]. split; [exact Hrun2|].
  split; [by exists E1'|]. exists E2'. simpl.
  by rewrite (advanceAllV_deterministic cfg Hslip Hdrift Hnoise rnd1 rnd2
                actions m c1 c2 Hadv).
Qed.

Lemma C4_witness :
  ∃ w1 w2 m',
    advanceAll 5%nat (scenarioCfg true 3) scenarioActions
      (World (heapOf scenarioModel) halfDraws 0 noLapse 0 0) = Some (tt, w1)
    ∧ advanceAll 5%nat (scenarioCfg true 3) scenarioActions
        (World (heapOf scenarioModel) mergeDraws 3 noLapse 0 7) = Some (tt, w2)
    ∧ models (heap w1) 5%nat m' ∧ models (heap w2) 5%nat m'.
Proof.
  assert (H : models (heapOf scenarioModel) 5%nat scenarioModel).
  { apply (models_heapOf scenarioModel); compute_done. }
  apply (C4_deterministic_without_randomness _ _ _ _ scenarioModel
           (scenarioCfg true 3)); try done.
Defined.

(** C1 (as amended).  From a store that holds the 5×5 scenario model
    (no obstacles, agent at (0,4), goal at (4,0), no adversary), with
    [slipProb = 0], no dynamic obstacles and [episodic = true], the
    actions RIGHT×4, UP×4 put the agent on the goal at tick 8, with
    [done = true] and a reward of -0.05·8 + 10: the step cost is charged
    on each of the eight ticks, the terminal one included.  After fewer
    actions the model is not terminal and the agent is not on the
    goal.  This holds for every random stream, observation radius and
    sensor noise. *)
Theorem C1_scenario_reaches_goal_at_tick_8 h e cfg rnd c lps lc t :
  models h e scenarioModel →
  (slipProb cfg == 0)%Q → dynamicObstacles cfg = false →
  episodic cfg = true →
  (∃ w' m',
     advanceAll e cfg scenarioActions (World h rnd c lps lc t) = Some (tt, w')
     ∧ models (heap w') e m'
     ∧ m_tick m' = 8 ∧ m_agent m' = m_goal m' ∧ m_done m' = true
     ∧ (m_reward m' == - (5 # 100) * 8 + 10)%Q)
  ∧ (∀ k, (k < 8)%nat →
       ∃ w' m',
         advanceAll e cfg (take k scenarioActions) (World h rnd c lps lc t)
         = Some (tt, w')
         ∧ models (heap w') e m'
         ∧ m_tick m' = Z.of_nat k ∧ m_agent m' ≠ m_goal m'
         ∧ m_done m' = false).
Proof.
  intros [E H] Hslip Hdrift Hepi.
  assert (Hrun : ∀ actions, ∃ w' m',
    advanceAll e cfg actions (World h rnd c lps lc t) = Some (tt, w')
    ∧ models (heap w') e m'
    ∧ forgetSeen m'
      = forgetSeen (foldl (λ m a, stepCore true a m) scenarioModel actions)).
  { intros actions.
    destruct (advanceAll_value rnd lps lc t cfg actions h e E _ c H)
      as (h' & E' & Hrun & H').
    eexists _, _. split; [exact Hrun|]. split; [by exists E'|].
    rewrite <- Hepi. by apply advanceAllV_core. }
  split.
  - destruct (Hrun scenarioActions) as (w' & m' & Hr & Hm & Heq).
    exists w', m'. split; [done|]. split; [done|].
    apply forgetSeen_eq in Heq as [s ->]. clear. vm_compute. by repeat split.
  - intros k Hk.
    destruct (Hrun (take k scenarioActions)) as (w' & m' & Hr & Hm & Heq).
    exists w', m'. split; [done|]. split; [done|].
    apply forgetSeen_eq in Heq as [s ->].
    clear -Hk.
    do 8 (destruct k as [|k]; [vm_compute; by repeat split|]). lia.
Qed.

Lemma C1_witness :
  ∃ w' m',
    advanceAll 5%nat (scenarioCfg true 3) scenarioActions
      (World (heapOf scenarioModel) halfDraws 0 noLapse 0 0) = Some (tt, w')
    ∧ models (heap w') 5%nat m'
    ∧ m_tick m' = 8 ∧ m_agent m' = m_goal m' ∧ m_done m' = true
    ∧ (m_reward m' == - (5 # 100) * 8 + 10)%Q.
Proof.
  assert (H : models (heapOf scenarioModel) 5%nat scenarioModel).
  { apply (models_heapOf scenarioModel); compute_done. }
  destruct (C1_scenario_reaches_goal_at_tick_8 _ _ (scenarioCfg true 3)
              halfDraws 0%nat noLapse 0%nat 0%N H) as [Hgoal _];
    [reflexivity..|].
  exact Hgoal.
Defined.

(** C1 as stated fails: in the scenario the reward at tick 8 is 9.6,
    not -0.05·7 + 10 = 9.65. *)
Lemma C1_reward_is_not_seven_step_costs :
  ∃ w' m',
    advanceAll 5%nat (scenarioCfg true 3) scenarioActions
      (World (heapOf scenarioModel) halfDraws 0 noLapse 0 0) = Some (tt, w')
    ∧ snapshot (heap w') 5%nat = Some m'
    ∧ m_tick m' = 8 ∧ m_done m' = true
    ∧ ¬ (m_reward m' == - (5 # 100) * 7 + 10)%Q.
Proof.
  eexists _, _. split; [vm_compute; reflexivity|].
  split; [vm_compute; reflexivity|].
  split; [reflexivity|]. split; [reflexivity|]. vm_compute. by intros [=].
Qed.


(** ** Duplicating a model *)

Lemma of_list_from s l :
  NoDup (s ++ l) → foldl (λ s k, JSSet.add k s) s l = s ++ l.
Proof.
  revert s. induction l as [|k l IH]; intros s Hnd; simpl.
  - by rewrite app_nil_r.
  - assert (JSSet.add k s = s ++ [k]) as ->.
    { unfold JSSet.add, JSSet.has. case_bool_decide as Hk; [|done].
      apply NoDup_app in Hnd as (_ & Hdisj & _).
      destruct (Hdisj k Hk). by left. }
    rewrite IH; by rewrite <- app_assoc.
Qed.

Lemma of_list_NoDup l : NoDup l → JSSet.of_list l = l.
Proof. intros H. by apply (of_list_from [] l). Qed.

Lemma point_eta p : Pt (px p) (py p) = p.
Proof. by destruct p. Qed.

Lemma alloc_run o h rnd c lps lc t :
  alloc o (World h rnd c lps lc t)
  = Some (length h, World (h ++ [o]) rnd c lps lc t).
Proof. reflexivity. Qed.


Lemma keeps_refl h : keeps h h.
Proof. by split. Qed.

Lemma keeps_trans h1 h2 h3 : keeps h1 h2 → keeps h2 h3 → keeps h1 h3.
Proof.
  intros [L1 K1] [L2 K2]. split; [lia|].
  intros l Hl. rewrite K2 by lia. by apply K1.
Qed.

Lemma keeps_alloc h o : keeps h (h ++ [o]).
Proof.
  split; [rewrite length_app; lia|]. intros l Hl. by rewrite lookup_app_l.
Qed.

Lemma keeps_prefix h h' : keeps h h' → ∃ k, h' = h ++ k.
Proof.
  intros [L K]. exists (drop (length h) h').
  rewrite <- (take_drop (length h) h') at 1. f_equal.
  apply list_eq. intros i. destruct (decide (i < length h)%nat).
  - rewrite lookup_take_lt by done. by apply K.
  - rewrite lookup_take_ge by lia. symmetry. apply lookup_ge_None. lia.
Qed.

Lemma models_at_keeps h h' e E m :
  models_at h e E m → keeps h h' → models_at h' e E m.
Proof.
  intros H [L K].
  assert (Hl : ∀ l o, h !! l = Some o → h' !! l = Some o).
  { intros l o Hlo. rewrite K; [done|]. by eapply lookup_lt_Some. }
  pose proof (ma_adversary _ _ _ _ H) as Hadv.
  destruct H. constructor; try done; try by apply Hl.
  destruct (adversary E), (m_adversary m); try done. by apply Hl.
Qed.

(** A frame around objects that the caller does not have keeps the
    caller's objects. *)
Lemma frame_keeps F n h h' :
  frame F h h' → (∀ l, l ∈ F → (n ≤ l)%nat) → (n ≤ length h)%nat →
  (length h ≤ length h')%nat ∧ ∀ l, (l < n)%nat → h' !! l = h !! l.
Proof.
  intros [L K] HF Hn. split; [done|]. intros l Hl. apply K; [lia|].
  intros Hin. specialize (HF l Hin). lia.
Qed.

Ltac newobj := first [ apply lookup_last | apply lookup_app_l_Some; newobj ].

Lemma cloneEnv_run rnd lps lc t h e E m c :
  models_at h e E m →
  ∃ sim h' E',
    cloneEnv e (World h rnd c lps lc t) = Some (sim, World h' rnd c lps lc t)
    ∧ models_at h' sim E' m
    ∧ (∀ l, l ∈ sim :: refsOf E' → (length h ≤ l)%nat)
    ∧ keeps h h'.
Proof.
  intros H0. unfold cloneEnv.
  pose proof (ma_adversary _ _ _ _ H0) as Hadv.
  pose proof (ma_obstacles_set _ _ _ _ H0) as Hnd1.
  pose proof (ma_seen_set _ _ _ _ H0) as Hnd2.
  run getEnv_run. run getSet_run.
  rewrite (bind_run _ _ _ _ _ (alloc_run _ _ _ _ _ _ _)).
  rewrite (of_list_NoDup _ Hnd1).
  set (h1 := h ++ [OSet (m_obstacles m)]).
  pose proof (models_at_alloc _ _ _ _ (OSet (m_obstacles m)) H0) as H1.
  fold h1 in H1.
  run getPoint_run. rewrite (bind_run _ _ _ _ _ (alloc_run _ _ _ _ _ _ _)).
  rewrite point_eta.
  set (h2 := h1 ++ [OPoint (m_agent m)]).
  pose proof (models_at_alloc _ _ _ _ (OPoint (m_agent m)) H1) as H2.
  fold h2 in H2.
  run getPoint_run. rewrite (bind_run _ _ _ _ _ (alloc_run _ _ _ _ _ _ _)).
  rewrite point_eta.
  set (h3 := h2 ++ [OPoint (m_goal m)]).
  pose proof (models_at_alloc _ _ _ _ (OPoint (m_goal m)) H2) as H3.
  fold h3 in H3.
  assert (L1 : length h1 = S (length h)) by (unfold h1; rewrite length_app; simpl; lia).
  assert (L2 : length h2 = S (S (length h))) by (unfold h2; rewrite length_app; simpl; lia).
  assert (L3 : length h3 = S (S (S (length h)))) by (unfold h3; rewrite length_app; simpl; lia).
  destruct (adversary E) as [a|] eqn:Ha, (m_adversary m) as [p|] eqn:Hp;
    try done.
  - pose proof (ma_adversary _ _ _ _ H3) as Hadv3. rewrite Ha, Hp in Hadv3.
    erewrite bind_run.
    2:{ erewrite bind_run; [|by apply getPoint_run].
        rewrite (bind_run _ _ _ _ _ (alloc_run _ _ _ _ _ _ _)). reflexivity. }
    rewrite point_eta.
    set (h4 := h3 ++ [OPoint p]).
    pose proof (models_at_alloc _ _ _ _ (OPoint p) H3) as H4. fold h4 in H4.
    run getSet_run. rewrite (bind_run _ _ _ _ _ (alloc_run _ _ _ _ _ _ _)).
    rewrite (of_list_NoDup _ Hnd2).
    set (h5 := h4 ++ [OSet (m_seen m)]).
    pose proof (models_at_alloc _ _ _ _ (OSet (m_seen m)) H4) as H5.
    fold h5 in H5.
    run getArray_run. rewrite (bind_run _ _ _ _ _ (alloc_run _ _ _ _ _ _ _)).
    set (h6 := h5 ++ [OArray (m_recent m)]).
    rewrite alloc_run.
    assert (L4 : length h4 = (4 + length h)%nat) by (unfold h4; rewrite length_app; simpl; lia).
    assert (L5 : length h5 = (5 + length h)%nat) by (unfold h5; rewrite length_app; simpl; lia).
    assert (L6 : length h6 = (6 + length h)%nat) by (unfold h6; rewrite length_app; simpl; lia).
    eexists _, _, _. split; [reflexivity|]. split; [|split].
    + destruct H0 as [_ _ _ _ _ _ _ ? ? ? ? ? ? ? _ _ _].
      constructor; [newobj|..]; simpl; rewrite ?Hp; try done; try newobj.
      unfold refsOf. simpl. rewrite L1, L2, L3, L4, L5, L6.
        repeat (apply NoDup_cons; split;
                [rewrite ?not_elem_of_cons; repeat split;
                 first [lia | apply not_elem_of_nil]|]).
        apply NoDup_nil_2.
    + unfold refsOf. simpl. rewrite L1, L2, L3, L4, L5, L6.
      intros l Hl. repeat (apply elem_of_cons in Hl as [->|Hl]; [lia|]).
      by apply elem_of_nil in Hl.
    + repeat (eapply keeps_trans; [|apply keeps_alloc]). apply keeps_refl.
  - unfold ret at 1. unfold bind at 1.
    run getSet_run. rewrite (bind_run _ _ _ _ _ (alloc_run _ _ _ _ _ _ _)).
    rewrite (of_list_NoDup _ Hnd2).
    set (h5 := h3 ++ [OSet (m_seen m)]).
    pose proof (models_at_alloc _ _ _ _ (OSet (m_seen m)) H3) as H5.
    fold h5 in H5.
    run getArray_run. rewrite (bind_run _ _ _ _ _ (alloc_run _ _ _ _ _ _ _)).
    set (h6 := h5 ++ [OArray (m_recent m)]).
    rewrite alloc_run.
    assert (L5 : length h5 = (4 + length h)%nat) by (unfold h5; rewrite length_app; simpl; lia).
    assert (L6 : length h6 = (5 + length h)%nat) by (unfold h6; rewrite length_app; simpl; lia).
    eexists _, _, _. split; [reflexivity|]. split; [|split].
    + destruct H0 as [_ _ _ _ _ _ _ ? ? ? ? ? ? ? _ _ _].
      constructor; [newobj|..]; simpl; rewrite ?Hp; try done; try newobj.
      unfold refsOf. simpl. rewrite L1, L2, L3, L5, L6.
        repeat (apply NoDup_cons; split;
                [rewrite ?not_elem_of_cons; repeat split;
                 first [lia | apply not_elem_of_nil]|]).
        apply NoDup_nil_2.
    + unfold refsOf. simpl. rewrite L1, L2, L3, L5, L6.
      intros l Hl. repeat (apply elem_of_cons in Hl as [->|Hl]; [lia|]).
      by apply elem_of_nil in Hl.
    + repeat (eapply keeps_trans; [|apply keeps_alloc]). apply keeps_refl.
Qed.

(** ** Rollouts *)

Lemma rollout_run rnd lps lc t cfg action startSeen recentSet n0 :
  ∀ n tk acc h sim E m c,
    models_at h sim E m →
    (∀ l, l ∈ sim :: refsOf E → (n0 ≤ l)%nat) → (n0 ≤ length h)%nat →
    ∃ h' E',
      rollout sim cfg action startSeen recentSet n tk acc
        (World h rnd c lps lc t)
      = Some ((rolloutV rnd cfg action startSeen recentSet n tk acc m c).1.1,
              World h' rnd
                (rolloutV rnd cfg action startSeen recentSet n tk acc m c).2
                lps lc t)
      ∧ models_at h' sim E'
          (rolloutV rnd cfg action startSeen recentSet n tk acc m c).1.2
      ∧ (∀ l, l ∈ sim :: refsOf E' → (n0 ≤ l)%nat)
      ∧ (length h ≤ length h')%nat
      ∧ ∀ l, (l < n0)%nat → h' !! l = h !! l.
Proof.
  induction n as [|n IH]; intros tk acc h sim E m c H Hfresh Hn0; simpl.
  { exists h, E. split; [done|]. split; [done|]. split; [done|].
    split; [lia | done]. }
  run getEnv_run. rewrite (ma_done _ _ _ _ H).
  destruct (m_done m).
  { exists h, E. split; [done|]. split; [done|]. split; [done|].
    split; [lia | done]. }
  set (a := if tk =? 0 then (action, c)
            else (default UP (pickAt rnd c DIRS), S c)).
  assert (Ha : (if tk =? 0 then ret action else choice_def DIRS)
                 (World h rnd c lps lc t)
               = Some (a.1, World h rnd a.2 lps lc t)).
  { subst a. destruct (tk =? 0); [done|].
    destruct (choice_def_run DIRS h rnd c lps lc t) as (d & Hd & _ & Hrun);
      [done|].
    rewrite Hrun, Hd. reflexivity. }
  rewrite (bind_run _ _ _ _ _ Ha).
  destruct (stepEnvironment_value rnd lps lc t h sim E m cfg a.1 a.2 H)
    as (h1 & E1 & Hrun & H1 & Hf & Hfix & Hobs).
  rewrite (bind_run _ _ _ _ _ Hrun).
  set (r := stepModel rnd cfg a.1 m a.2) in *.
  erewrite bind_run; [|apply getEnv_run, (ma_env _ _ _ _ H1)].
  erewrite bind_run; [|apply getPoint_run, (ma_agent _ _ _ _ H1)].
  erewrite bind_run; [|apply getPoint_run, (ma_goal _ _ _ _ H1)].
  erewrite bind_run; [|apply getSet_run, (ma_seen _ _ _ _ H1)].
  cbv zeta.
  destruct (frame_keeps _ n0 _ _ Hf Hfresh Hn0) as [Hlen Hkeep].
  assert (Hfresh1 : ∀ l, l ∈ sim :: refsOf E1 → (n0 ≤ l)%nat).
  { intros l Hl.
    destruct (refs_evolve sim E E1 (length h) Hfix Hobs l Hl) as [Hin|Hge].
    - by apply Hfresh.
    - lia. }
  assert (Hn1 : (n0 ≤ length h1)%nat) by lia.
  epose proof (IH (tk + 1) _ h1 sim E1 r.1 r.2 H1 Hfresh1 Hn1)
    as (h' & E' & Hrun' & H' & Hfresh' & Hlen' & Hkeep').
  exists h', E'. split; [exact Hrun'|]. split; [exact H'|].
  split; [exact Hfresh'|]. split; [lia|].
  intros l Hl. rewrite Hkeep' by done. by apply Hkeep.
Qed.

Lemma evaluateAction_tally_run rnd lps lc t cfg action horizon h e E m c :
  models_at h e E m →
  ∃ h',
    evaluateAction_tally e cfg action horizon (World h rnd c lps lc t)
    = Some ((evaluateActionV rnd cfg action horizon m c).1.1,
            World h' rnd (evaluateActionV rnd cfg action horizon m c).2
                  lps lc t)
    ∧ keeps h h'.
Proof.
  intros H. unfold evaluateAction_tally, evaluateActionV.
  destruct (cloneEnv_run rnd lps lc t h e E m c H)
    as (sim & h1 & E1 & Hclone & H1 & Hfresh & Hkeep).
  rewrite (bind_run _ _ _ _ _ Hclone).
  erewrite bind_run; [|apply getEnv_run, (ma_env _ _ _ _ H1)].
  erewrite bind_run; [|apply getSet_run, (ma_seen _ _ _ _ H1)].
  erewrite bind_run; [|apply getArray_run, (ma_recent _ _ _ _ H1)].
  cbv zeta.
  destruct (rollout_run rnd lps lc t cfg action (JSSet.size (m_seen m))
              (JSSet.of_list (m_recent m)) (length h) horizon 0
              (Tally 0 [] 0) h1 sim E1 m c H1 Hfresh)
    as (h' & E' & Hrun & _ & _ & Hlen & Hk).
  { by destruct Hkeep. }
  exists h'. split; [exact Hrun|].
  destruct Hkeep as [L K]. split; [lia|].
  intros l Hl. rewrite Hk by done. by apply K.
Qed.

Lemma evaluateAction_run rnd lps lc t cfg action horizon h e E m c :
  models_at h e E m →
  ∃ h',
    evaluateAction e cfg action horizon (World h rnd c lps lc t)
    = Some (total (evaluateActionV rnd cfg action horizon m c).1.1,
            World h' rnd (evaluateActionV rnd cfg action horizon m c).2
                  lps lc t)
    ∧ keeps h h'.
Proof.
  intros H.
  destruct (evaluateAction_tally_run rnd lps lc t cfg action horizon
              h e E m c H) as (h' & Hrun & Hkeep).
  exists h'. split; [|done]. unfold evaluateAction.
  by rewrite (bind_run _ _ _ _ _ Hrun).
Qed.


(** ** Claims about rollouts *)

(** C2.  Any number of calls of [evaluateAction], with any
    configurations, first actions and horizons, keeps every object of
    the caller's store, and the store still holds the same model: its
    tick, agent, observed cells, reward and all other fields are what
    they were before the calls. *)
Theorem C2_rollouts_keep_the_callers_model calls :
  ∀ h e m rnd c lps lc t,
    models h e m →
    ∃ vs w',
      evaluateAll e calls (World h rnd c lps lc t) = Some (vs, w')
      ∧ length vs = length calls
      ∧ (∃ k, heap w' = h ++ k)
      ∧ models (heap w') e m.
Proof.
  induction calls as [|[[cfg a] hz] calls IH]; intros h e m rnd c lps lc t Hm.
  - exists [], (World h rnd c lps lc t). split; [done|]. split; [done|].
    split; [|done]. exists []. by rewrite app_nil_r.
  - destruct Hm as [E H].
    destruct (evaluateAction_run rnd lps lc t cfg a hz h e E m c H)
      as (h1 & Hrun & Hkeep).
    pose proof (models_at_keeps _ _ _ _ _ H Hkeep) as H1.
    destruct (IH h1 e m rnd (evaluateActionV rnd cfg a hz m c).2 lps lc t)
      as (vs & w' & Hruns & Hlen & [k Hk] & Hm'); [by exists E|].
    exists (total (evaluateActionV rnd cfg a hz m c).1.1 :: vs), w'.
    split; [|split; [|split]].
    + simpl. rewrite (bind_run _ _ _ _ _ Hrun), (bind_run _ _ _ _ _ Hruns).
      done.
    + simpl. by rewrite Hlen.
    + destruct (keeps_prefix _ _ Hkeep) as [k1 Hk1]. exists (k1 ++ k).
      by rewrite Hk, Hk1, app_assoc.
    + done.
Qed.

Lemma C2_witness :
  ∃ vs w',
    evaluateAll 5%nat [(DEFAULTS, UP, 14%nat); (scenarioCfg false 3, RIGHT, 10%nat)]
      (World (heapOf scenarioModel) halfDraws 0 noLapse 0 0) = Some (vs, w')
    ∧ length vs = 2%nat
    ∧ (∃ k, heap w' = heapOf scenarioModel ++ k)
    ∧ models (heap w') 5%nat scenarioModel.
Proof.
  assert (H : models (heapOf scenarioModel) 5%nat scenarioModel).
  { apply (models_heapOf scenarioModel); compute_done. }
  exact (C2_rollouts_keep_the_callers_model
           [(DEFAULTS, UP, 14%nat); (scenarioCfg false 3, RIGHT, 10%nat)]
           _ _ _ halfDraws 0%nat noLapse 0%nat 0%N H).
Defined.

(** In episodic mode a tick that ends on the goal ends the episode. *)
Lemma stepModel_done_on_goal rnd cfg a m c :
  episodic cfg = true → m_done m = false →
  samePoint (m_agent (stepModel rnd cfg a m c).1)
            (m_goal (stepModel rnd cfg a m c).1) = true →
  m_done (stepModel rnd cfg a m c).1 = true.
Proof.
  intros Hepi Hdone. unfold stepModel. rewrite Hdone. simpl.
  rewrite Hepi. by intros ->.
Qed.

Lemma rolloutV_bonus rnd cfg action startSeen recentSet :
  episodic cfg = true →
  ∀ n tk acc m c,
    ticksRun acc = tk →
    bonusAt acc = [] ∨ (bonusAt acc = [tk - 1] ∧ m_done m = true) →
    let r := (rolloutV rnd cfg action startSeen recentSet n tk acc m c).1.1 in
    bonusAt r = [] ∨ bonusAt r = [ticksRun r - 1].
Proof.
  intros Hepi. induction n as [|n IH]; intros tk acc m c Htk Hacc; simpl.
  { destruct Hacc as [?|[? _]]; [by left | right; by rewrite Htk]. }
  destruct (m_done m) eqn:Hdone.
  { simpl. destruct Hacc as [?|[? _]]; [by left | right; by rewrite Htk]. }
  destruct Hacc as [Hacc|[_ ?]]; [|done].
  set (a := if tk =? 0 then (action, c)
            else (default UP (pickAt rnd c DIRS), S c)).
  pose proof (stepModel_done_on_goal rnd cfg a.1 m a.2 Hepi Hdone) as Hgoal.
  set (m' := (stepModel rnd cfg a.1 m a.2).1) in *.
  destruct (samePoint (m_agent m') (m_goal m')).
  - apply IH; simpl; [lia|]. right. rewrite Hacc. split; [|by apply Hgoal].
    f_equal. lia.
  - apply IH; simpl; [lia|]. by left.
Qed.

(** C9 as stated fails when [episodic = false]: the agent reaches the
    goal on tick 0, the random action of tick 1 runs into the border,
    and the bonus is added on both ticks; the score is 10.96 where a
    single bonus would give 5.96. *)
Lemma C9_bonus_added_twice_in_maintenance_mode :
  ∃ r w',
    evaluateAction_tally 5%nat maintenanceCfg UP 2
      (World (heapOf goalAdjacentModel) stayDraws 0 noLapse 0 0) = Some (r, w')
    ∧ bonusAt r = [1; 0]
    ∧ (total r == 1096 # 100)%Q.
Proof.
  eexists _, _. split; [vm_compute; reflexivity|]. split; reflexivity.
Qed.


(** ** The read-only functions *)

Lemma forFold_pure {A S} (f : S → A → S) (body : A → S → M S) (l : list A) w :
  (∀ x s, body x s w = Some (f s x, w)) →
  ∀ s, forFold l s body w = Some (foldl f s l, w).
Proof.
  intros Hbody. induction l as [|x l IH]; intros s; [done|]. simpl.
  by rewrite (bind_run _ _ _ _ _ (Hbody x s)).
Qed.

Lemma now_run h rnd c lps lc t :
  now (World h rnd c lps lc t)
  = Some (Z.of_N (t + lps lc) # 1000,
          World h rnd c lps (S lc) (t + lps lc)%N).
Proof. reflexivity. Qed.

Section ReadOnly.

Context (rnd : nat → draw) (lps : nat → N) (lc : nat) (t : N).

Lemma isStuck_run h e E m c :
  models_at h e E m →
  isStuck e (World h rnd c lps lc t)
  = Some (isStuckV m, World h rnd c lps lc t).
Proof.
  intros H. unfold isStuck, isStuckV. run getEnv_run. run getArray_run.
  rewrite (ma_tick _ _ _ _ H), (ma_lastImprovedTick _ _ _ _ H).
  by destruct (_ <? STUCK_MIN_HISTORY).
Qed.

Lemma unseenAroundFrom_run h e E m cfg pos c :
  models_at h e E m →
  unseenAroundFrom pos e cfg (World h rnd c lps lc t)
  = Some (unseenAroundFromV pos m cfg, World h rnd c lps lc t).
Proof.
  intros H. unfold unseenAroundFrom, unseenAroundFromV, window.
  rewrite (foldl_nested (unseenStep m) (λ dy dx, (px pos + dx, py pos + dy))).
  apply (forFold_pure
           (λ c dy, foldl (λ c dx, unseenStep m c (px pos + dx, py pos + dy))
                          c (range (- obsRadius cfg) (obsRadius cfg)))).
  intros dy s.
  apply (forFold_pure (λ c dx, unseenStep m c (px pos + dx, py pos + dy))).
  intros dx s'. run getEnv_run. unfold unseenStep.
  rewrite (inGrid_value _ _ _ _ _ _ H). simpl.
  destruct (inGridV m _ _); [|done]. by run getSet_run.
Qed.

Lemma exploreLoop_run h e E m cfg c :
  models_at h e E m →
  exploreLoop e cfg (World h rnd c lps lc t)
  = Some (exploreLoopV m cfg, World h rnd c lps lc t).
Proof.
  intros H. unfold exploreLoop, exploreLoopV.
  apply (forFold_pure (exploreStep m cfg)).
  intros d [best bestInfo]. run getEnv_run. run getPoint_run.
  rewrite (ma_width _ _ _ _ H), (ma_height _ _ _ _ H).
  run isBlocked_run. unfold exploreStep, clampedTarget. simpl.
  destruct (blockedV m _ _); [done|].
  run unseenAroundFrom_run.
  destruct bestInfo as [b|]; [by destruct (_ >? b) | done].
Qed.

Lemma exploreFallback_run h e E m cfg c :
  models_at h e E m →
  exploreFallback e cfg (World h rnd c lps lc t)
  = Some (exploreFallbackV m cfg, World h rnd c lps lc t).
Proof.
  intros H. unfold exploreFallback, exploreFallbackV. run isStuck_run.
  destruct (isStuckV m && partialObs cfg); [|done].
  by run exploreLoop_run.
Qed.

End ReadOnly.

(** ** The fallback picks the first direction of highest score *)

Lemma exploreStep_fold m cfg (ds : list dir) :
  ∀ (prev : list dir) (st : dir * option Z),
    (prev = [] ∧ st.2 = None)
    ∨ (st.2 = Some (infoScore m cfg st.1)
       ∧ firstMax (infoScore m cfg) prev st.1) →
    let legal := λ d, blockedV m (px (clampedTarget m d))
                               (py (clampedTarget m d)) = false in
    let st' := foldl (exploreStep m cfg) st ds in
    (prev ++ filter legal ds = [] ∧ st'.2 = None)
    ∨ (st'.2 = Some (infoScore m cfg st'.1)
       ∧ firstMax (infoScore m cfg) (prev ++ filter legal ds) st'.1).
Proof.
  induction ds as [|d ds IH]; intros prev st Hst legal; simpl.
  { rewrite app_nil_r. exact Hst. }
  destruct (blockedV m (px (clampedTarget m d)) (py (clampedTarget m d)))
    eqn:Hb.
  - assert (Hs : exploreStep m cfg st d = st)
      by (unfold exploreStep; by rewrite Hb).
    rewrite Hs, filter_cons_False by (unfold legal; congruence).
    by apply IH.
  - assert (Hs : exploreStep m cfg st d
                 = if match st.2 with
                      | None => true
                      | Some b => infoScore m cfg d >? b
                      end
                   then (d, Some (infoScore m cfg d)) else st)
      by (unfold exploreStep; by rewrite Hb).
    rewrite Hs, filter_cons_True by done.
    replace (prev ++ d :: filter legal ds)
      with ((prev ++ [d]) ++ filter legal ds) by by rewrite <- app_assoc.
    destruct Hst as [[-> Hnone]|[Hsome Hmax]].
    + rewrite Hnone. apply IH. right. simpl. split; [done|].
      exists [], []. split; [done|].
      split; intros d' Hd'; by apply elem_of_nil in Hd'.
    + rewrite Hsome.
      destruct (Z.gtb_spec (infoScore m cfg d) (infoScore m cfg st.1))
        as [Hgt|Hle].
      * apply IH. right. simpl. split; [done|].
        exists prev, []. split; [done|]. split.
        -- intros d' Hd'. destruct Hmax as (l1 & l2 & -> & H1 & H2).
           apply elem_of_app in Hd' as [Hd'|Hd'].
           ++ specialize (H1 d' Hd'). lia.
           ++ apply elem_of_cons in Hd' as [->|Hd']; [lia|].
              specialize (H2 d' Hd'). lia.
        -- intros d' Hd'. by apply elem_of_nil in Hd'.
      * apply IH. right. split; [done|].
        destruct Hmax as (l1 & l2 & -> & H1 & H2).
        exists l1, (l2 ++ [d]). split; [by rewrite <- app_assoc|].
        split; [done|]. intros d' Hd'.
        apply elem_of_app in Hd' as [Hd'|Hd']; [by apply H2|].
        apply list_elem_of_singleton in Hd' as ->. lia.
Qed.

Lemma exploreFallbackV_spec m cfg :
  isStuckV m = true → partialObs cfg = true → considered m ≠ [] →
  ∃ best, exploreFallbackV m cfg = Some best
          ∧ firstMax (infoScore m cfg) (considered m) best.
Proof.
  intros Hstuck Hpo Hne. unfold exploreFallbackV. rewrite Hstuck, Hpo. simpl.
  destruct (exploreStep_fold m cfg DIRS [] (UP, None)) as [[Hnil _]|[Hsome Hmax]];
    [by left | done |].
  fold (exploreLoopV m cfg) in *. rewrite Hsome.
  by exists (exploreLoopV m cfg).1.
Qed.


(** ** Claims about the planner *)

(** What the fallback of [pickAction] does.  When the model is stuck
    and observability is partial, it considers the directions whose
    target cell, clamped into the grid, is not blocked.  Whenever one
    such direction exists it returns the first considered direction, in
    the order UP, RIGHT, DOWN, LEFT, of highest [unseenAroundFrom]
    score, with mode "explore", no estimates and zero rollout
    iterations. *)
Lemma stuck_fallback_explores fuel h e m cfg budgetMs rnd c lps lc t :
  models h e m →
  isStuckV m = true → partialObs cfg = true → considered m ≠ [] →
  ∃ best w',
    pickAction fuel e cfg budgetMs (World h rnd c lps lc t)
    = Some (MkDecision best [] 0 "explore", w')
    ∧ firstMax (infoScore m cfg) (considered m) best.
Proof.
  intros [E H] Hstuck Hpo Hne.
  destruct (exploreFallbackV_spec m cfg Hstuck Hpo Hne) as (best & Hbest & Hmax).
  exists best. eexists. split; [|exact Hmax].
  unfold pickAction. rewrite (bind_run _ _ _ _ _ (now_run _ _ _ _ _ _)).
  erewrite bind_run; [|eapply exploreFallback_run; exact H].
  rewrite Hbest. reflexivity.
Qed.

Lemma stuck_fallback_explores_at_the_border :
  ∃ best w',
    pickAction 0 5%nat DEFAULTS 25 (World (heapOf borderModel) halfDraws 0 noLapse 0 0)
    = Some (MkDecision best [] 0 "explore", w')
    ∧ firstMax (infoScore borderModel DEFAULTS) (considered borderModel) best.
Proof.
  assert (H : models (heapOf borderModel) 5%nat borderModel).
  { apply (models_heapOf borderModel); compute_done. }
  exact (stuck_fallback_explores 0 _ _ _ DEFAULTS 25 halfDraws 0%nat
           noLapse 0%nat 0%N H eq_refl eq_refl ltac:(discriminate)).
Defined.


(** C5.  [isStuck] returns false for every model that has fewer than 6
    recent positions, and true for every model whose recent positions
    are (1,1),(2,1),(1,1),(2,1),(1,1),(2,1), whatever its tick, best
    distance and tick of last improvement are. *)
Theorem C5_isStuck_history h e m rnd c lps lc t :
  models h e m →
  (JSArray.lengthZ (m_recent m) < 6 →
   isStuck e (World h rnd c lps lc t) = Some (false, World h rnd c lps lc t))
  ∧ (m_recent m = [(1, 1); (2, 1); (1, 1); (2, 1); (1, 1); (2, 1)] →
     isStuck e (World h rnd c lps lc t) = Some (true, World h rnd c lps lc t)).
Proof.
  intros [E H]. rewrite (isStuck_run rnd lps lc t h e E m c H).
  unfold isStuckV. split.
  - intros Hlen. unfold STUCK_MIN_HISTORY.
    by destruct (Z.ltb_spec (JSArray.lengthZ (m_recent m)) 6); [|lia].
  - intros ->. simpl. by rewrite orb_true_r.
Qed.

Lemma C5_witness :
  isStuck 5%nat (World (heapOf scenarioModel) halfDraws 0 noLapse 0 0)
  = Some (false, World (heapOf scenarioModel) halfDraws 0 noLapse 0 0)
  ∧ isStuck 5%nat (World (heapOf ababModel) halfDraws 0 noLapse 0 0)
    = Some (true, World (heapOf ababModel) halfDraws 0 noLapse 0 0).
Proof.
  assert (H1 : models (heapOf scenarioModel) 5%nat scenarioModel).
  { apply (models_heapOf scenarioModel); compute_done. }
  assert (H2 : models (heapOf ababModel) 5%nat ababModel).
  { apply (models_heapOf ababModel); compute_done. }
  split.
  - apply (C5_isStuck_history _ _ _ halfDraws 0%nat noLapse 0%nat 0%N H1).
    by vm_compute.
  - by apply (C5_isStuck_history _ _ _ halfDraws 0%nat noLapse 0%nat 0%N H2).
Defined.

(** ** Dynamic obstacles *)

(** The moves that the drift rejects: the obstacle [k] stays where it
    is when its destination is outside the grid, holds an obstacle of
    the set as it was before the tick, or is the cell of the agent or of
    the goal. *)
Lemma driftTarget_rejected m k d :
  inGridV m k.1 k.2 = true → d ∈ DIRS →
  let x := k.1 + dx d in
  let y := k.2 + dy d in
  inGridV m x y = false ∨ JSSet.has (x, y) (m_obstacles m) = true
  ∨ atCell (m_agent m) x y = true ∨ atCell (m_goal m) x y = true →
  driftTarget m k d = k.
Proof.
  intros Hk Hd x y Hcase. unfold driftTarget, blockedV.
  unfold inGridV in Hk. destruct k as [kx ky]. simpl in *.
  assert (Hdir : (dx d = 0 ∧ (dy d = 1 ∨ dy d = -1))
                 ∨ (dy d = 0 ∧ (dx d = 1 ∨ dx d = -1))).
  { unfold DIRS in Hd.
    repeat (apply elem_of_cons in Hd as [->|Hd]; [simpl; lia|]).
    by apply elem_of_nil in Hd. }
  destruct (inGridV m x y) eqn:Hin.
  - unfold inGridV in Hin. subst x y.
    assert (clamp (kx + dx d) 0 (m_width m - 1) = kx + dx d) as ->
      by (unfold clamp; lia).
    assert (clamp (ky + dy d) 0 (m_height m - 1) = ky + dy d) as ->
      by (unfold clamp; lia).
    destruct Hcase as [?|[Hc|[Hc|Hc]]]; [done|rewrite Hc..].
    + by destruct (_ || _).
    + by rewrite andb_false_r.
    + by rewrite andb_false_r.
  - unfold inGridV in Hin. subst x y.
    destruct (negb _ && _ && _); [|done].
    f_equal; unfold clamp; lia.
Qed.

(** C7 fails on the code for the adversary: the obstacle at (2,2) draws
    UP, its destination (2,1) is the cell of the adversary, and instead
    of staying at (2,2) the obstacle moves there and is then deleted
    with the adversary's cell; no obstacle is left. *)
Lemma C7_obstacle_moves_onto_adversary_and_vanishes :
  ∃ m',
    afterStep adversaryModel (driftCfg true) RIGHT upDraws = Some m'
    ∧ m_adversary adversaryModel = Some (Pt 2 1)
    ∧ m_obstacles adversaryModel = [(2, 2)]
    ∧ pickAt upDraws 1 DIRS = Some UP
    ∧ driftTarget adversaryModel (2, 2) UP = (2, 1)
    ∧ m_obstacles m' = [].
Proof.
  eexists. split; [vm_compute; reflexivity|]. by repeat split.
Qed.


(** ** The budgeted loop and the selection *)






Lemma tallied_step scores iters d val :
  tallied scores iters → d ∈ DIRS →
  ∃ r, scores_get (name d) scores = Some r
       ∧ tallied (scores_set (name d) (Rec (rec_s r + val) (rec_n r + 1)) scores)
                 (iters + 1).
Proof.
  intros (r0 & r1 & r2 & r3 & -> & H0 & H1 & H2 & H3 & ->) Hd.
  unfold DIRS in Hd.
  repeat (apply elem_of_cons in Hd as [->|Hd];
          [eexists; split; [reflexivity|]; simpl;
           eexists _, _, _, _; split; [reflexivity|]; simpl; lia|]).
  by apply elem_of_nil in Hd.
Qed.


Lemma anytimeLoop_unfold fuel e cfg hz start budgetMs scores iters :
  anytimeLoop fuel e cfg hz start budgetMs scores iters
  = (tm <- now ;;
     if Qltb (tm - start)%Q budgetMs then
       match fuel with
       | O => fail
       | S fuel' =>
           r <- rolloutPass e cfg hz start budgetMs DIRS scores iters ;;
           anytimeLoop fuel' e cfg hz start budgetMs r.1 r.2
       end
     else ret (scores, iters)).
Proof. by destruct fuel. Qed.


Lemma tallied_initial : tallied initScores 0.
Proof. exists (Rec 0 0), (Rec 0 0), (Rec 0 0), (Rec 0 0). by repeat split. Qed.






(** * Further properties of the program *)

(** ** Utilities *)

Lemma clamp_id v a b : a ≤ v ≤ b → clamp v a b = v.
Proof. unfold clamp. lia. Qed.

Lemma clamp_bounds v a b : a ≤ b → a ≤ clamp v a b ≤ b.
Proof. unfold clamp. lia. Qed.

Lemma clamp_near v d b :
  0 ≤ v ≤ b → Z.abs (clamp (v + d) 0 b - v) ≤ Z.abs d.
Proof. unfold clamp. lia. Qed.

Lemma inGridV_spec m x y :
  inGridV m x y = true ↔ 0 ≤ x < m_width m ∧ 0 ≤ y < m_height m.
Proof.
  unfold inGridV. rewrite !andb_true_iff, !Z.leb_le, !Z.ltb_lt. lia.
Qed.

Lemma has_true k s : JSSet.has k s = true ↔ k ∈ s.
Proof. unfold JSSet.has. apply bool_decide_eq_true. Qed.

Lemma has_false k s : JSSet.has k s = false ↔ k ∉ s.
Proof. unfold JSSet.has. apply bool_decide_eq_false. Qed.

Lemma blockedV_false m x y :
  blockedV m x y = false ↔ inGridV m x y = true ∧ (x, y) ∉ m_obstacles m.
Proof.
  unfold blockedV. rewrite inGridV_spec, !Z.geb_leb.
  destruct (Z.ltb_spec x 0), (Z.ltb_spec y 0), (Z.leb_spec (m_width m) x),
    (Z.leb_spec (m_height m) y); simpl; rewrite ?has_false;
    try (split; [done | lia]).
  split; [intros; split; [lia | done] | by intros [_ ?]].
Qed.

Lemma elem_of_delete k k' s : k' ∈ JSSet.delete k s ↔ k' ∈ s ∧ k' ≠ k.
Proof. unfold JSSet.delete. rewrite list_elem_of_filter. tauto. Qed.

Lemma dir_cases d :
  d ∈ DIRS → d = UP ∨ d = RIGHT ∨ d = DOWN ∨ d = LEFT.
Proof.
  unfold DIRS. intros H.
  repeat (apply elem_of_cons in H as [H|H]; [tauto|]).
  by apply elem_of_nil in H.
Qed.

Lemma dir_unit d : d ∈ DIRS → Z.abs (dx d) + Z.abs (dy d) = 1.
Proof. intros H. destruct (dir_cases d H) as [-> | [-> | [-> | ->]]]; done. Qed.

(** ** The phases of one transition *)

Lemma stepModel_phases rnd cfg a m c :
  m_done m = false →
  ∃ d c1 m2 c2 m3 c3 m4 pen c4,
    slipV rnd cfg a c = (d, c1)
    ∧ revealV rnd cfg (moveAgentV d m) c1 = (m2, c2)
    ∧ driftObstaclesV rnd cfg m2 c2 = (m3, c3)
    ∧ moveAdversaryV rnd cfg m3 c3 = (m4, pen, c4)
    ∧ stepModel rnd cfg a m c = (accountV cfg pen m4, c4).
Proof.
  intros Hd. unfold stepModel. rewrite Hd.
  destruct (slipV rnd cfg a c) as [d c1] eqn:Hs.
  destruct (revealV rnd cfg (moveAgentV d m) c1) as [m2 c2] eqn:H2.
  destruct (driftObstaclesV rnd cfg m2 c2) as [m3 c3] eqn:H3.
  destruct (moveAdversaryV rnd cfg m3 c3) as [[m4 pen] c4] eqn:H4.
  exists d, c1, m2, c2, m3, c3, m4, pen, c4. cbn [fst snd].
  rewrite H2. cbn [fst snd]. rewrite H3. cbn [fst snd]. by rewrite H4.
Qed.

Lemma slipV_DIRS rnd cfg a c : a ∈ DIRS → (slipV rnd cfg a c).1 ∈ DIRS.
Proof.
  intros Ha. unfold slipV. destruct (Qltb _ _); [|done]. cbn [fst].
  destruct (pickAt_Some rnd (S c) (filter (λ d, name d ≠ name a) DIRS)
              (slip_filter_nonempty a)) as (d & -> & Hd).
  apply list_elem_of_filter in Hd as [_ Hd]. done.
Qed.

Lemma slipV_none rnd cfg a c :
  (slipProb cfg <= 0)%Q → slipV rnd cfg a c = (a, S c).
Proof. intros H. unfold slipV. by rewrite Qltb_draw_nonpos. Qed.

(** *** The agent *)

Lemma moveAgentV_cases d m :
  let p := target (m_agent m) d in
  (blockedV m (px p) (py p) = true ∧ moveAgentV d m = m)
  ∨ (blockedV m (px p) (py p) = false
     ∧ moveAgentV d m = m_with_agent p m).
Proof.
  unfold moveAgentV, target. simpl.
  destruct (blockedV m _ _) eqn:Hb; [by left|right]. split; [done|].
  apply blockedV_false in Hb as [Hg _]. apply inGridV_spec in Hg.
  rewrite !clamp_id by lia. done.
Qed.

Lemma moveAgentV_near d m :
  d ∈ DIRS → manhattan (m_agent m) (m_agent (moveAgentV d m)) ≤ 1.
Proof.
  intros Hd. pose proof (dir_unit d Hd).
  destruct (moveAgentV_cases d m) as [[_ ->]|[_ ->]]; unfold manhattan, target;
    simpl; lia.
Qed.

(** *** Boundedness *)

Lemma boundedV_spec m :
  boundedV m = true ↔
    inGridV m (px (m_agent m)) (py (m_agent m)) = true
    ∧ inGridV m (px (m_goal m)) (py (m_goal m)) = true
    ∧ (∀ p, m_adversary m = Some p →
            inGridV m (px p) (py p) = true ∧ keyOf p ∉ m_obstacles m)
    ∧ (∀ k, k ∈ m_obstacles m → inGridV m k.1 k.2 = true)
    ∧ (keyOf (m_agent m) ∉ m_obstacles m)
    ∧ (keyOf (m_goal m) ∉ m_obstacles m).
Proof.
  unfold boundedV.
  rewrite !andb_true_iff, !negb_true_iff, !has_false, forallb_forall.
  assert (Hadv :
    (match m_adversary m with
     | Some p => inGridV m (px p) (py p)
                 && negb (JSSet.has (keyOf p) (m_obstacles m))
     | None => true
     end) = true
    ↔ ∀ p, m_adversary m = Some p →
           inGridV m (px p) (py p) = true ∧ keyOf p ∉ m_obstacles m).
  { destruct (m_adversary m) as [p|].
    - rewrite andb_true_iff, negb_true_iff, has_false. split.
      + intros H q [= <-]. done.
      + intros H. by apply H.
    - split; [by intros _ q | done]. }
  rewrite Hadv.
  assert (Hin : (∀ x, In x (m_obstacles m) → inGridV m x.1 x.2 = true)
                ↔ ∀ k, k ∈ m_obstacles m → inGridV m k.1 k.2 = true).
  { split; intros H k Hk; apply H; by apply list_elem_of_In. }
  rewrite Hin. tauto.
Qed.

Lemma moveAgentV_bounded d m :
  boundedV m = true → boundedV (moveAgentV d m) = true.
Proof.
  intros Hb. destruct (moveAgentV_cases d m) as [[_ ->]|[Hn ->]]; [done|].
  apply boundedV_spec in Hb as (Hag & Hgl & Hadv & Hobs & Hfa & Hfg).
  apply blockedV_false in Hn as [Hin Hfree].
  apply boundedV_spec. simpl.
  split; [done|]. split; [done|]. split; [|done]. apply Hadv.
Qed.

Lemma driftStep_cursor rnd m st k : (driftStep rnd m st k).2 = S st.2.
Proof. done. Qed.

(** Every key of the moved set is the destination of an obstacle. *)
Lemma driftAll_elem rnd m obs :
  ∀ s c k',
    k' ∈ (foldl (driftStep rnd m) (s, c) obs).1 →
    k' ∈ s ∨ ∃ k d, k ∈ obs ∧ d ∈ DIRS ∧ k' = driftTarget m k d.
Proof.
  induction obs as [|k obs IH]; intros s c k' Hk'; simpl in Hk'; [by left|].
  unfold driftStep at 2 in Hk'. cbn [fst snd] in Hk'.
  apply IH in Hk' as [Hk'|(k0 & d & Hk0 & Hd & ->)].
  - apply elem_of_add in Hk' as [->|Hk']; [|by left].
    right. destruct (pickAt_Some rnd c DIRS) as (d & -> & Hd); [done|].
    exists k, d. repeat split; [apply list_elem_of_here | done].
  - right. exists k0, d. repeat split; [by apply list_elem_of_further | done].
Qed.

Lemma driftTarget_cases m k d :
  driftTarget m k d = k
  ∨ (driftTarget m k d
     = (clamp (k.1 + dx d) 0 (m_width m - 1),
        clamp (k.2 + dy d) 0 (m_height m - 1))
     ∧ blockedV m (driftTarget m k d).1 (driftTarget m k d).2 = false).
Proof.
  unfold driftTarget.
  destruct (blockedV m _ _) eqn:Hb; simpl; [by left|].
  destruct (negb (atCell (m_agent m) _ _) && negb (atCell (m_goal m) _ _));
    [right | by left].
  done.
Qed.

Lemma driftTarget_inGrid m k d :
  inGridV m k.1 k.2 = true →
  inGridV m (driftTarget m k d).1 (driftTarget m k d).2 = true.
Proof.
  intros Hk. destruct (driftTarget_cases m k d) as [->|[_ Hb]]; [done|].
  by apply blockedV_false in Hb as [? _].
Qed.

Lemma driftTarget_near m k d :
  inGridV m k.1 k.2 = true → d ∈ DIRS →
  manhattan (cellOf k) (cellOf (driftTarget m k d)) ≤ 1.
Proof.
  intros Hk Hd. pose proof (dir_unit d Hd) as Hu.
  apply inGridV_spec in Hk.
  destruct (driftTarget_cases m k d) as [->|[-> _]];
    unfold manhattan, cellOf, clamp; simpl; lia.
Qed.

Lemma driftObstaclesV_cases rnd cfg m c :
  (driftObstaclesV rnd cfg m c = (m, c)
   ∧ dynamicObstacles cfg && (Z.rem (m_tick m) 3 =? 0) = false)
  ∨ (dynamicObstacles cfg && (Z.rem (m_tick m) 3 =? 0) = true
     ∧ ∃ mv, (driftObstaclesV rnd cfg m c).1 = m_with_obstacles mv m
             ∧ ∀ k', k' ∈ mv ↔
                 k' ∈ (driftAll rnd m (m_obstacles m) c).1
                 ∧ k' ≠ keyOf (m_agent m) ∧ k' ≠ keyOf (m_goal m)
                 ∧ ∀ p, m_adversary m = Some p → k' ≠ keyOf p).
Proof.
  unfold driftObstaclesV.
  destruct (dynamicObstacles cfg && (Z.rem (m_tick m) 3 =? 0));
    [right | by left].
  split; [done|]. eexists. split; [done|]. intros k'.
  destruct (m_adversary m) as [adv|]; rewrite !elem_of_delete.
  - split.
    + intros [[[? ?] ?] ?]. repeat split; try done. by intros p [= <-].
    + intros (? & ? & ? & H). repeat split; try done. by apply H.
  - split; [intros [[? ?] ?]; by repeat split | intros (? & ? & ? & _)].
    by repeat split.
Qed.

Lemma driftObstaclesV_bounded rnd cfg m c :
  boundedV m = true → boundedV (driftObstaclesV rnd cfg m c).1 = true.
Proof.
  intros Hb.
  destruct (driftObstaclesV_cases rnd cfg m c)
    as [[-> _]|[_ (mv & -> & Hmv)]]; [done|].
  apply boundedV_spec in Hb as (Hag & Hgl & Hadv & Hobs & Hfa & Hfg).
  apply boundedV_spec. simpl.
  split; [done|]. split; [done|]. split; [|split; [|split]].
  - intros p Hp. split; [by apply Hadv|].
    intros Hin. apply Hmv in Hin as (_ & _ & _ & Hne). by eapply Hne.
  - intros k' Hk'. apply Hmv in Hk' as (Hk' & _).
    apply driftAll_elem in Hk' as [Hk'|(k & d & Hk & _ & ->)].
    + by apply elem_of_nil in Hk'.
    + apply (driftTarget_inGrid m). by apply Hobs.
  - intros Hin. by apply Hmv in Hin as (_ & ? & _).
  - intros Hin. by apply Hmv in Hin as (_ & _ & ? & _).
Qed.

(** *** The adversary *)

Lemma elem_of_advCandidatesV m adv p :
  p ∈ advCandidatesV m adv
  ↔ (∃ d, d ∈ DIRS ∧ p = neighbour m adv d)
    ∧ blockedV m (px p) (py p) = false.
Proof.
  unfold advCandidatesV. rewrite list_elem_of_filter, list_elem_of_fmap.
  unfold neighbour. split.
  - intros [? (d & -> & ?)]. split; [by exists d | done].
  - intros [(d & ? & ->) ?]. split; [done | by exists d].
Qed.

Lemma foldl_select {A} (better : A → A → bool) (l : list A) :
  ∀ b, foldl (λ b c, if better c b then c else b) b l ∈ b :: l.
Proof.
  induction l as [|x l IH]; intros b; simpl; [apply list_elem_of_here|].
  destruct (better x b).
  - apply list_elem_of_further, IH.
  - specialize (IH b). apply elem_of_cons in IH as [->|IH].
    + apply list_elem_of_here.
    + by do 2 apply list_elem_of_further.
Qed.

(** Where the adversary goes: it stays, or moves to an unblocked
    neighbour; the penalty is -5 exactly when it ends on the agent. *)
Lemma moveAdversaryV_cases rnd cfg m c adv :
  m_adversary m = Some adv →
  ∃ adv',
    (moveAdversaryV rnd cfg m c).1.1 = m_with_adversary adv' m
    ∧ (moveAdversaryV rnd cfg m c).1.2
      = (if samePoint adv' (m_agent m) then (-5)%Q else 0%Q)
    ∧ (adv' = adv ∨ adv' ∈ advCandidatesV m adv)
    ∧ (advCandidatesV m adv ≠ [] → adv' ∈ advCandidatesV m adv).
Proof.
  intros Hadv. unfold moveAdversaryV. rewrite Hadv. rewrite !point_eta.
  set (cands := advCandidatesV m adv).
  destruct (String.eqb (adversaryType cfg) "chaser"); cbn [fst snd].
  - pose proof (foldl_select
      (λ c b, manhattan c (m_agent m) <? manhattan b (m_agent m)) cands
      (default adv (head cands))) as Hr.
    set (r := foldl _ _ _) in *. clearbody r. exists r.
    split; [done|]. split; [done|].
    destruct cands as [|p cands'] eqn:Hc; simpl in Hr.
    + apply elem_of_cons in Hr as [->|Hr]; [|by apply elem_of_nil in Hr].
      split; [by left | done].
    + assert (r ∈ p :: cands').
      { apply elem_of_cons in Hr as [->|Hr]; [apply list_elem_of_here|done]. }
      split; [by right | done].
  - destruct cands as [|p cands'] eqn:Hc.
    + exists adv. unfold pickAt, JSArray.get.
      destruct (Qfloor _ <? 0); simpl; rewrite ?lookup_nil; simpl;
        (split; [done|]); (split; [done|]); (split; [by left | done]).
    + destruct (pickAt_Some rnd c (p :: cands')) as (q & Hq & Hin); [done|].
      rewrite Hq. simpl. exists q.
      split; [done|]. split; [done|]. split; [by right | done].
Qed.

Lemma moveAdversaryV_none rnd cfg m c :
  m_adversary m = None → moveAdversaryV rnd cfg m c = (m, 0%Q, c).
Proof. intros H. unfold moveAdversaryV. by rewrite H. Qed.

Lemma moveAdversaryV_bounded rnd cfg m c :
  boundedV m = true → boundedV (moveAdversaryV rnd cfg m c).1.1 = true.
Proof.
  intros Hb. destruct (m_adversary m) as [adv|] eqn:Hadv.
  - destruct (moveAdversaryV_cases rnd cfg m c adv Hadv)
      as (adv' & -> & _ & Hcase & _).
    apply boundedV_spec in Hb as (Hag & Hgl & Ha & Hobs & Hfa & Hfg).
    apply boundedV_spec. simpl.
    split; [done|]. split; [done|]. split; [|done].
    intros p [= <-]. destruct Hcase as [->|Hc]; [by apply Ha|].
    apply elem_of_advCandidatesV in Hc as [_ Hc].
    by apply blockedV_false in Hc as [? ?].
  - by rewrite moveAdversaryV_none.
Qed.

Lemma revealV_bounded rnd cfg m c :
  boundedV (revealV rnd cfg m c).1 = boundedV m.
Proof. destruct (revealV_seen rnd cfg m c) as [s ->]. done. Qed.

Lemma stepModel_bounded rnd cfg a m c :
  boundedV m = true → boundedV (stepModel rnd cfg a m c).1 = true.
Proof.
  intros Hb. destruct (m_done m) eqn:Hd.
  { unfold stepModel. by rewrite Hd. }
  destruct (stepModel_phases rnd cfg a m c Hd)
    as (d & c1 & m2 & c2 & m3 & c3 & m4 & pen & c4
        & Hs & H2 & H3 & H4 & ->).
  cbn [fst].
  change (boundedV (accountV cfg pen m4)) with (boundedV m4).
  replace m4 with (moveAdversaryV rnd cfg m3 c3).1.1 by (by rewrite H4).
  apply moveAdversaryV_bounded.
  replace m3 with (driftObstaclesV rnd cfg m2 c2).1 by (by rewrite H3).
  apply driftObstaclesV_bounded.
  replace m2 with (revealV rnd cfg (moveAgentV d m) c1).1 by (by rewrite H2).
  rewrite revealV_bounded. by apply moveAgentV_bounded.
Qed.

Lemma advanceAllV_bounded rnd cfg actions :
  ∀ m c, boundedV m = true →
         boundedV (advanceAllV rnd cfg actions m c).1 = true.
Proof.
  induction actions as [|a actions IH]; intros m c Hb; simpl; [done|].
  apply IH. by apply stepModel_bounded.
Qed.

(** *** The shape of the model after one tick *)

Lemma moveAdversaryV_penalty rnd cfg m c :
  (moveAdversaryV rnd cfg m c).1.2
  = match m_adversary (moveAdversaryV rnd cfg m c).1.1 with
    | Some adv => if samePoint adv (m_agent m) then (-5)%Q else 0%Q
    | None => 0%Q
    end.
Proof.
  destruct (m_adversary m) as [adv|] eqn:Hadv.
  - destruct (moveAdversaryV_cases rnd cfg m c adv Hadv)
      as (adv' & -> & -> & _). done.
  - rewrite moveAdversaryV_none by done. simpl. by rewrite Hadv.
Qed.

Lemma stepModel_form rnd cfg a m c :
  m_done m = false →
  let s := slipV rnd cfg a c in
  let m1 := moveAgentV s.1 m in
  let r2 := revealV rnd cfg m1 s.2 in
  let r3 := driftObstaclesV rnd cfg r2.1 r2.2 in
  let r4 := moveAdversaryV rnd cfg r3.1 r3.2 in
  (stepModel rnd cfg a m c).1
  = accountV cfg r4.1.2
      (Model (m_tick m) (m_width m) (m_height m) (m_obstacles r3.1)
             (m_agent m1) (m_goal m) (m_adversary r4.1.1) (m_reward m) false
             (m_seen r2.1) (m_recent m) (m_bestDist m)
             (m_lastImprovedTick m))
  ∧ m_agent r3.1 = m_agent m1
  ∧ m_adversary r3.1 = m_adversary m
  ∧ r3.1 = (driftObstaclesV rnd cfg (m_with_seen (m_seen r2.1) m1) r2.2).1.
Proof.
  intros Hd s m1 r2 r3 r4.
  destruct (moveAgentV_fields s.1 m)
    as (Ht1 & Hw1 & Hh1 & Ho1 & Hg1 & Ha1 & Hr1 & Hd1 & Hs1 & Hc1 & Hb1 & Hl1).
  destruct (revealV_fields rnd cfg m1 s.2)
    as (Ht2 & Hw2 & Hh2 & Ho2 & Hag2 & Hg2 & Ha2 & Hr2 & Hd2 & Hc2 & Hb2 & Hl2).
  destruct (driftObstaclesV_fields rnd cfg r2.1 r2.2)
    as (Ht3 & Hw3 & Hh3 & Hag3 & Hg3 & Ha3 & Hr3 & Hd3 & Hs3 & Hc3 & Hb3 & Hl3).
  destruct (moveAdversaryV_fields rnd cfg r3.1 r3.2)
    as (Ht4 & Hw4 & Hh4 & Ho4 & Hag4 & Hg4 & Hr4 & Hd4 & Hs4 & Hc4 & Hb4 & Hl4).
  fold m1 in Ht1, Hw1, Hh1, Ho1, Hg1, Ha1, Hr1, Hd1, Hs1, Hc1, Hb1, Hl1.
  fold r2 in Ht2, Hw2, Hh2, Ho2, Hag2, Hg2, Ha2, Hr2, Hd2, Hc2, Hb2, Hl2.
  fold r3 in Ht3, Hw3, Hh3, Hag3, Hg3, Ha3, Hr3, Hd3, Hs3, Hc3, Hb3, Hl3.
  fold r4 in Ht4, Hw4, Hh4, Ho4, Hag4, Hg4, Hr4, Hd4, Hs4, Hc4, Hb4, Hl4.
  split; [|split; [congruence | split; [congruence|]]].
  - unfold stepModel. rewrite Hd. cbn [fst]. fold s m1 r2 r3 r4. f_equal.
    clearbody r4 r3 r2 m1. destruct r4 as [[m4 pen] c4]. cbn [fst snd] in *.
    destruct m4. simpl in *. f_equal; congruence.
  - subst r3. f_equal.
    destruct (revealV_seen rnd cfg m1 s.2) as [sn Hsn]. fold r2 in Hsn.
    rewrite Hsn. done.
Qed.

(** The bookkeeping of one tick of a model that is not terminal. *)
Lemma stepModel_summary rnd cfg a m c :
  m_done m = false →
  let m' := (stepModel rnd cfg a m c).1 in
  let dist := manhattan (m_agent m') (m_goal m') in
  m_tick m' = m_tick m + 1
  ∧ m_width m' = m_width m ∧ m_height m' = m_height m
  ∧ m_goal m' = m_goal m
  ∧ m_agent m' = m_agent (moveAgentV (slipV rnd cfg a c).1 m)
  ∧ (m_reward m' == m_reward m + tickReward m')%Q
  ∧ m_done m' = episodic cfg && samePoint (m_agent m') (m_goal m')
  ∧ m_bestDist m' = Z.min (m_bestDist m) dist
  ∧ m_lastImprovedTick m'
    = (if dist <? m_bestDist m then m_tick m' else m_lastImprovedTick m)
  ∧ m_recent m'
    = (let rc := m_recent m ++ [keyOf (m_agent m')] in
       if 16 <? Z.of_nat (length rc) then tail rc else rc).
Proof.
  intros Hd. destruct (stepModel_form rnd cfg a m c Hd) as (Hf & Hag & _ & _).
  cbv zeta in *. rewrite Hf.
  pose proof (moveAdversaryV_penalty rnd cfg
    (driftObstaclesV rnd cfg
       (revealV rnd cfg (moveAgentV (slipV rnd cfg a c).1 m)
          (slipV rnd cfg a c).2).1
       (revealV rnd cfg (moveAgentV (slipV rnd cfg a c).1 m)
          (slipV rnd cfg a c).2).2).1
    (driftObstaclesV rnd cfg
       (revealV rnd cfg (moveAgentV (slipV rnd cfg a c).1 m)
          (slipV rnd cfg a c).2).1
       (revealV rnd cfg (moveAgentV (slipV rnd cfg a c).1 m)
          (slipV rnd cfg a c).2).2).2) as Hpen.
  rewrite Hag in Hpen.
  set (r4 := moveAdversaryV _ _ _ _) in *. clearbody r4.
  set (ag := m_agent (moveAgentV _ m)) in *. clearbody ag.
  unfold accountV, tickReward, JSArray.push, JSArray.shift, JSArray.lengthZ.
  simpl. rewrite Hpen.
  repeat split.
  - destruct (samePoint ag (m_goal m));
      destruct (m_adversary r4.1.1) as [adv|];
      try destruct (samePoint adv ag); ring.
  - by destruct (episodic cfg), (samePoint ag (m_goal m)).
  - destruct (Z.ltb_spec (manhattan ag (m_goal m)) (m_bestDist m)); lia.
  - rewrite Z.gtb_ltb. done.
Qed.

(** *** The observed cells *)

Lemma elem_of_range a b x : x ∈ range a b ↔ a ≤ x ≤ b.
Proof. unfold range. rewrite elem_of_seqZ. lia. Qed.

Lemma elem_of_window ag r k :
  k ∈ window ag r ↔ Z.abs (k.1 - px ag) ≤ r ∧ Z.abs (k.2 - py ag) ≤ r.
Proof.
  unfold window. rewrite list_elem_of_bind. split.
  - intros (y & H & Hy). apply list_elem_of_bind in H as (x & H & Hx).
    apply list_elem_of_singleton in H as ->.
    apply elem_of_range in Hx, Hy. simpl. lia.
  - intros [Hx Hy]. exists (k.2 - py ag). split; [|apply elem_of_range; lia].
    apply list_elem_of_bind. exists (k.1 - px ag).
    split; [|apply elem_of_range; lia].
    apply list_elem_of_singleton. destruct k as [x y]. simpl. f_equal; lia.
Qed.

Lemma elem_of_allCells m k : k ∈ allCells m ↔ inGridV m k.1 k.2 = true.
Proof.
  unfold allCells. rewrite list_elem_of_bind, inGridV_spec. split.
  - intros (y & H & Hy). apply list_elem_of_bind in H as (x & H & Hx).
    apply list_elem_of_singleton in H as ->.
    apply elem_of_range in Hx, Hy. simpl. lia.
  - intros [Hx Hy]. exists k.2. split; [|apply elem_of_range; lia].
    apply list_elem_of_bind. exists k.1. split; [|apply elem_of_range; lia].
    apply list_elem_of_singleton. by destruct k.
Qed.

Lemma elem_of_foldl_add (l : list key) :
  ∀ s k, k ∈ foldl (λ s k, JSSet.add k s) s l ↔ k ∈ s ∨ k ∈ l.
Proof.
  induction l as [|x l IH]; intros s k; simpl.
  - split; [by left | intros [?|H]; [done | by apply elem_of_nil in H]].
  - rewrite IH, elem_of_add, elem_of_cons. tauto.
Qed.

Lemma foldl_add_present (l : list key) :
  ∀ s, (∀ k, k ∈ l → k ∈ s) → foldl (λ s k, JSSet.add k s) s l = s.
Proof.
  induction l as [|x l IH]; intros s Hl; simpl; [done|].
  assert (Hx : JSSet.add x s = s).
  { unfold JSSet.add. rewrite (proj2 (has_true x s)); [done|].
    apply Hl, list_elem_of_here. }
  rewrite Hx. apply IH. intros k Hk. by apply Hl, list_elem_of_further.
Qed.

(** The cells that one partial reveal can add are the cells of the
    window that lie within the grid; without sensor noise it adds them
    all. *)
Lemma reveal_fold_elem rnd m noise (l : list key) :
  ∀ st k,
    (k ∈ (foldl (revealStep rnd m noise) st l).1 →
     k ∈ st.1 ∨ (k ∈ l ∧ inGridV m k.1 k.2 = true))
    ∧ ((noise <= 0)%Q →
       k ∈ st.1 ∨ (k ∈ l ∧ inGridV m k.1 k.2 = true) →
       k ∈ (foldl (revealStep rnd m noise) st l).1).
Proof.
  induction l as [|x l IH]; intros st k; simpl.
  { split; [by left|]. intros _ [?|[H _]]; [done | by apply elem_of_nil in H]. }
  destruct (IH (revealStep rnd m noise st x) k) as [IH1 IH2]. split.
  - intros H. apply IH1 in H as [H|[H ?]].
    + unfold revealStep in H. destruct (inGridV m x.1 x.2) eqn:Hx; [|by left].
      destruct (Qltb _ _); simpl in H; [by left|].
      apply elem_of_add in H as [->|H]; [right | by left].
      split; [apply list_elem_of_here | done].
    + right. split; [by apply list_elem_of_further | done].
  - intros Hn H. apply IH2; [done|].
    unfold revealStep. rewrite Qltb_draw_nonpos by done.
    destruct H as [H|[H Hk]].
    + left. destruct (inGridV m x.1 x.2); simpl; [|done].
      apply elem_of_add. by right.
    + apply elem_of_cons in H as [->|H]; [left | right; by split].
      rewrite Hk. simpl. apply elem_of_add. by left.
Qed.

Lemma revealV_partial rnd cfg m c k :
  partialObs cfg = true →
  (k ∈ m_seen (revealV rnd cfg m c).1 →
   k ∈ m_seen m
   ∨ (k ∈ window (m_agent m) (obsRadius cfg) ∧ inGridV m k.1 k.2 = true))
  ∧ ((sensorNoise cfg <= 0)%Q →
     k ∈ window (m_agent m) (obsRadius cfg) → inGridV m k.1 k.2 = true →
     k ∈ m_seen (revealV rnd cfg m c).1).
Proof.
  intros Hp. unfold revealV. rewrite Hp. cbn [fst m_seen m_with_seen].
  destruct (reveal_fold_elem rnd m (sensorNoise cfg)
              (window (m_agent m) (obsRadius cfg)) (m_seen m, c) k)
    as [H1 H2].
  split; [exact H1|]. intros Hn Hw Hg. apply H2; [done|]. right. by split.
Qed.

Lemma length_allCells m :
  Z.of_nat (length (allCells m)) ≤ Z.max 0 (m_width m * m_height m).
Proof.
  unfold allCells, range.
  replace (m_height m - 1 - 0 + 1) with (m_height m) by lia.
  replace (m_width m - 1 - 0 + 1) with (m_width m) by lia.
  assert (Hlen : ∀ (ys : list Z),
            length (y ← ys; x ← seqZ 0 (m_width m); [(x, y)])
            = (length ys * Z.to_nat (m_width m))%nat).
  { induction ys as [|y ys IH]; [done|]. csimpl.
    rewrite length_app, IH. f_equal.
    generalize (seqZ 0 (m_width m)) (length_seqZ 0 (m_width m)).
    intros l <-. induction l as [|x l IHl]; [done|]. csimpl. by rewrite IHl. }
  rewrite Hlen, length_seqZ. nia.
Qed.

Lemma revealV_full rnd cfg m c :
  partialObs cfg = false → NoDup (m_seen m) → seenInGrid m = true →
  ∀ k, inGridV m k.1 k.2 = true → k ∈ m_seen (revealV rnd cfg m c).1.
Proof.
  intros Hp Hnd Hin k Hk. unfold revealV. rewrite Hp.
  destruct (Z.ltb_spec (JSSet.size (m_seen m)) (m_width m * m_height m))
    as [Hlt|Hge]; cbn [fst m_seen m_with_seen].
  - apply elem_of_foldl_add. right. by apply elem_of_allCells.
  - assert (Hsub : m_seen m ⊆+ allCells m).
    { apply NoDup_submseteq; [done|]. intros x Hx. apply elem_of_allCells.
      unfold seenInGrid in Hin.
      rewrite forallb_forall in Hin. by apply Hin, list_elem_of_In. }
    apply submseteq_length_Permutation in Hsub.
    + rewrite Hsub. by apply elem_of_allCells.
    + pose proof (length_allCells m). unfold JSSet.size in Hge. lia.
Qed.

(** Once every cell of the grid is observed, the full reveal leaves
    the set as it is. *)
Lemma revealV_full_idempotent rnd cfg m c :
  partialObs cfg = false →
  (∀ k, inGridV m k.1 k.2 = true → k ∈ m_seen m) →
  m_seen (revealV rnd cfg m c).1 = m_seen m.
Proof.
  intros Hp Hall. unfold revealV. rewrite Hp.
  destruct (_ <? _); [|done]. cbn [fst m_seen m_with_seen].
  apply foldl_add_present. intros k Hk. by apply Hall, elem_of_allCells.
Qed.

Lemma seenInGrid_spec m :
  seenInGrid m = true ↔ ∀ k, k ∈ m_seen m → inGridV m k.1 k.2 = true.
Proof.
  unfold seenInGrid. rewrite forallb_forall.
  split; intros H k Hk; apply H; by apply list_elem_of_In.
Qed.

Lemma moveAgentV_inGridV d m x y :
  inGridV (moveAgentV d m) x y = inGridV m x y.
Proof. by destruct (moveAgentV_cases d m) as [[_ ->]|[_ ->]]. Qed.

Lemma stepModel_seen rnd cfg a m c :
  m_done m = false →
  let m1 := moveAgentV (slipV rnd cfg a c).1 m in
  m_seen (stepModel rnd cfg a m c).1
  = m_seen (revealV rnd cfg m1 (slipV rnd cfg a c).2).1
  ∧ m_agent (stepModel rnd cfg a m c).1 = m_agent m1
  ∧ m_seen m1 = m_seen m.
Proof.
  intros Hd. destruct (stepModel_form rnd cfg a m c Hd) as (Hf & _).
  cbv zeta in *. rewrite Hf. split; [done|]. split; [done|].
  by destruct (moveAgentV_cases (slipV rnd cfg a c).1 m) as [[_ ->]|[_ ->]].
Qed.

Lemma stepModel_seen_partial rnd cfg a m c k :
  m_done m = false → partialObs cfg = true →
  let m' := (stepModel rnd cfg a m c).1 in
  (k ∈ m_seen m' →
   k ∈ m_seen m
   ∨ (k ∈ window (m_agent m') (obsRadius cfg) ∧ inGridV m k.1 k.2 = true))
  ∧ ((sensorNoise cfg <= 0)%Q →
     k ∈ window (m_agent m') (obsRadius cfg) → inGridV m k.1 k.2 = true →
     k ∈ m_seen m').
Proof.
  intros Hd Hp. destruct (stepModel_seen rnd cfg a m c Hd) as (Hs & Hag & Hs1).
  cbv zeta in *. rewrite Hs, Hag.
  destruct (revealV_partial rnd cfg
              (moveAgentV (slipV rnd cfg a c).1 m) (slipV rnd cfg a c).2 k Hp)
    as [H1 H2].
  rewrite moveAgentV_inGridV, Hs1 in H1. rewrite moveAgentV_inGridV in H2.
  done.
Qed.

Lemma stepModel_seen_full rnd cfg a m c :
  m_done m = false → partialObs cfg = false →
  NoDup (m_seen m) → seenInGrid m = true →
  ∀ k, inGridV m k.1 k.2 = true → k ∈ m_seen (stepModel rnd cfg a m c).1.
Proof.
  intros Hd Hp Hnd Hin k Hk.
  destruct (stepModel_seen rnd cfg a m c Hd) as (Hs & _ & Hs1).
  cbv zeta in *. rewrite Hs. apply revealV_full; try done.
  - by rewrite Hs1.
  - apply seenInGrid_spec. intros x Hx. rewrite moveAgentV_inGridV.
    rewrite Hs1 in Hx. revert x Hx. by apply seenInGrid_spec.
  - by rewrite moveAgentV_inGridV.
Qed.

Lemma stepModel_seen_idempotent rnd cfg a m c :
  partialObs cfg = false →
  (∀ k, inGridV m k.1 k.2 = true → k ∈ m_seen m) →
  m_seen (stepModel rnd cfg a m c).1 = m_seen m.
Proof.
  intros Hp Hall. destruct (m_done m) eqn:Hd.
  { unfold stepModel. by rewrite Hd. }
  destruct (stepModel_seen rnd cfg a m c Hd) as (Hs & _ & Hs1).
  cbv zeta in *. rewrite Hs, <- Hs1. apply revealV_full_idempotent; [done|].
  intros k Hk. rewrite Hs1. apply Hall. by rewrite moveAgentV_inGridV in Hk.
Qed.

Lemma stepModel_seenInGrid rnd cfg a m c :
  seenInGrid m = true → seenInGrid (stepModel rnd cfg a m c).1 = true.
Proof.
  intros Hin. destruct (m_done m) eqn:Hd.
  { unfold stepModel. by rewrite Hd. }
  destruct (stepModel_summary rnd cfg a m c Hd) as (_ & Hw & Hh & _).
  destruct (stepModel_seen rnd cfg a m c Hd) as (Hs & _ & Hs1).
  cbv zeta in *. apply seenInGrid_spec. intros k Hk.
  assert (Hg : inGridV m k.1 k.2 = true);
    [|by rewrite inGridV_spec, Hw, Hh, <- inGridV_spec].
  rewrite Hs in Hk. clear Hs.
  set (m1 := moveAgentV _ m) in *.
  unfold revealV in Hk. destruct (partialObs cfg).
  - cbn [fst m_seen m_with_seen] in Hk.
    apply (reveal_fold_elem rnd m1 (sensorNoise cfg)) in Hk as [Hk|[_ Hk]].
    + simpl in Hk. rewrite Hs1 in Hk. revert k Hk. by apply seenInGrid_spec.
    + subst m1. by rewrite moveAgentV_inGridV in Hk.
  - destruct (_ <? _); cbn [fst m_seen m_with_seen] in Hk.
    + apply elem_of_foldl_add in Hk as [Hk|Hk].
      * rewrite Hs1 in Hk. revert k Hk. by apply seenInGrid_spec.
      * apply elem_of_allCells in Hk. subst m1.
        by rewrite moveAgentV_inGridV in Hk.
    + rewrite Hs1 in Hk. revert k Hk. by apply seenInGrid_spec.
Qed.

(** *** The obstacles *)

Lemma manhattan_refl p : manhattan p p = 0.
Proof. unfold manhattan. lia. Qed.

Lemma stepModel_obstacles_from rnd cfg a m c :
  m_done m = false →
  ∃ m2 c2,
    m_obstacles (stepModel rnd cfg a m c).1
    = m_obstacles (driftObstaclesV rnd cfg m2 c2).1
    ∧ m_obstacles m2 = m_obstacles m ∧ m_tick m2 = m_tick m
    ∧ m_width m2 = m_width m ∧ m_height m2 = m_height m.
Proof.
  intros Hd. destruct (stepModel_form rnd cfg a m c Hd) as (Hf & _ & _ & H3).
  cbv zeta in *. rewrite Hf. cbn [m_obstacles accountV]. rewrite H3.
  eexists _, _. split; [done|]. simpl.
  by destruct (moveAgentV_cases (slipV rnd cfg a c).1 m) as [[_ ->]|[_ ->]].
Qed.

Lemma stepModel_obstacles_static rnd cfg a m c :
  dynamicObstacles cfg && (Z.rem (m_tick m) 3 =? 0) = false →
  m_obstacles (stepModel rnd cfg a m c).1 = m_obstacles m.
Proof.
  intros Hs. destruct (m_done m) eqn:Hd.
  { unfold stepModel. by rewrite Hd. }
  destruct (stepModel_obstacles_from rnd cfg a m c Hd)
    as (m2 & c2 & -> & Ho & Ht & _).
  unfold driftObstaclesV. by rewrite Ht, Hs.
Qed.

Lemma stepModel_obstacles_near rnd cfg a m c k' :
  (∀ k, k ∈ m_obstacles m → inGridV m k.1 k.2 = true) →
  k' ∈ m_obstacles (stepModel rnd cfg a m c).1 →
  ∃ k, k ∈ m_obstacles m ∧ manhattan (cellOf k) (cellOf k') ≤ 1.
Proof.
  intros Hin Hk'. destruct (m_done m) eqn:Hd.
  { unfold stepModel in Hk'. rewrite Hd in Hk'. exists k'.
    split; [done|]. by rewrite manhattan_refl. }
  destruct (stepModel_obstacles_from rnd cfg a m c Hd)
    as (m2 & c2 & Ho' & Ho & Ht & Hw & Hh).
  rewrite Ho' in Hk'. clear Ho'.
  destruct (driftObstaclesV_cases rnd cfg m2 c2)
    as [[Hs _]|[_ (mv & Hs & Hmv)]]; rewrite Hs in Hk'.
  - exists k'. simpl in Hk'. rewrite Ho in Hk'.
    split; [done|]. by rewrite manhattan_refl.
  - simpl in Hk'. apply Hmv in Hk' as (Hk' & _).
    apply driftAll_elem in Hk' as [Hk'|(k & d & Hk & Hdir & ->)].
    { by apply elem_of_nil in Hk'. }
    rewrite Ho in Hk. exists k. split; [done|].
    apply driftTarget_near; [|done].
    rewrite inGridV_spec, Hw, Hh, <- inGridV_spec. by apply Hin.
Qed.

(** *** The adversary *)

Lemma foldl_least {A} (f : A → Z) (l : list A) :
  ∀ b, let r := foldl (λ b c, if f c <? f b then c else b) b l in
       f r ≤ f b ∧ ∀ x, x ∈ l → f r ≤ f x.
Proof.
  induction l as [|y l IH]; intros b; simpl.
  { split; [lia|]. intros x Hx. by apply elem_of_nil in Hx. }
  destruct (Z.ltb_spec (f y) (f b)) as [Hlt|Hge].
  - destruct (IH y) as [H1 H2]. split; [lia|].
    intros x Hx. apply elem_of_cons in Hx as [->|Hx]; [done | by apply H2].
  - destruct (IH b) as [H1 H2]. split; [done|].
    intros x Hx. apply elem_of_cons in Hx as [->|Hx]; [lia | by apply H2].
Qed.

Lemma moveAdversaryV_chaser rnd cfg m c adv :
  adversaryType cfg = "chaser"%string → m_adversary m = Some adv →
  ∃ adv',
    (moveAdversaryV rnd cfg m c).1.1 = m_with_adversary adv' m
    ∧ (moveAdversaryV rnd cfg m c).2 = c
    ∧ ∀ p, p ∈ advCandidatesV m adv →
           manhattan adv' (m_agent m) ≤ manhattan p (m_agent m).
Proof.
  intros Hty Hadv. unfold moveAdversaryV. rewrite Hadv, Hty. simpl.
  rewrite !point_eta. eexists. split; [done|]. split; [done|].
  apply (foldl_least (λ p, manhattan p (m_agent m))).
Qed.

Lemma neighbour_near m p d :
  inGridV m (px p) (py p) = true → d ∈ DIRS →
  manhattan p (neighbour m p d) ≤ 1.
Proof.
  intros Hp Hd. apply inGridV_spec in Hp. pose proof (dir_unit d Hd).
  unfold manhattan, neighbour, clamp. simpl. lia.
Qed.

Lemma stepModel_adversary_from rnd cfg a m c :
  m_done m = false →
  ∃ m3 c3,
    m_adversary (stepModel rnd cfg a m c).1
    = m_adversary (moveAdversaryV rnd cfg m3 c3).1.1
    ∧ m_adversary m3 = m_adversary m
    ∧ m_agent m3 = m_agent (stepModel rnd cfg a m c).1
    ∧ m_obstacles m3 = m_obstacles (stepModel rnd cfg a m c).1
    ∧ m_width m3 = m_width m ∧ m_height m3 = m_height m.
Proof.
  intros Hd. destruct (stepModel_form rnd cfg a m c Hd) as (Hf & Hag & Ha & _).
  cbv zeta in *. rewrite Hf. cbn [m_adversary m_agent m_obstacles accountV].
  eexists _, _. split; [done|]. split; [done|]. split; [done|].
  split; [done|].
  destruct (driftObstaclesV_fields rnd cfg
    (revealV rnd cfg (moveAgentV (slipV rnd cfg a c).1 m)
       (slipV rnd cfg a c).2).1
    (revealV rnd cfg (moveAgentV (slipV rnd cfg a c).1 m)
       (slipV rnd cfg a c).2).2) as (_ & Hw3 & Hh3 & _).
  destruct (revealV_fields rnd cfg (moveAgentV (slipV rnd cfg a c).1 m)
              (slipV rnd cfg a c).2) as (_ & Hw2 & Hh2 & _).
  destruct (moveAgentV_fields (slipV rnd cfg a c).1 m) as (_ & Hw1 & Hh1 & _).
  cbv zeta in *. split; congruence.
Qed.

Lemma blockedV_ext m m' x y :
  m_width m' = m_width m → m_height m' = m_height m →
  m_obstacles m' = m_obstacles m → blockedV m' x y = blockedV m x y.
Proof. intros Hw Hh Ho. unfold blockedV. by rewrite Hw, Hh, Ho. Qed.

Lemma neighbour_ext m m' p d :
  m_width m' = m_width m → m_height m' = m_height m →
  neighbour m' p d = neighbour m p d.
Proof. intros Hw Hh. unfold neighbour. by rewrite Hw, Hh. Qed.

(** Where the adversary is after one tick. *)
Lemma stepModel_adversary_move rnd cfg a m c adv :
  m_done m = false → m_adversary m = Some adv →
  let m' := (stepModel rnd cfg a m c).1 in
  ∃ adv',
    m_adversary m' = Some adv'
    ∧ (adv' = adv
       ∨ ∃ d, d ∈ DIRS ∧ adv' = neighbour m adv d
              ∧ blockedV m' (px adv') (py adv') = false)
    ∧ ((∃ d, d ∈ DIRS
             ∧ blockedV m' (px (neighbour m adv d)) (py (neighbour m adv d))
               = false) →
       ∃ d, d ∈ DIRS ∧ adv' = neighbour m adv d
            ∧ blockedV m' (px adv') (py adv') = false)
    ∧ (adversaryType cfg = "chaser"%string →
       ∀ d, d ∈ DIRS →
         blockedV m' (px (neighbour m adv d)) (py (neighbour m adv d)) = false →
         manhattan adv' (m_agent m') ≤ manhattan (neighbour m adv d) (m_agent m')).
Proof.
  intros Hd Hadv m'.
  destruct (stepModel_adversary_from rnd cfg a m c Hd)
    as (m3 & c3 & Ha' & Ha3 & Hag3 & Ho3 & Hw3 & Hh3).
  fold m' in Ha', Hag3, Ho3.
  destruct (stepModel_summary rnd cfg a m c Hd) as (_ & Hw & Hh & _).
  fold m' in Hw, Hh.
  assert (Hb : ∀ x y, blockedV m' x y = blockedV m3 x y).
  { intros x y. apply blockedV_ext; congruence. }
  assert (Hn : ∀ p d, neighbour m3 p d = neighbour m p d).
  { intros p d. by apply neighbour_ext. }
  rewrite Hadv in Ha3.
  destruct (moveAdversaryV_cases rnd cfg m3 c3 adv Ha3)
    as (adv' & Hm4 & _ & Hcase & Hmust).
  exists adv'. rewrite Ha', Hm4. split; [done|]. split; [|split].
  - destruct Hcase as [->|Hc]; [by left | right].
    apply elem_of_advCandidatesV in Hc as [(d & Hdir & ->) Hbl].
    exists d. rewrite Hb, <- Hn. done.
  - intros (d & Hdir & Hbl).
    assert (Hc : neighbour m3 adv d ∈ advCandidatesV m3 adv).
    { apply elem_of_advCandidatesV. split; [by exists d|].
      by rewrite Hn, <- Hb. }
    assert (Hne : advCandidatesV m3 adv ≠ []).
    { intros Hnil. rewrite Hnil in Hc. by apply elem_of_nil in Hc. }
    apply Hmust in Hne.
    apply elem_of_advCandidatesV in Hne as [(d' & ? & ->) Hbl'].
    exists d'. by rewrite Hb, <- Hn.
  - intros Hty d Hdir Hbl.
    destruct (moveAdversaryV_chaser rnd cfg m3 c3 adv Hty Ha3)
      as (adv2 & Hm4' & _ & Hmin).
    rewrite Hm4 in Hm4'.
    assert (adv2 = adv') as -> by (by injection Hm4').
    rewrite <- Hag3, <- Hn. apply Hmin.
    apply elem_of_advCandidatesV. split; [by exists d|].
    by rewrite Hn, <- Hb.
Qed.

Lemma stepModel_adversary_none rnd cfg a m c :
  m_adversary m = None → m_adversary (stepModel rnd cfg a m c).1 = None.
Proof.
  intros Hadv. destruct (m_done m) eqn:Hd.
  { unfold stepModel. by rewrite Hd. }
  destruct (stepModel_adversary_from rnd cfg a m c Hd)
    as (m3 & c3 & -> & Ha3 & _).
  rewrite Hadv in Ha3. by rewrite moveAdversaryV_none.
Qed.

(** *** The agent *)

Lemma stepModel_agent_near rnd cfg a m c :
  a ∈ DIRS →
  let m' := (stepModel rnd cfg a m c).1 in
  manhattan (m_agent m) (m_agent m') ≤ 1
  ∧ (m_agent m' = m_agent m
     ∨ blockedV m (px (m_agent m')) (py (m_agent m')) = false).
Proof.
  intros Ha. destruct (m_done m) eqn:Hd.
  { unfold stepModel. rewrite Hd. simpl. rewrite manhattan_refl.
    split; [lia | by left]. }
  destruct (stepModel_summary rnd cfg a m c Hd) as (_ & _ & _ & _ & Hag & _).
  cbv zeta in *. rewrite Hag.
  split; [apply moveAgentV_near, slipV_DIRS, Ha|].
  destruct (moveAgentV_cases (slipV rnd cfg a c).1 m) as [[_ ->]|[Hb ->]];
    [by left | by right].
Qed.

Lemma stepModel_agent_no_slip rnd cfg a m c :
  m_done m = false → (slipProb cfg <= 0)%Q →
  let p := target (m_agent m) a in
  m_agent (stepModel rnd cfg a m c).1
  = if blockedV m (px p) (py p) then m_agent m else p.
Proof.
  intros Hd Hs.
  destruct (stepModel_summary rnd cfg a m c Hd) as (_ & _ & _ & _ & Hag & _).
  cbv zeta in *. rewrite Hag, slipV_none by done. cbn [fst].
  by destruct (moveAgentV_cases a m) as [[-> ->]|[-> ->]].
Qed.

(** ** From values to stores *)

Lemma stepsTo_stepModel e cfg a h rnd c lps lc t m :
  models h e m →
  stepsTo e cfg a (World h rnd c lps lc t) (stepModel rnd cfg a m c).1.
Proof.
  intros [E Hm].
  destruct (stepEnvironment_value rnd lps lc t h e E m cfg a c Hm)
    as (h' & E' & Hrun & Hm' & _).
  eexists. split; [exact Hrun|]. by exists E'.
Qed.

Lemma advancesTo_advanceAllV e cfg actions h rnd c lps lc t m :
  models h e m →
  advancesTo e cfg actions (World h rnd c lps lc t)
             (advanceAllV rnd cfg actions m c).1.
Proof.
  intros [E Hm].
  destruct (advanceAll_value rnd lps lc t cfg actions h e E m c Hm)
    as (h' & E' & Hrun & Hm').
  eexists. split; [exact Hrun|]. by exists E'.
Qed.



Lemma world_eta w :
  w = World (heap w) (rand w) (rcur w) (lapse w) (lcur w) (time w).
Proof. by destruct w. Qed.

Lemma stepsTo_value e cfg a w m :
  models (heap w) e m →
  stepsTo e cfg a w (stepModel (rand w) cfg a m (rcur w)).1.
Proof.
  intros Hm. rewrite (world_eta w) at 1. by apply stepsTo_stepModel.
Qed.

Lemma advancesTo_value e cfg actions w m :
  models (heap w) e m →
  advancesTo e cfg actions w (advanceAllV (rand w) cfg actions m (rcur w)).1.
Proof.
  intros Hm. rewrite (world_eta w) at 1. by apply advancesTo_advanceAllV.
Qed.

Lemma advanceAllV_seenInGrid rnd cfg actions :
  ∀ m c, seenInGrid m = true →
         seenInGrid (advanceAllV rnd cfg actions m c).1 = true.
Proof.
  induction actions as [|a actions IH]; intros m c Hb; simpl; [done|].
  apply IH. by apply stepModel_seenInGrid.
Qed.

Lemma models_seen_NoDup h e m : models h e m → NoDup (m_seen m).
Proof. intros [E Hm]. by destruct Hm. Qed.

(** ** The environment transition *)

(** X1.  Boundedness.  Along any sequence of actions the agent, the goal,
    the adversary and every obstacle stay within the grid, and no
    obstacle is on the cell of the agent, of the goal or of the
    adversary; the observed cells stay within the grid as well. *)
Theorem stepEnvironment_keeps_positions_bounded e cfg actions w m :
  models (heap w) e m → boundedV m = true →
  ∃ m', advancesTo e cfg actions w m'
        ∧ boundedV m' = true
        ∧ (seenInGrid m = true → seenInGrid m' = true).
Proof.
  intros Hm Hb. eexists. split; [by apply advancesTo_value|].
  split; [by apply advanceAllV_bounded | by apply advanceAllV_seenInGrid].
Qed.

Lemma stepEnvironment_keeps_positions_bounded_witness :
  ∃ m', advancesTo 6%nat chaseCfg [UP; RIGHT; UP; LEFT]
          (worldOf chaseModel mergeDraws noLapse) m'
        ∧ boundedV m' = true
        ∧ (seenInGrid chaseModel = true → seenInGrid m' = true).
Proof.
  apply (stepEnvironment_keeps_positions_bounded 6%nat chaseCfg
           [UP; RIGHT; UP; LEFT] (worldOf chaseModel mergeDraws noLapse)
           chaseModel).
  - apply (models_heapOf chaseModel); compute_done.
  - reflexivity.
Defined.

(** X2.  In one tick the agent moves by at most one cell, and only to a cell
    that was inside the grid and free of obstacles before the tick. *)
Theorem stepEnvironment_agent_moves_one_cell e cfg a w m :
  models (heap w) e m → a ∈ DIRS →
  ∃ m', stepsTo e cfg a w m'
        ∧ manhattan (m_agent m) (m_agent m') ≤ 1
        ∧ (m_agent m' = m_agent m
           ∨ blockedV m (px (m_agent m')) (py (m_agent m')) = false).
Proof.
  intros Hm Ha. eexists. split; [by apply stepsTo_value|].
  by apply stepModel_agent_near.
Qed.

Lemma stepEnvironment_agent_moves_one_cell_witness :
  ∃ m', stepsTo 6%nat chaseCfg UP (worldOf chaseModel mergeDraws noLapse) m'
        ∧ manhattan (m_agent chaseModel) (m_agent m') ≤ 1
        ∧ (m_agent m' = m_agent chaseModel
           ∨ blockedV chaseModel (px (m_agent m')) (py (m_agent m')) = false).
Proof.
  apply (stepEnvironment_agent_moves_one_cell 6%nat chaseCfg UP
           (worldOf chaseModel mergeDraws noLapse) chaseModel).
  - apply (models_heapOf chaseModel); compute_done.
  - unfold DIRS. apply list_elem_of_here.
Defined.

(** X3.  Without slip the requested action is the one executed: the agent
    ends on the cell the action leads to, or stays where it is when
    that cell is outside the grid or holds an obstacle. *)
Theorem stepEnvironment_without_slip e cfg a w m :
  models (heap w) e m → m_done m = false → (slipProb cfg <= 0)%Q →
  ∃ m', stepsTo e cfg a w m'
        ∧ m_agent m'
          = (if blockedV m (px (target (m_agent m) a))
                           (py (target (m_agent m) a))
             then m_agent m else target (m_agent m) a).
Proof.
  intros Hm Hd Hs. eexists. split; [by apply stepsTo_value|].
  by apply stepModel_agent_no_slip.
Qed.

Lemma stepEnvironment_without_slip_witness :
  ∃ m', stepsTo 5%nat (scenarioCfg true 3) LEFT
          (worldOf scenarioModel halfDraws noLapse) m'
        ∧ m_agent m'
          = (if blockedV scenarioModel
                  (px (target (m_agent scenarioModel) LEFT))
                  (py (target (m_agent scenarioModel) LEFT))
             then m_agent scenarioModel
             else target (m_agent scenarioModel) LEFT).
Proof.
  apply (stepEnvironment_without_slip 5%nat (scenarioCfg true 3) LEFT
           (worldOf scenarioModel halfDraws noLapse) scenarioModel).
  - apply (models_heapOf scenarioModel); compute_done.
  - reflexivity.
  - discriminate.
Defined.

(** X4.  A terminal model is frozen: whatever actions are applied, nothing
    is written, and no random number is drawn. *)
Theorem stepEnvironment_terminal_is_frozen e cfg actions w m :
  models (heap w) e m → m_done m = true →
  advanceAll e cfg actions w = Some (tt, w).
Proof.
  intros [E Hm] Hd. unfold advanceAll.
  destruct w as [h rnd c lps lc t]. simpl in Hm.
  pose proof (ma_env _ _ _ _ Hm) as He.
  pose proof (ma_done _ _ _ _ Hm) as HdE. rewrite Hd in HdE.
  assert (Hstep : ∀ a, stepEnvironment e cfg a (World h rnd c lps lc t)
                       = Some (e, World h rnd c lps lc t)).
  { intros a. unfold stepEnvironment.
    erewrite bind_run by (by apply getEnv_run). by rewrite HdE. }
  induction actions as [|a actions IH]; [done|].
  cbn [forEach]. erewrite bind_run; [exact IH|].
  erewrite bind_run; [|apply Hstep]. done.
Qed.

Lemma stepEnvironment_terminal_is_frozen_witness :
  advanceAll 5%nat DEFAULTS [UP; LEFT; DOWN]
    (worldOf finishedModel halfDraws noLapse)
  = Some (tt, worldOf finishedModel halfDraws noLapse).
Proof.
  apply (stepEnvironment_terminal_is_frozen 5%nat DEFAULTS [UP; LEFT; DOWN]
           (worldOf finishedModel halfDraws noLapse) finishedModel).
  - apply (models_heapOf finishedModel); compute_done.
  - reflexivity.
Defined.

(** X5.  The bookkeeping of progress.  The tick is a double, and
    [env.tick += 1] adds exactly one when the tick lies between -2^53
    and 2^53 - 1.  One tick of a model that is not terminal and whose
    tick lies in that range increases the tick by exactly one and keeps
    the size of the grid and the goal; the best distance becomes the
    smaller of its old value and the distance of the agent from the goal
    after the move, and the tick of the last improvement is set to the
    new tick exactly when that distance is smaller than the old best.
    So the tick of the last improvement never runs ahead of the tick,
    and the best distance drops by at most one per tick. *)
Theorem stepEnvironment_tick_and_progress e cfg a w m :
  models (heap w) e m → m_done m = false →
  - 2 ^ 53 ≤ m_tick m < 2 ^ 53 →
  ∃ m', stepsTo e cfg a w m'
    ∧ m_tick m' = m_tick m + 1
    ∧ m_width m' = m_width m ∧ m_height m' = m_height m
    ∧ m_goal m' = m_goal m
    ∧ m_bestDist m'
      = Z.min (m_bestDist m) (manhattan (m_agent m') (m_goal m'))
    ∧ m_lastImprovedTick m'
      = (if manhattan (m_agent m') (m_goal m') <? m_bestDist m
         then m_tick m' else m_lastImprovedTick m)
    ∧ (m_lastImprovedTick m ≤ m_tick m → m_lastImprovedTick m' ≤ m_tick m')
    ∧ (a ∈ DIRS → m_bestDist m ≤ manhattan (m_agent m) (m_goal m) →
       m_bestDist m - 1 ≤ m_bestDist m').
Proof.
  intros Hm Hd _. eexists. split; [by apply stepsTo_value|].
  destruct (stepModel_summary (rand w) cfg a m (rcur w) Hd)
    as (Ht & Hw & Hh & Hg & _ & _ & _ & Hb & Hl & _).
  cbv zeta in *.
  split; [done|]. split; [done|]. split; [done|]. split; [done|].
  split; [done|]. split; [done|]. split.
  - intros Hle. rewrite Hl. destruct (_ <? _); lia.
  - intros Ha Hbest.
    destruct (stepModel_agent_near (rand w) cfg a m (rcur w) Ha) as [Hn _].
    cbv zeta in Hn. rewrite Hb, Hg. revert Hn Hbest. unfold manhattan. lia.
Qed.

Lemma stepEnvironment_tick_and_progress_witness :
  ∃ m', stepsTo 6%nat chaseCfg UP (worldOf chaseModel mergeDraws noLapse) m'
    ∧ m_tick m' = m_tick chaseModel + 1
    ∧ m_width m' = m_width chaseModel ∧ m_height m' = m_height chaseModel
    ∧ m_goal m' = m_goal chaseModel
    ∧ m_bestDist m'
      = Z.min (m_bestDist chaseModel) (manhattan (m_agent m') (m_goal m'))
    ∧ m_lastImprovedTick m'
      = (if manhattan (m_agent m') (m_goal m') <? m_bestDist chaseModel
         then m_tick m' else m_lastImprovedTick chaseModel)
    ∧ (m_lastImprovedTick chaseModel ≤ m_tick chaseModel →
       m_lastImprovedTick m' ≤ m_tick m')
    ∧ (UP ∈ DIRS →
       m_bestDist chaseModel
       ≤ manhattan (m_agent chaseModel) (m_goal chaseModel) →
       m_bestDist chaseModel - 1 ≤ m_bestDist m').
Proof.
  apply (stepEnvironment_tick_and_progress 6%nat chaseCfg UP
           (worldOf chaseModel mergeDraws noLapse) chaseModel).
  - apply (models_heapOf chaseModel); compute_done.
  - reflexivity.
  - simpl; lia.
Defined.

Lemma tickReward_bounds m :
  (- (505 # 100) <= tickReward m)%Q ∧ (tickReward m <= 995 # 100)%Q.
Proof.
  unfold tickReward.
  destruct (samePoint (m_agent m) (m_goal m));
    destruct (m_adversary m) as [adv|];
    try destruct (samePoint adv (m_agent m)); split; by compute.
Qed.

(** X6.  The reward and the end of the episode.  One tick of a model that is
    not terminal adds to the reward the step cost -0.05, plus 10 when
    the agent ends on the goal, minus 5 when the adversary ends on the
    agent; so the reward changes by at least -5.05 and at most 9.95.
    The model becomes terminal exactly when the task is episodic and the
    agent ends on the goal; a maintenance task never ends. *)
Theorem stepEnvironment_reward_and_termination e cfg a w m :
  models (heap w) e m → m_done m = false →
  ∃ m', stepsTo e cfg a w m'
    ∧ (m_reward m' == m_reward m + tickReward m')%Q
    ∧ (m_reward m - (505 # 100) <= m_reward m')%Q
    ∧ (m_reward m' <= m_reward m + (995 # 100))%Q
    ∧ m_done m' = episodic cfg && samePoint (m_agent m') (m_goal m').
Proof.
  intros Hm Hd. eexists. split; [by apply stepsTo_value|].
  destruct (stepModel_summary (rand w) cfg a m (rcur w) Hd)
    as (_ & _ & _ & _ & _ & Hr & Hdone & _).
  cbv zeta in *.
  destruct (tickReward_bounds (stepModel (rand w) cfg a m (rcur w)).1)
    as [Hlo Hhi].
  split; [done|]. split; [|split; [|done]]; rewrite Hr.
  - unfold Qminus. by apply Qplus_le_r.
  - by apply Qplus_le_r.
Qed.

Lemma stepEnvironment_reward_and_termination_witness :
  ∃ m', stepsTo 5%nat (scenarioCfg false 3) UP
          (worldOf goalAdjacentModel halfDraws noLapse) m'
    ∧ (m_reward m' == m_reward goalAdjacentModel + tickReward m')%Q
    ∧ (m_reward goalAdjacentModel - (505 # 100) <= m_reward m')%Q
    ∧ (m_reward m' <= m_reward goalAdjacentModel + (995 # 100))%Q
    ∧ m_done m'
      = episodic (scenarioCfg false 3) && samePoint (m_agent m') (m_goal m').
Proof.
  apply (stepEnvironment_reward_and_termination 5%nat (scenarioCfg false 3) UP
           (worldOf goalAdjacentModel halfDraws noLapse) goalAdjacentModel).
  - apply (models_heapOf goalAdjacentModel); compute_done.
  - reflexivity.
Defined.

Lemma last_app_singleton {A} (l : list A) x : last (l ++ [x]) = Some x.
Proof. by rewrite last_snoc. Qed.

Lemma length_tail_pred {A} (l : list A) : length (tail l) = pred (length l).
Proof. by destruct l. Qed.

Lemma last_tail {A} (l : list A) :
  (2 ≤ length l)%nat → last (tail l) = last l.
Proof. destruct l as [|x [|y l]]; simpl; [lia | lia | done]. Qed.

(** X7.  The recent positions.  One tick of a model that is not terminal
    appends the cell of the agent to [recent] and drops the oldest entry
    when there are more than 16: the newest entry is always the cell
    the agent is on, and a history of at most 16 entries stays so. *)
Theorem stepEnvironment_recent_history e cfg a w m :
  models (heap w) e m → m_done m = false →
  ∃ m', stepsTo e cfg a w m'
    ∧ m_recent m'
      = (let rc := m_recent m ++ [keyOf (m_agent m')] in
         if 16 <? Z.of_nat (length rc) then tail rc else rc)
    ∧ last (m_recent m') = Some (keyOf (m_agent m'))
    ∧ ((length (m_recent m) ≤ 16)%nat → (length (m_recent m') ≤ 16)%nat).
Proof.
  intros Hm Hd. eexists. split; [by apply stepsTo_value|].
  destruct (stepModel_summary (rand w) cfg a m (rcur w) Hd)
    as (_ & _ & _ & _ & _ & _ & _ & _ & _ & Hrc).
  cbv zeta in *. split; [done|]. rewrite Hrc.
  set (k := keyOf _). clearbody k. clear Hrc.
  destruct (Z.ltb_spec 16 (Z.of_nat (length (m_recent m ++ [k]))))
    as [Hlt|Hge].
  - split.
    + rewrite last_tail by lia. apply last_app_singleton.
    + intros Hle. rewrite length_tail_pred, length_app. simpl. lia.
  - split; [apply last_app_singleton | lia].
Qed.

Lemma stepEnvironment_recent_history_witness :
  ∃ m', stepsTo 5%nat (scenarioCfg true 3) UP
          (worldOf ababModel halfDraws noLapse) m'
    ∧ m_recent m'
      = (let rc := m_recent ababModel ++ [keyOf (m_agent m')] in
         if 16 <? Z.of_nat (length rc) then tail rc else rc)
    ∧ last (m_recent m') = Some (keyOf (m_agent m'))
    ∧ ((length (m_recent ababModel) ≤ 16)%nat →
       (length (m_recent m') ≤ 16)%nat).
Proof.
  apply (stepEnvironment_recent_history 5%nat (scenarioCfg true 3) UP
           (worldOf ababModel halfDraws noLapse) ababModel).
  - apply (models_heapOf ababModel); compute_done.
  - reflexivity.
Defined.

(** X8.  The partial reveal.  With partial observability, the cells that a
    tick adds to [seen] lie within the grid and within [obsRadius] of
    the agent's new cell in both coordinates; without sensor noise every
    such cell is observed after the tick. *)
Theorem stepEnvironment_partial_reveal e cfg a w m :
  models (heap w) e m → m_done m = false → partialObs cfg = true →
  ∃ m', stepsTo e cfg a w m'
    ∧ (∀ x y, (x, y) ∈ m_seen m' →
         (x, y) ∈ m_seen m
         ∨ (inGridV m x y = true
            ∧ Z.abs (x - px (m_agent m')) ≤ obsRadius cfg
            ∧ Z.abs (y - py (m_agent m')) ≤ obsRadius cfg))
    ∧ ((sensorNoise cfg <= 0)%Q →
       ∀ x y, inGridV m x y = true →
         Z.abs (x - px (m_agent m')) ≤ obsRadius cfg →
         Z.abs (y - py (m_agent m')) ≤ obsRadius cfg →
         (x, y) ∈ m_seen m').
Proof.
  intros Hm Hd Hp. eexists. split; [by apply stepsTo_value|]. split.
  - intros x y Hxy.
    destruct (stepModel_seen_partial (rand w) cfg a m (rcur w) (x, y) Hd Hp)
      as [H1 _].
    apply H1 in Hxy as [?|[Hw ?]]; [by left | right].
    apply elem_of_window in Hw. by destruct Hw.
  - intros Hn x y Hg Hx Hy.
    destruct (stepModel_seen_partial (rand w) cfg a m (rcur w) (x, y) Hd Hp)
      as [_ H2].
    apply H2; [done| |done]. by apply elem_of_window.
Qed.

Lemma stepEnvironment_partial_reveal_witness :
  ∃ m', stepsTo 5%nat (scenarioCfg true 1) RIGHT
          (worldOf scenarioModel halfDraws noLapse) m'
    ∧ (∀ x y, (x, y) ∈ m_seen m' →
         (x, y) ∈ m_seen scenarioModel
         ∨ (inGridV scenarioModel x y = true
            ∧ Z.abs (x - px (m_agent m')) ≤ obsRadius (scenarioCfg true 1)
            ∧ Z.abs (y - py (m_agent m')) ≤ obsRadius (scenarioCfg true 1)))
    ∧ ((sensorNoise (scenarioCfg true 1) <= 0)%Q →
       ∀ x y, inGridV scenarioModel x y = true →
         Z.abs (x - px (m_agent m')) ≤ obsRadius (scenarioCfg true 1) →
         Z.abs (y - py (m_agent m')) ≤ obsRadius (scenarioCfg true 1) →
         (x, y) ∈ m_seen m').
Proof.
  apply (stepEnvironment_partial_reveal 5%nat (scenarioCfg true 1) RIGHT
           (worldOf scenarioModel halfDraws noLapse) scenarioModel).
  - apply (models_heapOf scenarioModel); compute_done.
  - reflexivity.
  - reflexivity.
Defined.

(** X9.  The full reveal.  With full observability, and the observed cells
    inside the grid, every cell of the grid is observed after one tick;
    and on a model in which every cell of the grid is observed a tick
    leaves [seen] exactly as it is. *)
Theorem stepEnvironment_full_reveal e cfg a w m :
  models (heap w) e m → m_done m = false → partialObs cfg = false →
  seenInGrid m = true →
  ∃ m', stepsTo e cfg a w m'
    ∧ (∀ x y, inGridV m x y = true → (x, y) ∈ m_seen m')
    ∧ ((∀ x y, inGridV m x y = true → (x, y) ∈ m_seen m) →
       m_seen m' = m_seen m).
Proof.
  intros Hm Hd Hp Hin. eexists. split; [by apply stepsTo_value|]. split.
  - intros x y Hg.
    apply (stepModel_seen_full (rand w) cfg a m (rcur w)); try done.
    by eapply models_seen_NoDup.
  - intros Hall. apply stepModel_seen_idempotent; [done|].
    intros [x y] Hk. by apply Hall.
Qed.

Lemma stepEnvironment_full_reveal_witness :
  ∃ m', stepsTo 5%nat (scenarioCfg false 3) RIGHT
          (worldOf scenarioModel halfDraws noLapse) m'
    ∧ (∀ x y, inGridV scenarioModel x y = true → (x, y) ∈ m_seen m')
    ∧ ((∀ x y, inGridV scenarioModel x y = true →
               (x, y) ∈ m_seen scenarioModel) →
       m_seen m' = m_seen scenarioModel).
Proof.
  apply (stepEnvironment_full_reveal 5%nat (scenarioCfg false 3) RIGHT
           (worldOf scenarioModel halfDraws noLapse) scenarioModel).
  - apply (models_heapOf scenarioModel); compute_done.
  - reflexivity.
  - reflexivity.
  - reflexivity.
Defined.

(** X10.  The drift of the obstacles.  On a bounded model every obstacle
    after a tick is on the cell of an obstacle before the tick or on a
    cell next to one: an obstacle moves by at most one cell.  When
    dynamic obstacles are disabled, or the tick is not a multiple of 3,
    the obstacles are left as they are. *)
Theorem stepEnvironment_obstacles_drift_one_cell e cfg a w m :
  models (heap w) e m → boundedV m = true →
  ∃ m', stepsTo e cfg a w m'
    ∧ (∀ k', k' ∈ m_obstacles m' →
         ∃ k, k ∈ m_obstacles m ∧ manhattan (cellOf k) (cellOf k') ≤ 1)
    ∧ (dynamicObstacles cfg && (Z.rem (m_tick m) 3 =? 0) = false →
       m_obstacles m' = m_obstacles m).
Proof.
  intros Hm Hb. eexists. split; [by apply stepsTo_value|]. split.
  - intros k' Hk'.
    apply (stepModel_obstacles_near (rand w) cfg a m (rcur w)); [|done].
    by apply boundedV_spec in Hb as (_ & _ & _ & Hobs & _).
  - apply stepModel_obstacles_static.
Qed.

Lemma stepEnvironment_obstacles_drift_one_cell_witness :
  ∃ m', stepsTo 5%nat (driftCfg false) RIGHT
          (worldOf mergeModel mergeDraws noLapse) m'
    ∧ (∀ k', k' ∈ m_obstacles m' →
         ∃ k, k ∈ m_obstacles mergeModel
              ∧ manhattan (cellOf k) (cellOf k') ≤ 1)
    ∧ (dynamicObstacles (driftCfg false)
       && (Z.rem (m_tick mergeModel) 3 =? 0) = false →
       m_obstacles m' = m_obstacles mergeModel).
Proof.
  apply (stepEnvironment_obstacles_drift_one_cell 5%nat (driftCfg false) RIGHT
           (worldOf mergeModel mergeDraws noLapse) mergeModel).
  - apply (models_heapOf mergeModel); compute_done.
  - reflexivity.
Defined.

(** X11.  The adversary.  In one tick of a bounded model the adversary moves
    by at most one cell: it goes to a neighbour cell (clamped into the
    grid) that is inside the grid and free of obstacles after the drift,
    and stays where it is only when there is no such cell or when that
    cell is its own.  A chaser ends on a cell that is at least as close
    to the agent as every such neighbour. *)
Theorem stepEnvironment_adversary_move e cfg a w m adv :
  models (heap w) e m → m_done m = false → boundedV m = true →
  m_adversary m = Some adv →
  ∃ m' adv', stepsTo e cfg a w m'
    ∧ m_adversary m' = Some adv'
    ∧ manhattan adv adv' ≤ 1
    ∧ (adv' = adv
       ∨ ∃ d, d ∈ DIRS ∧ adv' = neighbour m adv d
              ∧ blockedV m' (px adv') (py adv') = false)
    ∧ ((∃ d, d ∈ DIRS
             ∧ blockedV m' (px (neighbour m adv d)) (py (neighbour m adv d))
               = false) →
       ∃ d, d ∈ DIRS ∧ adv' = neighbour m adv d
            ∧ blockedV m' (px adv') (py adv') = false)
    ∧ (adversaryType cfg = "chaser"%string →
       ∀ d, d ∈ DIRS →
         blockedV m' (px (neighbour m adv d)) (py (neighbour m adv d)) = false →
         manhattan adv' (m_agent m')
         ≤ manhattan (neighbour m adv d) (m_agent m')).
Proof.
  intros Hm Hd Hb Hadv.
  destruct (stepModel_adversary_move (rand w) cfg a m (rcur w) adv Hd Hadv)
    as (adv' & Ha' & Hcase & Hmust & Hchase).
  eexists _, adv'. split; [by apply stepsTo_value|].
  split; [done|]. split; [|done].
  apply boundedV_spec in Hb as (_ & _ & Ha & _).
  destruct (Ha adv Hadv) as [Hin _].
  destruct Hcase as [->|(d & Hdir & -> & _)].
  - rewrite manhattan_refl. lia.
  - by apply neighbour_near.
Qed.

Lemma stepEnvironment_adversary_move_witness :
  ∃ m' adv', stepsTo 6%nat chaseCfg UP
               (worldOf chaseModel mergeDraws noLapse) m'
    ∧ m_adversary m' = Some adv'
    ∧ manhattan (Pt 3 3) adv' ≤ 1
    ∧ (adv' = Pt 3 3
       ∨ ∃ d, d ∈ DIRS ∧ adv' = neighbour chaseModel (Pt 3 3) d
              ∧ blockedV m' (px adv') (py adv') = false)
    ∧ ((∃ d, d ∈ DIRS
             ∧ blockedV m' (px (neighbour chaseModel (Pt 3 3) d))
                           (py (neighbour chaseModel (Pt 3 3) d))
               = false) →
       ∃ d, d ∈ DIRS ∧ adv' = neighbour chaseModel (Pt 3 3) d
            ∧ blockedV m' (px adv') (py adv') = false)
    ∧ (adversaryType chaseCfg = "chaser"%string →
       ∀ d, d ∈ DIRS →
         blockedV m' (px (neighbour chaseModel (Pt 3 3) d))
                     (py (neighbour chaseModel (Pt 3 3) d)) = false →
         manhattan adv' (m_agent m')
         ≤ manhattan (neighbour chaseModel (Pt 3 3) d) (m_agent m')).
Proof.
  apply (stepEnvironment_adversary_move 6%nat chaseCfg UP
           (worldOf chaseModel mergeDraws noLapse) chaseModel (Pt 3 3)).
  - apply (models_heapOf chaseModel); compute_done.
  - reflexivity.
  - reflexivity.
  - reflexivity.
Defined.

Lemma advanceAllV_ticks rnd cfg actions :
  ∀ m c,
    let m' := (advanceAllV rnd cfg actions m c).1 in
    m_tick m ≤ m_tick m' ≤ m_tick m + Z.of_nat (length actions)
    ∧ (m_done m' = false →
       m_done m = false ∧ m_tick m' = m_tick m + Z.of_nat (length actions))
    ∧ (episodic cfg = false → m_done m = false → m_done m' = false).
Proof.
  induction actions as [|a actions IH]; intros m c.
  { simpl. split; [lia|]. split; [|done]. intros ?. split; [done | lia]. }
  cbn [advanceAllV length]. rewrite Nat2Z.inj_succ.
  destruct (IH (stepModel rnd cfg a m c).1 (stepModel rnd cfg a m c).2)
    as (Ht & Hrun & Hnever).
  cbv zeta in *. destruct (m_done m) eqn:Hd.
  - assert (Hsame : (stepModel rnd cfg a m c).1 = m)
      by (unfold stepModel; by rewrite Hd).
    rewrite Hsame in Ht, Hrun, Hnever |- *.
    split; [lia|]. split; [|done].
    intros Hd'. apply Hrun in Hd' as [Hd' _]. congruence.
  - destruct (stepModel_summary rnd cfg a m c Hd)
      as (Htk & _ & _ & _ & _ & _ & Hdone & _).
    cbv zeta in *. split; [lia|]. split.
    + intros Hd'. apply Hrun in Hd' as [_ Hd']. split; [done | lia].
    + intros Hepi _. apply Hnever; [done|]. by rewrite Hdone, Hepi.
Qed.

(** X12.  The tick counts the transitions applied.  The tick is a
    double, which counts exactly between -2^53 and 2^53.  Along a
    sequence of actions that keeps the tick in that range, the tick
    grows by at most the number of actions; a run that does not end the
    episode grows it by exactly that number; and a maintenance task (not
    episodic) never ends. *)
Theorem stepEnvironment_tick_counts_transitions e cfg actions w m :
  models (heap w) e m →
  - 2 ^ 53 ≤ m_tick m → m_tick m + Z.of_nat (length actions) ≤ 2 ^ 53 →
  ∃ m', advancesTo e cfg actions w m'
    ∧ m_tick m ≤ m_tick m' ≤ m_tick m + Z.of_nat (length actions)
    ∧ (m_done m' = false →
       m_done m = false ∧ m_tick m' = m_tick m + Z.of_nat (length actions))
    ∧ (episodic cfg = false → m_done m = false → m_done m' = false).
Proof.
  intros Hm _ _. eexists. split; [by apply advancesTo_value|].
  apply advanceAllV_ticks.
Qed.

Lemma stepEnvironment_tick_counts_transitions_witness :
  ∃ m', advancesTo 5%nat (scenarioCfg true 3) scenarioActions
          (worldOf scenarioModel halfDraws noLapse) m'
    ∧ m_tick scenarioModel ≤ m_tick m'
      ≤ m_tick scenarioModel + Z.of_nat (length scenarioActions)
    ∧ (m_done m' = false →
       m_done scenarioModel = false
       ∧ m_tick m' = m_tick scenarioModel + Z.of_nat (length scenarioActions))
    ∧ (episodic (scenarioCfg true 3) = false → m_done scenarioModel = false →
       m_done m' = false).
Proof.
  apply (stepEnvironment_tick_counts_transitions 5%nat (scenarioCfg true 3)
           scenarioActions (worldOf scenarioModel halfDraws noLapse)
           scenarioModel).
  - apply (models_heapOf scenarioModel); compute_done.
  - simpl; lia.
  - simpl; lia.
Defined.

(** X13.  The slip.  The direction that is executed is the requested one, or
    (after a second draw) another direction of [DIRS], never the
    requested one again; nothing is written.  With a slip probability of
    0 or less the requested direction is always executed, with 1 or more
    never. *)
Theorem slip_picks_another_direction cfg action w :
  ∃ d w',
    slip cfg action w = Some (d, w')
    ∧ heap w' = heap w
    ∧ ((d = action ∧ rcur w' = S (rcur w))
       ∨ (d ∈ DIRS ∧ name d ≠ name action ∧ rcur w' = S (S (rcur w))))
    ∧ ((slipProb cfg <= 0)%Q → d = action)
    ∧ ((1 <= slipProb cfg)%Q → d ∈ DIRS ∧ name d ≠ name action).
Proof.
  destruct w as [h rnd c lps lc t].
  eexists _, _. split; [apply slip_run|]. cbn [heap rcur].
  split; [done|]. unfold slipV.
  destruct (pickAt_Some rnd (S c) (filter (λ d, name d ≠ name action) DIRS)
              (slip_filter_nonempty action)) as (d & Hd & Hin).
  apply list_elem_of_filter in Hin as [Hne Hin].
  destruct (Qltb (draw_val (rnd c)) (slipProb cfg)) eqn:Hs; cbn [fst snd].
  - rewrite Hd. simpl. split; [by right|]. split; [|done].
    intros Hle. by rewrite Qltb_draw_nonpos in Hs.
  - split; [by left|]. split; [done|]. intros Hge. exfalso.
    apply not_true_iff_false in Hs. apply Hs, Qltb_lt.
    eapply Qlt_le_trans; [apply draw_val_lt_1 | exact Hge].
Qed.



(** ** The read-only helpers *)

(** X14.  [isBlocked] answers without writing anything: a cell is free
    exactly when it lies within the grid and holds no obstacle. *)
Theorem isBlocked_free_cells e x y w m :
  models (heap w) e m →
  ∃ b, isBlocked e x y w = Some (b, w)
       ∧ (b = false ↔ 0 ≤ x < m_width m ∧ 0 ≤ y < m_height m
                      ∧ (x, y) ∉ m_obstacles m).
Proof.
  intros [E Hm]. destruct w as [h rnd c lps lc t]. simpl in Hm.
  exists (blockedV m x y). split.
  - by apply (isBlocked_run rnd lps lc t h e E m).
  - rewrite blockedV_false, inGridV_spec. tauto.
Qed.

Lemma isBlocked_free_cells_witness :
  ∃ b, isBlocked 5%nat 3 1 (worldOf mergeModel halfDraws noLapse)
       = Some (b, worldOf mergeModel halfDraws noLapse)
       ∧ (b = false ↔ 0 ≤ 3 < m_width mergeModel ∧ 0 ≤ 1 < m_height mergeModel
                      ∧ (3, 1) ∉ m_obstacles mergeModel).
Proof.
  apply (isBlocked_free_cells 5%nat 3 1 (worldOf mergeModel halfDraws noLapse)
           mergeModel).
  apply (models_heapOf mergeModel); compute_done.
Defined.

(** *** The information heuristic *)

Lemma filter_none {A} (P : A → Prop) `{∀ x, Decision (P x)} (l : list A) :
  (∀ x, x ∈ l → ¬ P x) → filter P l = [].
Proof.
  induction l as [|x l IH]; intros Hl; [done|].
  rewrite filter_cons, decide_False by (apply Hl, list_elem_of_here).
  apply IH. intros y Hy. by apply Hl, list_elem_of_further.
Qed.

Lemma unseenStep_fold m (l : list key) :
  ∀ c, foldl (unseenStep m) c l
       = c + Z.of_nat (length (filter
                         (λ k, inGridV m k.1 k.2 = true ∧ k ∉ m_seen m) l)).
Proof.
  induction l as [|k l IH]; intros c; simpl.
  { lia. }
  rewrite IH, filter_cons. unfold unseenStep.
  destruct (inGridV m k.1 k.2) eqn:Hg.
  - destruct (JSSet.has k (m_seen m)) eqn:Hs.
    + apply has_true in Hs. rewrite decide_False by tauto. done.
    + apply has_false in Hs. rewrite decide_True by done. cbn [length].
      match goal with
      | |- _ + 1 + Z.of_nat ?a = _ + Z.of_nat (S ?b) => change b with a
      end.
      lia.
  - rewrite decide_False; [done|]. by intros [? _].
Qed.

Lemma unseenAroundFromV_count pos m cfg :
  unseenAroundFromV pos m cfg
  = Z.of_nat (length (unseenCells pos m (obsRadius cfg))).
Proof. unfold unseenAroundFromV, unseenCells. by rewrite unseenStep_fold. Qed.

Lemma length_grid {A} (g : Z → Z → A) (ys xs : list Z) :
  length (y ← ys; x ← xs; [g x y]) = (length ys * length xs)%nat.
Proof.
  assert (Hrow : ∀ y, length (x ← xs; [g x y]) = length xs).
  { intros y. induction xs as [|x xs IHx]; [done|]. csimpl. by rewrite IHx. }
  induction ys as [|y ys IH]; [done|]. csimpl.
  rewrite length_app, IH, Hrow. done.
Qed.

Lemma length_window pos r :
  Z.of_nat (length (window pos r)) = Z.max 0 (2 * r + 1) * Z.max 0 (2 * r + 1).
Proof.
  unfold window.
  rewrite (length_grid (λ dx dy, (px pos + dx, py pos + dy))).
  unfold range. rewrite length_seqZ. nia.
Qed.

(** X15.  [unseenAroundFrom] counts the cells of the window around [pos] that
    lie within the grid and are not observed: the result is between 0
    and the [(2r+1)²] cells of the window, it is 0 when every cell of
    the grid is observed, and it reads the model without writing. *)
Theorem unseenAroundFrom_counts_unseen_cells pos e cfg w m :
  models (heap w) e m →
  ∃ n, unseenAroundFrom pos e cfg w = Some (n, w)
       ∧ n = Z.of_nat (length (unseenCells pos m (obsRadius cfg)))
       ∧ 0 ≤ n
       ∧ (0 ≤ obsRadius cfg → n ≤ (2 * obsRadius cfg + 1) ^ 2)
       ∧ ((∀ x y, inGridV m x y = true → (x, y) ∈ m_seen m) → n = 0).
Proof.
  intros [E Hm]. destruct w as [h rnd c lps lc t]. simpl in Hm.
  exists (unseenAroundFromV pos m cfg). split.
  { by apply (unseenAroundFrom_run rnd lps lc t h e E m). }
  rewrite unseenAroundFromV_count. split; [done|]. split; [lia|]. split.
  - intros Hr. unfold unseenCells.
    pose proof (length_filter
      (λ k, inGridV m k.1 k.2 = true ∧ k ∉ m_seen m)
      (window pos (obsRadius cfg))) as Hle.
    pose proof (length_window pos (obsRadius cfg)) as Hw.
    rewrite Z.max_r in Hw by lia. rewrite Z.pow_2_r, <- Hw.
    apply Nat2Z.inj_le. exact Hle.
  - intros Hall. unfold unseenCells.
    assert (Hnil : filter (λ k, inGridV m k.1 k.2 = true ∧ k ∉ m_seen m)
                     (window pos (obsRadius cfg)) = []); [|by rewrite Hnil].
    apply filter_none. intros [x y] _ [Hg Hs]. apply Hs, Hall, Hg.
Qed.

Lemma unseenAroundFrom_counts_unseen_cells_witness :
  ∃ n, unseenAroundFrom (Pt 1 4) 5%nat DEFAULTS
         (worldOf scenarioModel halfDraws noLapse)
       = Some (n, worldOf scenarioModel halfDraws noLapse)
       ∧ n = Z.of_nat (length (unseenCells (Pt 1 4) scenarioModel
                                 (obsRadius DEFAULTS)))
       ∧ 0 ≤ n
       ∧ (0 ≤ obsRadius DEFAULTS → n ≤ (2 * obsRadius DEFAULTS + 1) ^ 2)
       ∧ ((∀ x y, inGridV scenarioModel x y = true →
                  (x, y) ∈ m_seen scenarioModel) → n = 0).
Proof.
  apply (unseenAroundFrom_counts_unseen_cells (Pt 1 4) 5%nat DEFAULTS
           (worldOf scenarioModel halfDraws noLapse) scenarioModel).
  apply (models_heapOf scenarioModel); compute_done.
Defined.

(** X16.  After a tick with partial observability and no sensor noise, no
    cell around the agent is left unobserved: [unseenAroundFrom] at the
    agent's cell is 0. *)
Theorem unseenAroundFrom_zero_after_reveal e cfg a w m :
  models (heap w) e m → m_done m = false →
  partialObs cfg = true → (sensorNoise cfg <= 0)%Q →
  ∃ w' m',
    stepEnvironment e cfg a w = Some (e, w')
    ∧ models (heap w') e m'
    ∧ unseenAroundFrom (m_agent m') e cfg w' = Some (0, w').
Proof.
  intros Hm Hd Hp Hn.
  destruct (stepsTo_value e cfg a w m Hm) as (w' & Hrun & Hm').
  exists w', (stepModel (rand w) cfg a m (rcur w)).1.
  split; [done|]. split; [done|].
  destruct Hm' as [E' Hm']. destruct w' as [h' rnd' c' lps' lc' t'].
  simpl in Hm'.
  rewrite (unseenAroundFrom_run rnd' lps' lc' t' h' e E' _ cfg _ c' Hm').
  do 2 f_equal. rewrite unseenAroundFromV_count. unfold unseenCells.
  set (m' := (stepModel (rand w) cfg a m (rcur w)).1) in *.
  assert (Hnil : filter (λ k, inGridV m' k.1 k.2 = true ∧ k ∉ m_seen m')
                   (window (m_agent m') (obsRadius cfg)) = []);
    [|by rewrite Hnil].
  apply filter_none. intros k Hk [Hg Hs]. apply Hs.
  destruct (stepModel_summary (rand w) cfg a m (rcur w) Hd)
    as (_ & Hw & Hh & _).
  fold m' in Hw, Hh.
  destruct (stepModel_seen_partial (rand w) cfg a m (rcur w) k Hd Hp)
    as [_ H2].
  apply H2; [done | done |].
  by rewrite inGridV_spec, <- Hw, <- Hh, <- inGridV_spec.
Qed.

Lemma unseenAroundFrom_zero_after_reveal_witness :
  ∃ w' m',
    stepEnvironment 5%nat (scenarioCfg true 2) RIGHT
      (worldOf scenarioModel halfDraws noLapse) = Some (5%nat, w')
    ∧ models (heap w') 5%nat m'
    ∧ unseenAroundFrom (m_agent m') 5%nat (scenarioCfg true 2) w'
      = Some (0, w').
Proof.
  apply (unseenAroundFrom_zero_after_reveal 5%nat (scenarioCfg true 2) RIGHT
           (worldOf scenarioModel halfDraws noLapse) scenarioModel).
  - apply (models_heapOf scenarioModel); compute_done.
  - reflexivity.
  - reflexivity.
  - discriminate.
Defined.

(** *** The stagnation detector *)

Lemma elem_of_of_list l k : k ∈ JSSet.of_list l ↔ k ∈ l.
Proof.
  unfold JSSet.of_list. rewrite elem_of_foldl_add.
  split; [intros [H|H]; [by apply elem_of_nil in H | done] | by right].
Qed.

Lemma NoDup_of_list l : NoDup (JSSet.of_list l).
Proof. apply foldl_add_NoDup. constructor. Qed.

(** A list holds at most two distinct keys exactly when the set built
    from it has at most two elements. *)
Lemma few_cells l :
  JSSet.size (JSSet.of_list l) ≤ 2 ↔ ∃ a b, ∀ k, k ∈ l → k = a ∨ k = b.
Proof.
  unfold JSSet.size. split.
  - intros Hs.
    assert (Hel : ∀ k, k ∈ l → k ∈ JSSet.of_list l)
      by (intros k; apply elem_of_of_list).
    destruct (JSSet.of_list l) as [|a [|b [|c s]]].
    + exists (0, 0), (0, 0). intros k Hk. apply Hel in Hk.
      by apply elem_of_nil in Hk.
    + exists a, a. intros k Hk. apply Hel in Hk.
      apply list_elem_of_singleton in Hk. by left.
    + exists a, b. intros k Hk. apply Hel in Hk.
      apply elem_of_cons in Hk as [?|Hk]; [by left|].
      apply list_elem_of_singleton in Hk. by right.
    + simpl in Hs. lia.
  - intros (a & b & Hab).
    assert (Hsub : JSSet.of_list l ⊆+ [a; b]).
    { apply NoDup_submseteq; [apply NoDup_of_list|].
      intros k Hk. apply elem_of_of_list, Hab in Hk as [-> | ->].
      - apply list_elem_of_here.
      - apply list_elem_of_further, list_elem_of_here. }
    apply submseteq_length in Hsub. simpl in Hsub. lia.
Qed.

Lemma get_app_tail (l tl : list key) (i : nat) :
  JSArray.get (l ++ tl) (Z.of_nat (length l) + Z.of_nat i) = tl !! i.
Proof.
  unfold JSArray.get.
  destruct (Z.ltb_spec (Z.of_nat (length l) + Z.of_nat i) 0); [lia|].
  rewrite lookup_app_r by lia. f_equal. lia.
Qed.

(** [isABAB]: the history ends with a cell pair repeated twice. *)
Lemma isABAB_spec rc :
  isABAB rc = true ↔ ∃ l a b, rc = l ++ [a; b; a; b].
Proof.
  unfold isABAB, JSArray.lengthZ. split.
  - destruct (Z.ltb_spec (Z.of_nat (length rc)) 4) as [|Hlen]; [done|].
    rewrite andb_true_iff, !bool_decide_eq_true.
    pose proof (take_drop (length rc - 4) rc) as Hrc.
    assert (Hd : length (drop (length rc - 4) rc) = 4%nat)
      by (rewrite length_drop; lia).
    remember (take (length rc - 4) rc) as l eqn:Heql. clear Heql.
    destruct (drop (length rc - 4) rc) as [|x1 [|x2 [|x3 [|x4 [|? ?]]]]];
      try done.
    clear Hd Hlen. subst rc. rewrite length_app. cbn [length].
    replace (Z.of_nat (length l + 4) - 1)
      with (Z.of_nat (length l) + Z.of_nat 3) by lia.
    replace (Z.of_nat (length l + 4) - 3)
      with (Z.of_nat (length l) + Z.of_nat 1) by lia.
    replace (Z.of_nat (length l + 4) - 2)
      with (Z.of_nat (length l) + Z.of_nat 2) by lia.
    replace (Z.of_nat (length l + 4) - 4)
      with (Z.of_nat (length l) + Z.of_nat 0) by lia.
    rewrite !get_app_tail. simpl. intros [[= ->] [= ->]].
    by exists l, x1, x2.
  - intros (l & a & b & ->). rewrite length_app. cbn [length].
    destruct (Z.ltb_spec (Z.of_nat (length l + 4)) 4); [lia|].
    replace (Z.of_nat (length l + 4) - 1)
      with (Z.of_nat (length l) + Z.of_nat 3) by lia.
    replace (Z.of_nat (length l + 4) - 3)
      with (Z.of_nat (length l) + Z.of_nat 1) by lia.
    replace (Z.of_nat (length l + 4) - 2)
      with (Z.of_nat (length l) + Z.of_nat 2) by lia.
    replace (Z.of_nat (length l + 4) - 4)
      with (Z.of_nat (length l) + Z.of_nat 0) by lia.
    rewrite !get_app_tail. simpl. by rewrite !bool_decide_eq_true_2.
Qed.

(** X17.  [isStuck] reads the model without writing, and answers true
    exactly when at least 6 positions are recorded and one of three
    signs of stagnation shows: the best distance has not improved for
    18 ticks, the history ends with a pair of cells repeated twice, or
    the last six positions visit at most two distinct cells. *)
Theorem isStuck_characterised e w m :
  models (heap w) e m →
  ∃ b, isStuck e w = Some (b, w)
    ∧ (b = true ↔
         (6 ≤ length (m_recent m))%nat
         ∧ (NO_PROGRESS_TICKS ≤ m_tick m - m_lastImprovedTick m
            ∨ (∃ l x y, m_recent m = l ++ [x; y; x; y])
            ∨ (∃ x y, ∀ k, k ∈ JSArray.slice_last 6 (m_recent m) →
                           k = x ∨ k = y))).
Proof.
  intros [E Hm]. destruct w as [h rnd c lps lc t]. simpl in Hm.
  exists (isStuckV m). split.
  { by apply (isStuck_run rnd lps lc t h e E m). }
  unfold isStuckV, JSArray.lengthZ, STUCK_MIN_HISTORY.
  destruct (Z.ltb_spec (Z.of_nat (length (m_recent m))) 6) as [Hlt|Hge].
  { split; [done | intros [? _]; lia]. }
  rewrite !orb_true_iff, Z.geb_leb, Z.leb_le, isABAB_spec, Z.leb_le, few_cells.
  split; [intros H; split; [lia | tauto] | intros [_ H]; tauto].
Qed.

Lemma isStuck_characterised_witness :
  ∃ b, isStuck 5%nat (worldOf borderModel halfDraws noLapse)
       = Some (b, worldOf borderModel halfDraws noLapse)
    ∧ (b = true ↔
         (6 ≤ length (m_recent borderModel))%nat
         ∧ (NO_PROGRESS_TICKS
            ≤ m_tick borderModel - m_lastImprovedTick borderModel
            ∨ (∃ l x y, m_recent borderModel = l ++ [x; y; x; y])
            ∨ (∃ x y, ∀ k, k ∈ JSArray.slice_last 6 (m_recent borderModel) →
                           k = x ∨ k = y))).
Proof.
  apply (isStuck_characterised 5%nat (worldOf borderModel halfDraws noLapse)
           borderModel).
  apply (models_heapOf borderModel); compute_done.
Defined.



(** ** Rollouts *)

Lemma rolloutV_done rnd cfg action startSeen recentSet n tk acc m c :
  m_done m = true →
  rolloutV rnd cfg action startSeen recentSet n tk acc m c = (acc, m, c).
Proof. intros Hd. destruct n; simpl; [done|]. by rewrite Hd. Qed.

Lemma rolloutV_ticks rnd cfg action startSeen recentSet :
  ∀ n tk acc m c,
    let r := (rolloutV rnd cfg action startSeen recentSet n tk acc m c).1.1 in
    ticksRun acc ≤ ticksRun r ≤ ticksRun acc + Z.of_nat n.
Proof.
  induction n as [|n IH]; intros tk acc m c; simpl; [lia|].
  destruct (m_done m); simpl; [lia|].
  match goal with
  | |- context [rolloutV _ _ _ _ _ n ?tk' ?acc' ?m' ?c'] =>
      specialize (IH tk' acc' m' c');
      assert (Hacc : ticksRun acc' = ticksRun acc + 1)
        by (by destruct (samePoint _ _))
  end.
  simpl in IH. lia.
Qed.

(** In maintenance mode a rollout never ends early. *)
Lemma rolloutV_full rnd cfg action startSeen recentSet :
  episodic cfg = false →
  ∀ n tk acc m c,
    m_done m = false →
    ticksRun (rolloutV rnd cfg action startSeen recentSet n tk acc m c).1.1
    = ticksRun acc + Z.of_nat n.
Proof.
  intros Hepi. induction n as [|n IH]; intros tk acc m c Hd; simpl; [lia|].
  rewrite Hd.
  match goal with
  | |- context [rolloutV _ _ _ _ _ n ?tk' ?acc' (stepModel ?r ?g ?a m ?k).1 ?c'] =>
      rewrite (IH tk' acc' (stepModel r g a m k).1 c');
      [ assert (Hacc : ticksRun acc' = ticksRun acc + 1)
          by (by destruct (samePoint _ _)); lia
      | destruct (stepModel_summary r g a m k Hd)
          as (_ & _ & _ & _ & _ & _ & Hdone & _);
        cbv zeta in Hdone; by rewrite Hdone, Hepi ]
  end.
Qed.

(** X18.  [evaluateAction] simulates at most [horizon] ticks, and exactly
    [horizon] in maintenance mode; on a terminal model, or with a
    horizon of 0, it simulates nothing, draws no random number and
    returns 0.  It never reads the clock. *)
Theorem evaluateAction_simulates_at_most_horizon e cfg a horizon w m :
  models (heap w) e m →
  ∃ r w',
    evaluateAction_tally e cfg a horizon w = Some (r, w')
    ∧ evaluateAction e cfg a horizon w = Some (total r, w')
    ∧ 0 ≤ ticksRun r ≤ Z.of_nat horizon
    ∧ lcur w' = lcur w ∧ time w' = time w
    ∧ (episodic cfg = false → m_done m = false →
       ticksRun r = Z.of_nat horizon)
    ∧ (m_done m = true ∨ horizon = 0%nat →
       r = Tally 0 [] 0 ∧ rcur w' = rcur w).
Proof.
  intros [E Hm]. destruct w as [h rnd c lps lc t]. simpl in Hm.
  destruct (evaluateAction_tally_run rnd lps lc t cfg a horizon h e E m c Hm)
    as (h' & Hrun & _).
  eexists _, _. split; [exact Hrun|]. split.
  { unfold evaluateAction. by rewrite (bind_run _ _ _ _ _ Hrun). }
  unfold evaluateActionV. cbn [lcur time rcur].
  split; [|split; [done|split; [done|split]]].
  - pose proof (rolloutV_ticks rnd cfg a (JSSet.size (m_seen m))
                  (JSSet.of_list (m_recent m)) horizon 0 (Tally 0 [] 0) m c)
      as H. simpl in H. lia.
  - intros Hepi Hd.
    by rewrite (rolloutV_full rnd cfg a _ _ Hepi horizon 0 (Tally 0 [] 0) m c Hd).
  - intros [Hd| ->]; [by rewrite rolloutV_done | done].
Qed.

Lemma evaluateAction_simulates_at_most_horizon_witness :
  ∃ r w',
    evaluateAction_tally 5%nat maintenanceCfg UP 3
      (worldOf goalAdjacentModel halfDraws noLapse) = Some (r, w')
    ∧ evaluateAction 5%nat maintenanceCfg UP 3
        (worldOf goalAdjacentModel halfDraws noLapse) = Some (total r, w')
    ∧ 0 ≤ ticksRun r ≤ Z.of_nat 3
    ∧ lcur w' = lcur (worldOf goalAdjacentModel halfDraws noLapse)
    ∧ time w' = time (worldOf goalAdjacentModel halfDraws noLapse)
    ∧ (episodic maintenanceCfg = false → m_done goalAdjacentModel = false →
       ticksRun r = Z.of_nat 3)
    ∧ (m_done goalAdjacentModel = true ∨ 3%nat = 0%nat →
       r = Tally 0 [] 0
       ∧ rcur w' = rcur (worldOf goalAdjacentModel halfDraws noLapse)).
Proof.
  apply (evaluateAction_simulates_at_most_horizon 5%nat maintenanceCfg UP 3
           (worldOf goalAdjacentModel halfDraws noLapse) goalAdjacentModel).
  apply (models_heapOf goalAdjacentModel); compute_done.
Defined.

(** ** The planner *)

Lemma exploreLoopV_DIRS m cfg : (exploreLoopV m cfg).1 ∈ DIRS.
Proof.
  unfold exploreLoopV.
  assert (H : ∀ ds st, (foldl (exploreStep m cfg) st ds).1 ∈ st.1 :: ds).
  { induction ds as [|d ds IH]; intros st; simpl; [apply list_elem_of_here|].
    specialize (IH (exploreStep m cfg st d)).
    apply elem_of_cons in IH as [IH|IH].
    - rewrite IH. unfold exploreStep.
      destruct (blockedV m _ _); [apply list_elem_of_here|].
      destruct (match st.2 with Some b => _ | None => true end);
        [apply list_elem_of_further, list_elem_of_here
        | apply list_elem_of_here].
    - by do 2 apply list_elem_of_further. }
  specialize (H DIRS (UP, None)).
  apply elem_of_cons in H as [Heq|H]; [|exact H].
  rewrite Heq. apply list_elem_of_here.
Qed.

Lemma exploreFallbackV_DIRS m cfg d :
  exploreFallbackV m cfg = Some d → d ∈ DIRS.
Proof.
  unfold exploreFallbackV. destruct (_ && _); [|done].
  destruct (exploreLoopV m cfg).2; [|done].
  intros [= <-]. apply exploreLoopV_DIRS.
Qed.

Lemma sortInsert_Permutation cmp x l : sortInsert cmp x l ≡ₚ x :: l.
Proof.
  induction l as [|y l IH]; simpl; [done|].
  destruct (cmp x y); try done; by rewrite IH, Permutation_swap.
Qed.

Lemma sortBy_Permutation cmp l : sortBy cmp l ≡ₚ l.
Proof.
  unfold sortBy.
  assert (H : ∀ acc, foldl (λ acc x, sortInsert cmp x acc) acc l ≡ₚ acc ++ l).
  { induction l as [|x l IH]; intros acc; simpl; [by rewrite app_nil_r|].
    rewrite IH, sortInsert_Permutation. simpl. apply Permutation_middle. }
  by rewrite H.
Qed.

Lemma bestByMean_DIRS r0 r1 r2 r3 :
  ∃ best, bestByMean (scoreTable r0 r1 r2 r3) = Some best ∧ best ∈ DIRS.
Proof.
  unfold bestByMean. simpl.
  repeat match goal with
         | |- context [xgt ?a ?b] => destruct (xgt a b); simpl
         end;
    (eexists; split; [reflexivity|]; unfold DIRS; inlist).
Qed.

(** The selection always returns one of the four directions, with one
    estimate per direction. *)
Lemma selectAction_run scores iters h rnd c lps lc t :
  tallied scores iters →
  ∃ dec c',
    selectAction scores iters (World h rnd c lps lc t)
    = Some (dec, World h rnd c' lps lc t)
    ∧ d_action dec ∈ DIRS ∧ d_mode dec = "mc"%string
    ∧ d_iters dec = iters ∧ (d_estimates dec).*1 = dirNames.
Proof.
  intros (r0 & r1 & r2 & r3 & -> & H0 & H1 & H2 & H3 & ->).
  destruct (bestByMean_DIRS r0 r1 r2 r3) as (best & Hbest & Hin).
  unfold selectAction. rewrite Hbest.
  rewrite (bind_run _ _ _ _ _ (random_run _ _ _ _ _ _)).
  destruct (Qltb _ _).
  - cbv zeta.
    set (sorted := sortBy _ DIRS).
    assert (Hperm : sorted ≡ₚ DIRS) by apply sortBy_Permutation.
    assert (Hlen : length sorted = 4%nat) by (by rewrite Hperm).
    assert (Hne : take (Z.to_nat (Z.max 2 (JSArray.lengthZ sorted / 2)))
                    sorted ≠ []).
    { unfold JSArray.lengthZ. rewrite Hlen.
      destruct sorted as [|x sorted']; [done|]. done. }
    destruct (choice_def_run
                (take (Z.to_nat (Z.max 2 (JSArray.lengthZ sorted / 2))) sorted)
                h rnd (S c) lps lc t Hne) as (a & _ & Ha & Hrun).
    rewrite (bind_run _ _ _ _ _ Hrun).
    eexists _, _. split; [reflexivity|]. simpl.
    split; [|done].
    apply elem_of_take in Ha as (i & Ha & _).
    apply list_elem_of_lookup_2 in Ha. by rewrite Hperm in Ha.
  - eexists _, _. split; [reflexivity|]. by simpl.
Qed.

(** *** The budgeted loop ends *)

Lemma elapsed_below_budget (t0 t1 : N) (budgetMs : Q) :
  Qltb ((Z.of_N t1 # 1000) - (Z.of_N t0 # 1000)) budgetMs = true →
  (inject_Z (Z.of_N t1 - Z.of_N t0) < budgetMs * 1000)%Q.
Proof.
  rewrite Qltb_lt. destruct budgetMs as [bn bd].
  unfold Qlt, Qminus, Qplus, Qopp, Qmult, inject_Z. simpl.
  rewrite ?Pos2Z.inj_mul. lia.
Qed.

(** Once the clock has advanced by the budget, the loop test fails. *)
Lemma budget_spent (t0 t t1 : N) (budgetMs : Q) :
  (t ≤ t1)%N →
  (budgetMs * 1000 <= inject_Z (Z.of_N t - Z.of_N t0))%Q →
  Qltb ((Z.of_N t1 # 1000) - (Z.of_N t0 # 1000)) budgetMs = false.
Proof.
  intros Ht Hb. apply not_true_iff_false. intros Hlt.
  apply elapsed_below_budget in Hlt.
  apply (Qlt_irrefl (budgetMs * 1000)).
  eapply Qle_lt_trans; [exact Hb|]. eapply Qle_lt_trans; [|exact Hlt].
  rewrite <- Zle_Qle. lia.
Qed.

(** One pass over the directions returns, keeps the caller's objects
    and lets the clock advance. *)
Lemma rolloutPass_run rnd lps e E m cfg hz start budgetMs :
  ∀ ds scores iters h c lc t,
    models_at h e E m → (∀ d, d ∈ ds → d ∈ DIRS) → tallied scores iters →
    ∃ r h' c' lc' t',
      rolloutPass e cfg hz start budgetMs ds scores iters
        (World h rnd c lps lc t)
      = Some (r, World h' rnd c' lps lc' t')
      ∧ keeps h h' ∧ tallied r.1 r.2 ∧ (t ≤ t')%N.
Proof.
  induction ds as [|d ds IH]; intros scores iters h c lc t Hm Hds Hsh.
  { eexists _, _, _, _, _. split; [reflexivity|].
    split; [apply keeps_refl|]. split; [done | lia]. }
  cbn [rolloutPass].
  destruct (evaluateAction_run rnd lps lc t cfg d hz h e E m c Hm)
    as (h1 & Hrun & Hk1).
  rewrite (bind_run _ _ _ _ _ Hrun).
  destruct (tallied_step scores iters d
              (total (evaluateActionV rnd cfg d hz m c).1.1) Hsh)
    as (rd & Hget & Hsh'); [apply Hds, list_elem_of_here|].
  rewrite Hget. cbv zeta.
  rewrite (bind_run _ _ _ _ _ (now_run _ _ _ _ _ _)).
  destruct (Qle_bool budgetMs _).
  - eexists _, _, _, _, _. split; [reflexivity|].
    split; [done|]. split; [done | lia].
  - destruct (IH _ _ h1 (evaluateActionV rnd cfg d hz m c).2 (S lc)
                (t + lps lc)%N (models_at_keeps _ _ _ _ _ Hm Hk1)
                (λ d' Hd', Hds d' (list_elem_of_further _ _ _ Hd')) Hsh')
      as (r & h' & c' & lc' & t' & Hpass & Hk & Hr & Ht).
    exists r, h', c', lc', t'. split; [exact Hpass|].
    split; [by eapply keeps_trans|]. split; [done | lia].
Qed.

(** The loop returns when the fuel covers the budget: every reading of
    the clock advances it by at least [δ] microseconds. *)
Lemma anytimeLoop_run rnd lps (δ : N) e E m cfg hz (t0 : N) budgetMs :
  (∀ n, (δ ≤ lps n)%N) →
  ∀ fuel scores iters h c lc t,
    models_at h e E m → tallied scores iters → (t0 ≤ t)%N →
    (budgetMs * 1000
     <= inject_Z (Z.of_N t - Z.of_N t0 + Z.of_nat fuel * Z.of_N δ))%Q →
    ∃ r h' c' lc' t',
      anytimeLoop fuel e cfg hz (Z.of_N t0 # 1000) budgetMs scores iters
        (World h rnd c lps lc t)
      = Some (r, World h' rnd c' lps lc' t')
      ∧ keeps h h' ∧ tallied r.1 r.2.
Proof.
  intros Hδ.
  induction fuel as [|fuel IH]; intros scores iters h c lc t Hm Hsh Ht Hb;
    rewrite anytimeLoop_unfold;
    rewrite (bind_run _ _ _ _ _ (now_run _ _ _ _ _ _)).
  - rewrite (budget_spent t0 t (t + lps lc) budgetMs); [|lia|].
    + eexists _, _, _, _, _. split; [reflexivity|].
      split; [apply keeps_refl | done].
    + eapply Qle_trans; [exact Hb|]. rewrite <- Zle_Qle. lia.
  - destruct (Qltb _ budgetMs).
    + destruct (rolloutPass_run rnd lps e E m cfg hz (Z.of_N t0 # 1000)
                  budgetMs DIRS scores iters h c (S lc) (t + lps lc)%N
                  Hm (λ d Hd, Hd) Hsh)
        as (r & h1 & c1 & lc1 & t1 & Hpass & Hk1 & Hr & Ht1).
      rewrite (bind_run _ _ _ _ _ Hpass).
      destruct (IH r.1 r.2 h1 c1 lc1 t1 (models_at_keeps _ _ _ _ _ Hm Hk1) Hr)
        as (r' & h' & c' & lc' & t' & Hloop & Hk & Hr'); [lia| |].
      * eapply Qle_trans; [exact Hb|]. rewrite <- Zle_Qle.
        specialize (Hδ lc). lia.
      * exists r', h', c', lc', t'. split; [exact Hloop|].
        split; [by eapply keeps_trans | done].
    + eexists _, _, _, _, _. split; [reflexivity|].
      split; [apply keeps_refl | done].
Qed.

Lemma pickAction_run rnd lps (δ : N) fuel e E m cfg budgetMs h c lc t :
  (∀ n, (δ ≤ lps n)%N) → models_at h e E m →
  (budgetMs * 1000 <= inject_Z (Z.of_nat fuel * Z.of_N δ))%Q →
  ∃ dec h' c' lc' t',
    pickAction fuel e cfg budgetMs (World h rnd c lps lc t)
    = Some (dec, World h' rnd c' lps lc' t')
    ∧ keeps h h'
    ∧ d_action dec ∈ DIRS
    ∧ ((d_mode dec = "explore"%string ∧ d_iters dec = 0
        ∧ d_estimates dec = []
        ∧ exploreFallbackV m cfg = Some (d_action dec))
       ∨ (d_mode dec = "mc"%string ∧ 0 ≤ d_iters dec
          ∧ (d_estimates dec).*1 = dirNames
          ∧ exploreFallbackV m cfg = None)).
Proof.
  intros Hδ Hm Hb. unfold pickAction.
  rewrite (bind_run _ _ _ _ _ (now_run _ _ _ _ _ _)).
  erewrite bind_run; [|eapply exploreFallback_run; exact Hm].
  destruct (exploreFallbackV m cfg) as [best|] eqn:Hfb.
  - eexists _, _, _, _, _. split; [reflexivity|].
    split; [apply keeps_refl|]. simpl.
    split; [by eapply exploreFallbackV_DIRS | by left].
  - destruct (anytimeLoop_run rnd lps δ e E m cfg
                (if partialObs cfg then 14%nat else 10%nat)
                (t + lps lc)%N budgetMs Hδ fuel initScores 0 h c (S lc)
                (t + lps lc)%N Hm tallied_initial)
      as (r & h1 & c1 & lc1 & t1 & Hloop & Hk & Hr); [lia| |].
    { eapply Qle_trans; [exact Hb|]. rewrite <- Zle_Qle. lia. }
    unfold initScores in Hloop. rewrite (bind_run _ _ _ _ _ Hloop).
    destruct (selectAction_run r.1 r.2 h1 rnd c1 lps lc1 t1 Hr)
      as (dec & c' & Hsel & Hin & Hmode & Hit & Hest).
    exists dec, h1, c', lc1, t1. split; [exact Hsel|].
    split; [done|]. split; [done|]. right.
    split; [done|]. split; [|done]. rewrite Hit.
    destruct Hr as (r0 & r1 & r2 & r3 & _ & ? & ? & ? & ? & ->). lia.
Qed.

(** X19.  [pickAction] returns.  When every reading of the clock advances it
    by at least [δ] microseconds and the fuel covers the budget,
    [pickAction] returns one of the four directions; it leaves every
    object of the caller in place, so that the model is unchanged.  The
    decision either comes from the fallback (mode "explore", no
    estimates, zero iterations) or from the rollouts (mode "mc", one
    estimate per direction in the order of [DIRS]); it comes from the
    rollouts whenever observability is full or the model is not
    stuck. *)
Theorem pickAction_returns_a_direction fuel e cfg budgetMs w m (δ : N) :
  models (heap w) e m →
  (∀ n, (δ ≤ lapse w n)%N) →
  (budgetMs * 1000 <= inject_Z (Z.of_nat fuel * Z.of_N δ))%Q →
  ∃ dec w',
    pickAction fuel e cfg budgetMs w = Some (dec, w')
    ∧ d_action dec ∈ DIRS
    ∧ (∃ k, heap w' = heap w ++ k)
    ∧ models (heap w') e m
    ∧ ((d_mode dec = "explore"%string ∧ d_iters dec = 0
        ∧ d_estimates dec = [])
       ∨ (d_mode dec = "mc"%string ∧ 0 ≤ d_iters dec
          ∧ (d_estimates dec).*1 = dirNames))
    ∧ (partialObs cfg = false ∨ isStuckV m = false →
       d_mode dec = "mc"%string).
Proof.
  intros [E Hm] Hδ Hb. destruct w as [h rnd c lps lc t]. simpl in *.
  destruct (pickAction_run rnd lps δ fuel e E m cfg budgetMs h c lc t Hδ Hm Hb)
    as (dec & h' & c' & lc' & t' & Hrun & Hk & Hin & Hmode).
  eexists _, _. split; [exact Hrun|]. simpl.
  split; [done|]. split; [by apply keeps_prefix|].
  split; [exists E; by eapply models_at_keeps|]. split.
  - destruct Hmode as [(? & ? & ? & _)|(? & ? & ? & _)]; [by left | by right].
  - intros Hno. destruct Hmode as [(_ & _ & _ & Hfb)|(? & _)]; [|done].
    unfold exploreFallbackV in Hfb.
    destruct Hno as [Hp|Hst];
      [rewrite Hp, andb_false_r in Hfb | rewrite Hst in Hfb]; done.
Qed.

Lemma pickAction_returns_a_direction_witness :
  ∃ dec w',
    pickAction 25 5%nat DEFAULTS 25
      (World (heapOf scenarioModel) halfDraws 0 steadyClock 0 0)
    = Some (dec, w')
    ∧ d_action dec ∈ DIRS
    ∧ (∃ k, heap w' = heapOf scenarioModel ++ k)
    ∧ models (heap w') 5%nat scenarioModel
    ∧ ((d_mode dec = "explore"%string ∧ d_iters dec = 0
        ∧ d_estimates dec = [])
       ∨ (d_mode dec = "mc"%string ∧ 0 ≤ d_iters dec
          ∧ (d_estimates dec).*1 = dirNames))
    ∧ (partialObs DEFAULTS = false ∨ isStuckV scenarioModel = false →
       d_mode dec = "mc"%string).
Proof.
  apply (pickAction_returns_a_direction 25 5%nat DEFAULTS 25
           (World (heapOf scenarioModel) halfDraws 0 steadyClock 0 0)
           scenarioModel 1000%N).
  - apply (models_heapOf scenarioModel); compute_done.
  - intros n. apply N.le_refl.
  - apply Qle_refl.
Defined.

(** ** Duplicating and stepping *)

(** A transition of a duplicate writes only to the duplicate. *)
Lemma clone_step_run rnd lps lc t h e E m cfg a c :
  models_at h e E m →
  ∃ sim h2 h3 E3,
    cloneEnv e (World h rnd c lps lc t) = Some (sim, World h2 rnd c lps lc t)
    ∧ stepEnvironment sim cfg a (World h2 rnd c lps lc t)
      = Some (sim, World h3 rnd (stepModel rnd cfg a m c).2 lps lc t)
    ∧ (length h ≤ sim)%nat
    ∧ keeps h h2 ∧ keeps h h3
    ∧ models h2 sim m
    ∧ models_at h3 sim E3 (stepModel rnd cfg a m c).1.
Proof.
  intros Hm.
  destruct (cloneEnv_run rnd lps lc t h e E m c Hm)
    as (sim & h2 & E2 & Hclone & H2 & Hfresh & Hk2).
  destruct (stepEnvironment_value rnd lps lc t h2 sim E2 m cfg a c H2)
    as (h3 & E3 & Hstep & H3 & Hframe & _).
  exists sim, h2, h3, E3. split; [done|]. split; [done|].
  split; [apply Hfresh, list_elem_of_here|]. split; [done|].
  split; [|split; [by exists E2 | done]].
  destruct Hk2 as [L2 K2].
  destruct (frame_keeps _ (length h) h2 h3 Hframe Hfresh L2) as [L3 K3].
  split; [lia|]. intros l Hl. rewrite K3 by done. by apply K2.
Qed.

(** X20.  [cloneEnv] allocates a new environment that holds the same model,
    keeps every object of the store and draws nothing; the duplicate
    shares no object with the original: a transition of the duplicate
    leaves the original model as it is. *)
Theorem cloneEnv_fresh_copy e cfg a w m :
  models (heap w) e m →
  ∃ sim k,
    cloneEnv e w = Some (sim, set_heap (heap w ++ k) w)
    ∧ (length (heap w) ≤ sim)%nat
    ∧ models (heap w ++ k) sim m
    ∧ models (heap w ++ k) e m
    ∧ ∃ w' m',
        stepEnvironment sim cfg a (set_heap (heap w ++ k) w) = Some (sim, w')
        ∧ models (heap w') sim m'
        ∧ models (heap w') e m.
Proof.
  intros [E Hm]. destruct w as [h rnd c lps lc t]. simpl in *.
  destruct (clone_step_run rnd lps lc t h e E m cfg a c Hm)
    as (sim & h2 & h3 & E3 & Hclone & Hstep & Hsim & Hk2 & Hk3 & H2 & H3).
  destruct (keeps_prefix _ _ Hk2) as [k ->].
  exists sim, k. unfold set_heap. simpl.
  split; [done|]. split; [done|]. split; [done|].
  split; [exists E; by eapply models_at_keeps|].
  eexists _, _. split; [exact Hstep|]. simpl.
  split; [by exists E3 | exists E; by eapply models_at_keeps].
Qed.

Lemma cloneEnv_fresh_copy_witness :
  ∃ sim k,
    cloneEnv 6%nat (worldOf chaseModel mergeDraws noLapse)
    = Some (sim, set_heap (heap (worldOf chaseModel mergeDraws noLapse) ++ k)
                   (worldOf chaseModel mergeDraws noLapse))
    ∧ (length (heap (worldOf chaseModel mergeDraws noLapse)) ≤ sim)%nat
    ∧ models (heap (worldOf chaseModel mergeDraws noLapse) ++ k) sim chaseModel
    ∧ models (heap (worldOf chaseModel mergeDraws noLapse) ++ k) 6%nat
             chaseModel
    ∧ ∃ w' m',
        stepEnvironment sim chaseCfg UP
          (set_heap (heap (worldOf chaseModel mergeDraws noLapse) ++ k)
             (worldOf chaseModel mergeDraws noLapse)) = Some (sim, w')
        ∧ models (heap w') sim m'
        ∧ models (heap w') 6%nat chaseModel.
Proof.
  apply (cloneEnv_fresh_copy 6%nat chaseCfg UP
           (worldOf chaseModel mergeDraws noLapse) chaseModel).
  apply (models_heapOf chaseModel); compute_done.
Defined.



(** ** Building a model *)

(** *** Running on the objects allocated last *)

Lemma lookup_at {A} (h k : list A) i : (h ++ k) !! (length h + i)%nat = k !! i.
Proof. rewrite lookup_app_r by lia. f_equal. lia. Qed.

Lemma alloc_at o h k rnd c lps lc t :
  alloc o (World (h ++ k) rnd c lps lc t)
  = Some ((length h + length k)%nat, World (h ++ (k ++ [o])) rnd c lps lc t).
Proof. rewrite alloc_run, length_app, app_assoc. done. Qed.

Lemma getPoint_at h k i p rnd c lps lc t :
  k !! i = Some (OPoint p) →
  getPoint (length h + i)%nat (World (h ++ k) rnd c lps lc t)
  = Some (p, World (h ++ k) rnd c lps lc t).
Proof. intros H. apply getPoint_run. by rewrite lookup_at. Qed.

Lemma setDelete_at h k i s x rnd c lps lc t :
  k !! i = Some (OSet s) →
  setDelete (length h + i)%nat x (World (h ++ k) rnd c lps lc t)
  = Some (tt, World (h ++ <[i := OSet (JSSet.delete x s)]> k) rnd c lps lc t).
Proof.
  intros H. erewrite setDelete_run by (by rewrite lookup_at).
  by rewrite insert_app_r.
Qed.

Lemma randInt_run a b h rnd c lps lc t :
  randInt a b (World h rnd c lps lc t)
  = Some (randIntV rnd c a b, World h rnd (S c) lps lc t).
Proof. done. Qed.

(** The placement loop computes [placeObstaclesV] on the set it
    fills. *)
Lemma placeObstacles_run rnd lps lc t count width height obs :
  ∀ fuel h s c,
    h !! obs = Some (OSet s) →
    placeObstacles fuel obs count width height (World h rnd c lps lc t)
    = match placeObstaclesV rnd fuel count width height s c with
      | Some r => Some (tt, World (<[obs := OSet r.1]> h) rnd r.2 lps lc t)
      | None => None
      end.
Proof.
  induction fuel as [|fuel IH]; intros h s c Hs.
  - cbn [placeObstacles placeObstaclesV].
    erewrite bind_run by (by apply getSet_run).
    destruct (_ <? _); [done|]. simpl. by rewrite list_insert_id.
  - cbn [placeObstacles placeObstaclesV].
    erewrite bind_run by (by apply getSet_run).
    destruct (_ <? _); [|simpl; by rewrite list_insert_id].
    rewrite (bind_run _ _ _ _ _ (randInt_run _ _ _ _ _ _ _ _)).
    rewrite (bind_run _ _ _ _ _ (randInt_run _ _ _ _ _ _ _ _)).
    erewrite bind_run by (by apply setAdd_run).
    rewrite (IH _ (JSSet.add (drawnCell rnd c width height) s)).
    + destruct (placeObstaclesV _ _ _ _ _ _ _) as [r|]; [|done].
      by rewrite list_insert_insert_eq.
    + apply list_lookup_insert_eq. by eapply lookup_lt_Some.
Qed.

Lemma placeObstaclesV_NoDup rnd count width height :
  ∀ fuel s c r,
    NoDup s → placeObstaclesV rnd fuel count width height s c = Some r →
    NoDup r.1.
Proof.
  induction fuel as [|fuel IH]; intros s c r Hs; simpl;
    destruct (_ <? _); try done; try (by intros [= <-]).
  apply IH. by apply add_NoDup.
Qed.

Lemma randIntV_range rnd c a b : a ≤ b → a ≤ randIntV rnd c a b ≤ b.
Proof.
  intros Hab. unfold randIntV.
  pose proof (draw_index_range (rnd c) (b - a + 1)). lia.
Qed.

Lemma placeObstaclesV_elem rnd count width height :
  1 ≤ width → 1 ≤ height →
  ∀ fuel s c r k,
    placeObstaclesV rnd fuel count width height s c = Some r → k ∈ r.1 →
    k ∈ s ∨ (0 ≤ k.1 < width ∧ 0 ≤ k.2 < height).
Proof.
  intros Hw Hh.
  induction fuel as [|fuel IH]; intros s c r k; simpl;
    destruct (_ <? _); try done; try (intros [= <-]; by left).
  intros Hr Hk. destruct (IH _ _ _ _ Hr Hk) as [Hin|?]; [|by right].
  apply elem_of_add in Hin as [->|?]; [right | by left].
  unfold drawnCell. simpl.
  pose proof (randIntV_range rnd c 0 (width - 1)).
  pose proof (randIntV_range rnd (S c) 0 (height - 1)). lia.
Qed.

Lemma placeObstaclesV_size rnd count width height :
  ∀ fuel s c r,
    placeObstaclesV rnd fuel count width height s c = Some r →
    JSSet.size s ≤ Z.max 0 count →
    JSSet.size s ≤ JSSet.size r.1 ∧ JSSet.size r.1 ≤ Z.max 0 count
    ∧ count ≤ JSSet.size r.1.
Proof.
  induction fuel as [|fuel IH]; intros s c r; simpl;
    destruct (Z.ltb_spec (JSSet.size s) count); try done;
    try (intros [= <-]; simpl; lia).
  intros Hr Hs. unfold JSSet.size in *. apply IH in Hr.
  - pose proof (length_add (drawnCell rnd c width height) s). lia.
  - pose proof (length_add_S (drawnCell rnd c width height) s). lia.
Qed.

(** The loop ends as soon as the cells drawn so far comprise
    [obstacleCount] distinct ones. *)
Lemma placeObstaclesV_returns rnd count width height :
  ∀ fuel s c,
    count ≤ JSSet.size (foldl (λ s k, JSSet.add k s) s
                          (drawnCells rnd fuel c width height)) →
    ∃ r, placeObstaclesV rnd fuel count width height s c = Some r.
Proof.
  induction fuel as [|fuel IH]; intros s c; simpl;
    destruct (Z.ltb_spec (JSSet.size s) count); try (by eexists).
  - intros ?. exfalso. lia.
  - apply IH.
Qed.

Lemma filter_ne_absent (k : key) (s : list key) :
  k ∉ s → filter (λ k', k' ≠ k) s = s.
Proof.
  induction s as [|y s IHs]; intros Hk; [done|].
  rewrite filter_cons, decide_True.
  - f_equal. apply IHs. intros ?. apply Hk. by apply list_elem_of_further.
  - intros ->. apply Hk, list_elem_of_here.
Qed.

Lemma length_filter_ne (k : key) (s : list key) :
  NoDup s → (length s ≤ S (length (filter (λ k', k' ≠ k) s)))%nat.
Proof.
  induction 1 as [|x s Hx Hs IH]; [simpl; lia|].
  rewrite filter_cons. destruct (decide (x ≠ k)) as [|Heq]; simpl; [lia|].
  apply dec_stable in Heq as ->. rewrite filter_ne_absent by done. lia.
Qed.

Lemma length_delete_S k s :
  NoDup s → (length s ≤ S (length (JSSet.delete k s)))%nat.
Proof. apply length_filter_ne. Qed.

Lemma setDelete_at0 h k s x rnd c lps lc t :
  k !! 0%nat = Some (OSet s) →
  setDelete (length h) x (World (h ++ k) rnd c lps lc t)
  = Some (tt, World (h ++ <[0%nat := OSet (JSSet.delete x s)]> k) rnd c lps lc t).
Proof.
  intros H. rewrite <- (Nat.add_0_r (length h)) at 1. by apply setDelete_at.
Qed.

Lemma lookup_suffix {A} (h k : list A) l i :
  l = (length h + i)%nat → (h ++ k) !! l = k !! i.
Proof. intros ->. apply lookup_at. Qed.

(** [makeEnv] builds the object graph of [makeModel] behind the
    objects of the store. *)
Lemma makeEnv_run rnd lps lc t fuel cfg h c m c' :
  makeModel rnd fuel cfg c = Some (m, c') →
  ∃ e E k,
    makeEnv fuel cfg (World h rnd c lps lc t)
    = Some (e, World (h ++ k) rnd c' lps lc t)
    ∧ models_at (h ++ k) e E m.
Proof.
  unfold makeModel, makeEnv. cbv zeta.
  destruct (placeObstaclesV rnd fuel _ _ _ [] c) as [[s' c1]|] eqn:Hp;
    simpl; [|done].
  intros [= <- <-].
  pose proof (placeObstaclesV_NoDup _ _ _ _ _ _ _ _ (NoDup_nil_2 : NoDup ([] : JSSet.t)) Hp)
    as Hnd. simpl in Hnd.
  rewrite (bind_run _ _ _ _ _ (alloc_run _ _ _ _ _ _ _)).
  erewrite bind_run;
    [|rewrite (placeObstacles_run rnd lps lc t _ _ _ (length h) fuel
                 (h ++ [OSet []]) [] c (lookup_last h _)), Hp; reflexivity].
  cbn [fst snd]. rewrite insert_last.
  rewrite (bind_run _ _ _ _ _ (alloc_at _ _ _ _ _ _ _ _)).
  rewrite (bind_run _ _ _ _ _ (alloc_at _ _ _ _ _ _ _ _)).
  cbn [length app].
  erewrite bind_run by (by apply getPoint_at).
  erewrite bind_run by (by apply setDelete_at0).
  erewrite bind_run by (by apply getPoint_at).
  erewrite bind_run by (by apply setDelete_at0).
  cbn [list_insert insert].
  set (ag := Pt 1 (cfg_height cfg - 2)).
  set (gl := Pt (cfg_width cfg - 2) 1).
  set (obs := JSSet.delete (keyOf gl) (JSSet.delete (keyOf ag) s')).
  assert (Hobs : NoDup obs) by (by do 2 apply delete_NoDup).
  destruct (multiAgent cfg).
  - erewrite bind_run;
      [|rewrite (bind_run _ _ _ _ _ (alloc_at _ _ _ _ _ _ _ _)); reflexivity].
    cbn [length app].
    erewrite bind_run;
      [|erewrite bind_run by (by apply getPoint_at); by apply setDelete_at0].
    cbn [list_insert insert].
    rewrite (bind_run _ _ _ _ _ (alloc_at _ _ _ _ _ _ _ _)).
    rewrite (bind_run _ _ _ _ _ (alloc_at _ _ _ _ _ _ _ _)).
    rewrite alloc_at. cbn [length app].
    eexists _, _, _. split; [reflexivity|].
    constructor; [by rewrite lookup_at|..];
      cbn [obstacles agent goal adversary seen recent tick width
           height reward done bestDist lastImprovedTick
           m_obstacles m_agent m_goal m_adversary m_seen m_recent
           m_tick m_width m_height m_reward m_done m_bestDist
           m_lastImprovedTick]; try done.
    + by rewrite (lookup_suffix h _ (length h) 0%nat) by lia.
    + by rewrite lookup_at.
    + by rewrite lookup_at.
    + by rewrite lookup_at.
    + by rewrite lookup_at.
    + by rewrite lookup_at.
    + unfold refsOf. simpl.
      repeat (apply NoDup_cons; split;
              [rewrite ?not_elem_of_cons; repeat split;
               first [lia | apply not_elem_of_nil]|]).
      apply NoDup_nil_2.
    + by apply delete_NoDup.
    + apply NoDup_singleton.
  - unfold ret at 1. unfold bind at 1.
    unfold ret at 1. unfold bind at 1.
    rewrite (bind_run _ _ _ _ _ (alloc_at _ _ _ _ _ _ _ _)).
    rewrite (bind_run _ _ _ _ _ (alloc_at _ _ _ _ _ _ _ _)).
    rewrite alloc_at. cbn [length app].
    eexists _, _, _. split; [reflexivity|].
    constructor; [by rewrite lookup_at|..];
      cbn [obstacles agent goal adversary seen recent tick width
           height reward done bestDist lastImprovedTick
           m_obstacles m_agent m_goal m_adversary m_seen m_recent
           m_tick m_width m_height m_reward m_done m_bestDist
           m_lastImprovedTick]; try done.
    + by rewrite (lookup_suffix h _ (length h) 0%nat) by lia.
    + by rewrite lookup_at.
    + by rewrite lookup_at.
    + by rewrite lookup_at.
    + by rewrite lookup_at.
    + unfold refsOf. simpl.
      repeat (apply NoDup_cons; split;
              [rewrite ?not_elem_of_cons; repeat split;
               first [lia | apply not_elem_of_nil]|]).
      apply NoDup_nil_2.
    + apply NoDup_singleton.
Qed.

Lemma makeModel_returns rnd fuel cfg c :
  obstacleCountOf (cfg_width cfg) (cfg_height cfg)
  ≤ JSSet.size (JSSet.of_list
                  (drawnCells rnd fuel c (cfg_width cfg) (cfg_height cfg))) →
  ∃ m c', makeModel rnd fuel cfg c = Some (m, c').
Proof.
  intros H. unfold makeModel.
  destruct (placeObstaclesV_returns rnd _ _ _ fuel [] c H) as [r ->].
  simpl. by eexists _, _.
Qed.

Lemma makeModel_fields rnd fuel cfg c m c' :
  makeModel rnd fuel cfg c = Some (m, c') →
  m_tick m = 0 ∧ m_width m = cfg_width cfg ∧ m_height m = cfg_height cfg
  ∧ m_agent m = Pt 1 (cfg_height cfg - 2)
  ∧ m_goal m = Pt (cfg_width cfg - 2) 1
  ∧ m_adversary m
    = (if multiAgent cfg
       then Some (Pt (cfg_width cfg - 2) (cfg_height cfg - 2)) else None)
  ∧ m_reward m = 0%Q ∧ m_done m = false
  ∧ m_seen m = [keyOf (m_agent m)] ∧ m_recent m = [keyOf (m_agent m)]
  ∧ m_bestDist m = manhattan (m_agent m) (m_goal m)
  ∧ m_lastImprovedTick m = 0.
Proof.
  unfold makeModel.
  destruct (placeObstaclesV _ _ _ _ _ _ _) as [r|]; simpl; [|done].
  intros [= <- _]. simpl. by repeat split.
Qed.

Lemma makeModel_obstacles rnd fuel cfg c m c' :
  makeModel rnd fuel cfg c = Some (m, c') →
  ∃ s, placeObstaclesV rnd fuel
         (obstacleCountOf (cfg_width cfg) (cfg_height cfg))
         (cfg_width cfg) (cfg_height cfg) [] c = Some (s, c')
       ∧ m_obstacles m
         = (let obs := JSSet.delete (keyOf (m_goal m))
                         (JSSet.delete (keyOf (m_agent m)) s) in
            match m_adversary m with
            | Some p => JSSet.delete (keyOf p) obs
            | None => obs
            end).
Proof.
  unfold makeModel.
  destruct (placeObstaclesV _ _ _ _ _ _ _) as [[s c1]|]; simpl; [|done].
  intros [= <- <-]. exists s. split; [done|]. simpl.
  by destruct (multiAgent cfg).
Qed.

Lemma makeModel_bounded rnd fuel cfg c m c' :
  2 ≤ cfg_width cfg → 2 ≤ cfg_height cfg →
  makeModel rnd fuel cfg c = Some (m, c') →
  boundedV m = true ∧ seenInGrid m = true.
Proof.
  intros Hw Hh Hm.
  destruct (makeModel_fields _ _ _ _ _ _ Hm)
    as (_ & Hmw & Hmh & Hag & Hgl & Hadv & _ & _ & Hsn & _).
  destruct (makeModel_obstacles _ _ _ _ _ _ Hm) as (s & Hp & Hobs).
  assert (Hs : ∀ k, k ∈ s → inGridV m k.1 k.2 = true).
  { intros k Hk. apply inGridV_spec. rewrite Hmw, Hmh.
    destruct (placeObstaclesV_elem rnd _ (cfg_width cfg) (cfg_height cfg)
                ltac:(lia) ltac:(lia) _ _ _ _ k Hp Hk) as [Hin|?]; [|done].
    by apply elem_of_nil in Hin. }
  assert (Hin : ∀ k, k ∈ m_obstacles m →
                     k ∈ s ∧ k ≠ keyOf (m_agent m) ∧ k ≠ keyOf (m_goal m)
                     ∧ ∀ p, m_adversary m = Some p → k ≠ keyOf p).
  { intros k. rewrite Hobs. cbv zeta.
    destruct (m_adversary m) as [p|]; rewrite !elem_of_delete.
    - intros [[[? ?] ?] ?]. repeat split; try done. by intros q [= <-].
    - intros [[? ?] ?]. by repeat split. }
  split.
  - apply boundedV_spec. rewrite !inGridV_spec, Hmw, Hmh, Hag, Hgl. simpl.
    split; [lia|]. split; [lia|]. split; [|split; [|split]].
    + intros p Hp'. rewrite Hadv in Hp'. split.
      * destruct (multiAgent cfg); [|done].
        injection Hp' as <-. apply inGridV_spec. rewrite Hmw, Hmh. simpl. lia.
      * intros Hk. apply Hin in Hk as (_ & _ & _ & Hne).
        by eapply Hne; [rewrite Hadv|].
    + intros k Hk. apply Hs. by apply Hin in Hk as [? _].
    + intros Hk. apply Hin in Hk as (_ & Hne & _). by rewrite Hag in Hne.
    + intros Hk. apply Hin in Hk as (_ & _ & Hne & _). by rewrite Hgl in Hne.
  - apply seenInGrid_spec. intros k. rewrite Hsn, Hag.
    intros ->%list_elem_of_singleton. apply inGridV_spec. rewrite Hmw, Hmh.
    simpl. lia.
Qed.

Lemma makeModel_count rnd fuel cfg c m c' :
  makeModel rnd fuel cfg c = Some (m, c') →
  let count := obstacleCountOf (cfg_width cfg) (cfg_height cfg) in
  count - (if multiAgent cfg then 3 else 2) ≤ JSSet.size (m_obstacles m)
  ∧ JSSet.size (m_obstacles m) ≤ Z.max 0 count.
Proof.
  intros Hm count.
  destruct (makeModel_fields _ _ _ _ _ _ Hm)
    as (_ & _ & _ & _ & _ & Hadv & _).
  destruct (makeModel_obstacles _ _ _ _ _ _ Hm) as (s & Hp & Hobs).
  pose proof (placeObstaclesV_NoDup _ _ _ _ _ _ _ _
                (NoDup_nil_2 : NoDup ([] : JSSet.t)) Hp) as Hnd.
  destruct (placeObstaclesV_size _ _ _ _ _ _ _ _ Hp) as (_ & Hhi & Hlo).
  { unfold JSSet.size. simpl. lia. }
  simpl in Hnd, Hhi, Hlo. fold count in Hhi, Hlo.
  rewrite Hobs, Hadv. cbv zeta. unfold JSSet.size in *.
  set (k1 := keyOf (m_agent m)). set (k2 := keyOf (m_goal m)).
  pose proof (length_delete k1 s).
  pose proof (length_delete_S k1 s Hnd).
  pose proof (length_delete k2 (JSSet.delete k1 s)).
  pose proof (length_delete_S k2 _ (delete_NoDup k1 s Hnd)).
  destruct (multiAgent cfg); [|lia].
  set (k3 := keyOf _).
  pose proof (length_delete k3 (JSSet.delete k2 (JSSet.delete k1 s))).
  pose proof (length_delete_S k3 _
                (delete_NoDup k2 _ (delete_NoDup k1 s Hnd))).
  lia.
Qed.

(** X22.  [makeEnv] returns as soon as the cells drawn comprise
    [obstacleCount] distinct ones, and on a grid of at least 2×2 cells
    it builds a fresh and bounded model: tick 0, no reward, not
    terminal, the agent in the lower left and the goal in the upper
    right corner region, the adversary (if any) in the lower right one,
    only the agent's cell observed and recorded, the best distance the
    distance from agent to goal; every obstacle lies within the grid
    and none is on the agent, the goal or the adversary.  The objects of
    the store are kept. *)
Theorem makeEnv_builds_a_bounded_model fuel cfg w :
  2 ≤ cfg_width cfg → 2 ≤ cfg_height cfg →
  obstacleCountOf (cfg_width cfg) (cfg_height cfg)
  ≤ JSSet.size (JSSet.of_list
                  (drawnCells (rand w) fuel (rcur w)
                     (cfg_width cfg) (cfg_height cfg))) →
  ∃ e w' m,
    makeEnv fuel cfg w = Some (e, w')
    ∧ (∃ k, heap w' = heap w ++ k)
    ∧ models (heap w') e m
    ∧ m_tick m = 0 ∧ m_width m = cfg_width cfg ∧ m_height m = cfg_height cfg
    ∧ m_agent m = Pt 1 (cfg_height cfg - 2)
    ∧ m_goal m = Pt (cfg_width cfg - 2) 1
    ∧ m_adversary m
      = (if multiAgent cfg
         then Some (Pt (cfg_width cfg - 2) (cfg_height cfg - 2)) else None)
    ∧ m_reward m = 0%Q ∧ m_done m = false
    ∧ m_seen m = [keyOf (m_agent m)] ∧ m_recent m = [keyOf (m_agent m)]
    ∧ m_bestDist m = manhattan (m_agent m) (m_goal m)
    ∧ m_lastImprovedTick m = 0
    ∧ boundedV m = true ∧ seenInGrid m = true.
Proof.
  intros Hw Hh Hdraws. destruct w as [h rnd c lps lc t]. simpl in *.
  destruct (makeModel_returns rnd fuel cfg c Hdraws) as (m & c' & Hm).
  destruct (makeEnv_run rnd lps lc t fuel cfg h c m c' Hm)
    as (e & E & k & Hrun & Hmod).
  exists e, (World (h ++ k) rnd c' lps lc t), m.
  split; [done|]. split; [by exists k|]. split; [by exists E|].
  destruct (makeModel_fields _ _ _ _ _ _ Hm)
    as (? & ? & ? & ? & ? & ? & ? & ? & ? & ? & ? & ?).
  destruct (makeModel_bounded _ _ _ _ _ _ Hw Hh Hm) as [? ?].
  by repeat split.
Qed.

Lemma makeEnv_builds_a_bounded_model_witness :
  ∃ e w' m,
    makeEnv 3 (scenarioCfg true 3) (emptyWorld placementDraws noLapse)
    = Some (e, w')
    ∧ (∃ k, heap w' = heap (emptyWorld placementDraws noLapse) ++ k)
    ∧ models (heap w') e m
    ∧ m_tick m = 0 ∧ m_width m = 5 ∧ m_height m = 5
    ∧ m_agent m = Pt 1 (5 - 2)
    ∧ m_goal m = Pt (5 - 2) 1
    ∧ m_adversary m
      = (if multiAgent (scenarioCfg true 3)
         then Some (Pt (5 - 2) (5 - 2)) else None)
    ∧ m_reward m = 0%Q ∧ m_done m = false
    ∧ m_seen m = [keyOf (m_agent m)] ∧ m_recent m = [keyOf (m_agent m)]
    ∧ m_bestDist m = manhattan (m_agent m) (m_goal m)
    ∧ m_lastImprovedTick m = 0
    ∧ boundedV m = true ∧ seenInGrid m = true.
Proof.
  apply (makeEnv_builds_a_bounded_model 3 (scenarioCfg true 3)
           (emptyWorld placementDraws noLapse)).
  - by vm_compute.
  - by vm_compute.
  - by vm_compute.
Defined.

(** X23.  The number of obstacles.  [makeEnv] places
    [Math.floor(width*height*0.12)] distinct cells and then clears the
    cells of the agent, of the goal and of the adversary: the model has
    at most that many obstacles, and at most 2 fewer (3 with an
    adversary). *)
Theorem makeEnv_obstacle_count fuel cfg w :
  obstacleCountOf (cfg_width cfg) (cfg_height cfg)
  ≤ JSSet.size (JSSet.of_list
                  (drawnCells (rand w) fuel (rcur w)
                     (cfg_width cfg) (cfg_height cfg))) →
  ∃ e w' m,
    makeEnv fuel cfg w = Some (e, w')
    ∧ models (heap w') e m
    ∧ obstacleCountOf (cfg_width cfg) (cfg_height cfg)
      - (if multiAgent cfg then 3 else 2)
      ≤ JSSet.size (m_obstacles m)
    ∧ JSSet.size (m_obstacles m)
      ≤ Z.max 0 (obstacleCountOf (cfg_width cfg) (cfg_height cfg)).
Proof.
  intros Hdraws. destruct w as [h rnd c lps lc t]. simpl in *.
  destruct (makeModel_returns rnd fuel cfg c Hdraws) as (m & c' & Hm).
  destruct (makeEnv_run rnd lps lc t fuel cfg h c m c' Hm)
    as (e & E & k & Hrun & Hmod).
  exists e, (World (h ++ k) rnd c' lps lc t), m.
  split; [done|]. split; [by exists E|].
  apply (makeModel_count _ _ _ _ _ _ Hm).
Qed.

Lemma makeEnv_obstacle_count_witness :
  ∃ e w' m,
    makeEnv 3 (driftCfg true) (emptyWorld placementDraws noLapse)
    = Some (e, w')
    ∧ models (heap w') e m
    ∧ obstacleCountOf 5 5 - (if multiAgent (driftCfg true) then 3 else 2)
      ≤ JSSet.size (m_obstacles m)
    ∧ JSSet.size (m_obstacles m) ≤ Z.max 0 (obstacleCountOf 5 5).
Proof.
  apply (makeEnv_obstacle_count 3 (driftCfg true)
           (emptyWorld placementDraws noLapse)).
  by vm_compute.
Defined.



(** ** The epsilon override *)











(** ** The utilities *)

(** [clamp] brings a value into [[a, b]]: the result lies in the
    interval, is the value itself exactly when the value lies there, and
    is the nearer bound otherwise, so that clamping twice changes
    nothing.  When the bounds are inverted (as for a grid of width 0)
    the result is the lower bound [a], which is then above [b]. *)
Lemma clamp_into_range v a b :
  (a ≤ b →
   a ≤ clamp v a b ≤ b
   ∧ (clamp v a b = v ↔ a ≤ v ≤ b)
   ∧ (v ≤ a → clamp v a b = a) ∧ (b ≤ v → clamp v a b = b)
   ∧ clamp (clamp v a b) a b = clamp v a b)
  ∧ (b < a → clamp v a b = a).
Proof. unfold clamp. lia. Qed.

(** X25.  [manhattan] is a metric on the cells, and one step in a direction
    of [DIRS] changes the distance to any cell by exactly one. *)
Theorem manhattan_is_a_metric p q r :
  0 ≤ manhattan p q
  ∧ (manhattan p q = 0 ↔ p = q)
  ∧ manhattan p q = manhattan q p
  ∧ manhattan p r ≤ manhattan p q + manhattan q r
  ∧ ∀ d, d ∈ DIRS → Z.abs (manhattan (target p d) q - manhattan p q) = 1.
Proof.
  destruct p as [x1 y1], q as [x2 y2], r as [x3 y3].
  unfold manhattan, target. simpl.
  split; [lia|]. split; [|split; [lia|split; [lia|]]].
  - split; [intros H; f_equal; lia | intros [= -> ->]; lia].
  - intros d Hd. destruct (dir_cases d Hd) as [-> | [-> | [-> | ->]]];
      simpl; lia.
Qed.

(** X26.  [choice] draws one random number and returns an element of the
    array, or [undefined] when the array is empty; it writes nothing. *)
Theorem choice_returns_an_element {A} (arr : list A) w :
  ∃ o,
    choice arr w
    = Some (o, World (heap w) (rand w) (S (rcur w)) (lapse w) (lcur w)
                     (time w))
    ∧ (arr = [] → o = None)
    ∧ (arr ≠ [] → ∃ a, o = Some a ∧ a ∈ arr).
Proof.
  destruct w as [h rnd c lps lc t]. exists (pickAt rnd c arr).
  split; [apply choice_run|]. split.
  - intros ->. unfold pickAt, JSArray.get. by destruct (_ <? _).
  - apply pickAt_Some.
Qed.

(** X27.  [randInt a b] draws one random number and returns an integer
    between [a] and [b], both included. *)
Theorem randInt_in_range a b w :
  a ≤ b →
  ∃ n,
    randInt a b w
    = Some (n, World (heap w) (rand w) (S (rcur w)) (lapse w) (lcur w)
                     (time w))
    ∧ a ≤ n ≤ b.
Proof.
  intros Hab. destruct w as [h rnd c lps lc t].
  exists (randIntV rnd c a b). split; [done|]. by apply randIntV_range.
Qed.

Lemma randInt_in_range_witness :
  ∃ n,
    randInt 10 18 (emptyWorld halfDraws noLapse)
    = Some (n, World [] halfDraws 1 noLapse 0 0)
    ∧ 10 ≤ n ≤ 18.
Proof.
  apply (randInt_in_range 10 18 (emptyWorld halfDraws noLapse)).
  by vm_compute.
Defined.



(** ** A random grid *)

Lemma obstacleCountOf_mono w1 h1 w2 h2 :
  w1 * h1 ≤ w2 * h2 → obstacleCountOf w1 h1 ≤ obstacleCountOf w2 h2.
Proof.
  intros H. unfold obstacleCountOf. apply Qfloor_resp_le.
  apply Qmult_le_compat_r; [|done]. by rewrite <- Zle_Qle.
Qed.

(** X28.  [randomize] draws a width and a height between 10 and 18 and
    builds, as soon as the cells drawn comprise enough distinct ones, a
    fresh bounded model on a grid of that size, with between 9 and 38
    obstacles; the objects of the store are kept. *)
Theorem randomize_builds_a_bounded_model fuel cfg w :
  (let width := randIntV (rand w) (rcur w) 10 18 in
   let height := randIntV (rand w) (S (rcur w)) 10 18 in
   obstacleCountOf width height
   ≤ JSSet.size (JSSet.of_list
                   (drawnCells (rand w) fuel (S (S (rcur w))) width height))) →
  ∃ e w' m,
    randomize fuel cfg w = Some (e, w')
    ∧ (∃ k, heap w' = heap w ++ k)
    ∧ models (heap w') e m
    ∧ 10 ≤ m_width m ≤ 18 ∧ 10 ≤ m_height m ≤ 18
    ∧ m_tick m = 0 ∧ m_done m = false
    ∧ boundedV m = true ∧ seenInGrid m = true
    ∧ 9 ≤ JSSet.size (m_obstacles m) ≤ 38.
Proof.
  destruct w as [h rnd c lps lc t]. cbn [rand rcur heap]. intros Hdraws.
  unfold randomize.
  rewrite (bind_run _ _ _ _ _ (randInt_run _ _ _ _ _ _ _ _)).
  rewrite (bind_run _ _ _ _ _ (randInt_run _ _ _ _ _ _ _ _)).
  pose proof (randIntV_range rnd c 10 18 ltac:(lia)) as Hw.
  pose proof (randIntV_range rnd (S c) 10 18 ltac:(lia)) as Hh.
  set (width := randIntV rnd c 10 18) in *.
  set (height := randIntV rnd (S c) 10 18) in *.
  set (cfg' := with_size width height cfg).
  destruct (makeModel_returns rnd fuel cfg' (S (S c)) Hdraws) as (m & c' & Hm).
  destruct (makeEnv_run rnd lps lc t fuel cfg' h (S (S c)) m c' Hm)
    as (e & E & k & Hrun & Hmod).
  exists e, (World (h ++ k) rnd c' lps lc t), m.
  split; [done|]. split; [by exists k|]. split; [by exists E|].
  destruct (makeModel_fields _ _ _ _ _ _ Hm)
    as (Htk & Hmw & Hmh & _ & _ & _ & _ & Hdone & _).
  destruct (makeModel_bounded rnd fuel cfg' (S (S c)) m c'
              ltac:(simpl; lia) ltac:(simpl; lia) Hm) as [Hb Hs].
  destruct (makeModel_count _ _ _ _ _ _ Hm) as [Hlo Hhi].
  simpl in Hmw, Hmh, Hlo, Hhi. rewrite Hmw, Hmh.
  split; [done|]. split; [done|]. split; [done|]. split; [done|].
  split; [done|]. split; [done|].
  assert (H12 : 12 ≤ obstacleCountOf width height).
  { change 12 with (obstacleCountOf 10 10). apply obstacleCountOf_mono. nia. }
  assert (H38 : obstacleCountOf width height ≤ 38).
  { change 38 with (obstacleCountOf 18 18). apply obstacleCountOf_mono. nia. }
  destruct (multiAgent cfg); lia.
Qed.

Lemma randomize_builds_a_bounded_model_witness :
  ∃ e w' m,
    randomize 23 DEFAULTS (emptyWorld sweepDraws noLapse) = Some (e, w')
    ∧ (∃ k, heap w' = heap (emptyWorld sweepDraws noLapse) ++ k)
    ∧ models (heap w') e m
    ∧ 10 ≤ m_width m ≤ 18 ∧ 10 ≤ m_height m ≤ 18
    ∧ m_tick m = 0 ∧ m_done m = false
    ∧ boundedV m = true ∧ seenInGrid m = true
    ∧ 9 ≤ JSSet.size (m_obstacles m) ≤ 38.
Proof.
  apply (randomize_builds_a_bounded_model 23 DEFAULTS
           (emptyWorld sweepDraws noLapse)).
  by vm_compute.
Defined.



(** ** The fallback at the border of the grid *)

(** C8 fails on the code at the border of the grid.  The fallback of
    [pickAction] clamps the target of a direction into the grid before
    it calls [isBlocked], so that the off-grid test of [isBlocked] never
    fires there, where the move of [stepEnvironment] tests the target
    itself.  At the border cell (2,0), stuck and with partial
    observation, the planner returns UP: the one-step target (2,-1) is
    off the grid and blocked for [isBlocked], where DOWN leads to the
    free cell (2,1).  The transition refuses the move: the agent stays
    at (2,0), the model is stuck again, and the planner answers UP
    again. *)
Lemma C8_fallback_returns_a_direction_the_move_refuses :
  isStuckV borderModel = true
  ∧ partialObs DEFAULTS = true
  ∧ (∃ w', pickAction 0 5%nat DEFAULTS 25
             (World (heapOf borderModel) halfDraws 0 noLapse 0 0)
           = Some (MkDecision UP [] 0 "explore", w'))
  ∧ target (m_agent borderModel) UP = Pt 2 (-1)
  ∧ inGridV borderModel 2 (-1) = false
  ∧ isBlocked 5%nat 2 (-1) (World (heapOf borderModel) halfDraws 0 noLapse 0 0)
    = Some (true, World (heapOf borderModel) halfDraws 0 noLapse 0 0)
  ∧ target (m_agent borderModel) DOWN = Pt 2 1
  ∧ isBlocked 5%nat 2 1 (World (heapOf borderModel) halfDraws 0 noLapse 0 0)
    = Some (false, World (heapOf borderModel) halfDraws 0 noLapse 0 0)
  ∧ ∃ w1 m1,
      stepEnvironment 5%nat DEFAULTS UP
        (World (heapOf borderModel) halfDraws 0 noLapse 0 0)
      = Some (5%nat, w1)
      ∧ snapshot (heap w1) 5%nat = Some m1
      ∧ m_agent m1 = Pt 2 0
      ∧ m_tick m1 = 7
      ∧ isStuckV m1 = true
      ∧ ∃ w2, pickAction 0 5%nat DEFAULTS 25 w1
              = Some (MkDecision UP [] 0 "explore", w2).
Proof.
  split; [reflexivity|]. split; [reflexivity|].
  split; [eexists; vm_compute; reflexivity|].
  split; [reflexivity|]. split; [reflexivity|]. split; [reflexivity|].
  split; [reflexivity|]. split; [reflexivity|].
  eexists _, _. split; [vm_compute; reflexivity|].
  split; [vm_compute; reflexivity|].
  split; [reflexivity|]. split; [reflexivity|]. split; [reflexivity|].
  eexists. vm_compute. reflexivity.
Qed.

(** ** One step of the application *)

(** Whenever the loop of rollouts returns, it has kept the caller's
    objects. *)
Lemma anytimeLoop_returned rnd lps e E m cfg hz start budgetMs :
  ∀ fuel scores iters h c lc t r w',
    models_at h e E m → tallied scores iters →
    anytimeLoop fuel e cfg hz start budgetMs scores iters
      (World h rnd c lps lc t) = Some (r, w') →
    ∃ h' c' lc' t',
      w' = World h' rnd c' lps lc' t' ∧ keeps h h' ∧ tallied r.1 r.2.
Proof.
  induction fuel as [|fuel IH]; intros scores iters h c lc t r w' Hm Hsh Hrun;
    rewrite anytimeLoop_unfold in Hrun;
    rewrite (bind_run _ _ _ _ _ (now_run _ _ _ _ _ _)) in Hrun;
    destruct (Qltb _ budgetMs).
  - by unfold fail in Hrun.
  - unfold ret in Hrun. inversion Hrun; subst.
    eexists _, _, _, _. split; [reflexivity|]. split; [apply keeps_refl|done].
  - destruct (rolloutPass_run rnd lps e E m cfg hz start budgetMs DIRS
                scores iters h c (S lc) (t + lps lc)%N Hm (λ d Hd, Hd) Hsh)
      as (r1 & h1 & c1 & lc1 & t1 & Hpass & Hk1 & Hr1 & _).
    rewrite (bind_run _ _ _ _ _ Hpass) in Hrun.
    destruct (IH r1.1 r1.2 h1 c1 lc1 t1 r w'
                (models_at_keeps _ _ _ _ _ Hm Hk1) Hr1 Hrun)
      as (h' & c' & lc' & t' & -> & Hk & Hr).
    eexists _, _, _, _. split; [reflexivity|].
    split; [by eapply keeps_trans | done].
  - unfold ret in Hrun. inversion Hrun; subst.
    eexists _, _, _, _. split; [reflexivity|]. split; [apply keeps_refl|done].
Qed.

(** Whenever [pickAction] returns, it returns one of the four
    directions and has kept the caller's objects. *)
Lemma pickAction_returned rnd lps fuel e E m cfg budgetMs h c lc t dec w' :
  models_at h e E m →
  pickAction fuel e cfg budgetMs (World h rnd c lps lc t) = Some (dec, w') →
  ∃ h' c' lc' t',
    w' = World h' rnd c' lps lc' t' ∧ keeps h h' ∧ d_action dec ∈ DIRS.
Proof.
  intros Hm Hrun. unfold pickAction in Hrun.
  rewrite (bind_run _ _ _ _ _ (now_run _ _ _ _ _ _)) in Hrun.
  erewrite bind_run in Hrun; [|eapply exploreFallback_run; exact Hm].
  destruct (exploreFallbackV m cfg) as [best|] eqn:Hfb.
  - unfold ret in Hrun. inversion Hrun; subst.
    eexists _, _, _, _. split; [reflexivity|]. split; [apply keeps_refl|].
    simpl. by eapply exploreFallbackV_DIRS.
  - unfold bind in Hrun at 1.
    destruct (anytimeLoop _ _ _ _ _ _ _ _ _) as [[r w1]|] eqn:Hloop;
      [|discriminate Hrun].
    destruct (anytimeLoop_returned rnd lps e E m cfg _ _ _ _ _ _ h c _ _ r w1
                Hm tallied_initial Hloop)
      as (h1 & c1 & lc1 & t1 & -> & Hk & Hr).
    destruct (selectAction_run r.1 r.2 h1 rnd c1 lps lc1 t1 Hr)
      as (dec' & c' & Hsel & Hin & _).
    rewrite Hsel in Hrun. inversion Hrun; subst.
    by eexists _, _, _, _.
Qed.

(** X21.  [step] does nothing on a finished episode.  Otherwise,
    whenever the planner returns a decision, [step] returns a new
    environment and leaves the one it was given untouched: the old
    model is still in place, and the new environment holds the model
    reached from it by one transition under the chosen direction, whose
    tick and reward are the ones reported with the decision; the tick
    is one more than before when it lies between -2^53 and 2^53 - 1,
    where the double counter adds exactly.  The planner does return
    when every reading of the clock advances it by at least [δ]
    microseconds and the fuel covers the budget. *)
Theorem step_leaves_the_given_model fuel e cfg w m :
  models (heap w) e m →
  (m_done m = true → step fuel e cfg w = Some (None, w))
  ∧ (m_done m = false →
     ∀ dec w1,
       pickAction fuel e cfg (timeBudgetMs cfg) w = Some (dec, w1) →
       ∃ next ld w' m',
         step fuel e cfg w = Some (Some (next, ld), w')
         ∧ ld_decision ld = dec
         ∧ models (heap w') e m
         ∧ models (heap w') next m'
         ∧ (length (heap w) ≤ next)%nat
         ∧ d_action dec ∈ DIRS
         ∧ m' = (stepModel (rand w) cfg (d_action dec) m (rcur w1)).1
         ∧ (- 2 ^ 53 ≤ m_tick m < 2 ^ 53 → m_tick m' = m_tick m + 1)
         ∧ ld_tick ld = m_tick m' ∧ ld_reward ld = m_reward m')
  ∧ (m_done m = false →
     ∀ δ : N,
       (∀ n, (δ ≤ lapse w n)%N) →
       (timeBudgetMs cfg * 1000 <= inject_Z (Z.of_nat fuel * Z.of_N δ))%Q →
       ∃ dec w1, pickAction fuel e cfg (timeBudgetMs cfg) w = Some (dec, w1)).
Proof.
  intros [E Hm]. destruct w as [h rnd c lps lc t]. simpl in *.
  pose proof (ma_env _ _ _ _ Hm) as He.
  pose proof (ma_done _ _ _ _ Hm) as HdE.
  split; [|split].
  - intros Hd. unfold step. erewrite bind_run by (by apply getEnv_run).
    by rewrite HdE, Hd.
  - intros Hd dec w1 Hrun.
    unfold step. erewrite bind_run by (by apply getEnv_run).
    rewrite HdE, Hd.
    destruct (pickAction_returned rnd lps fuel e E m cfg (timeBudgetMs cfg)
                h c lc t dec w1 Hm Hrun)
      as (h1 & c1 & lc1 & t1 & -> & Hk1 & Hin).
    rewrite (bind_run _ _ _ _ _ Hrun).
    pose proof (models_at_keeps _ _ _ _ _ Hm Hk1) as Hm1.
    destruct (clone_step_run rnd lps lc1 t1 h1 e E m cfg (d_action dec) c1 Hm1)
      as (sim & h2 & h3 & E3 & Hclone & Hstep & Hsim & Hk2 & Hk3 & H2 & H3).
    rewrite (bind_run _ _ _ _ _ Hclone), (bind_run _ _ _ _ _ Hstep).
    erewrite bind_run by (apply getEnv_run, (ma_env _ _ _ _ H3)).
    eexists sim, _, _, _. split; [reflexivity|]. simpl.
    split; [done|].
    split; [exists E; by eapply models_at_keeps|].
    split; [by exists E3|].
    split; [destruct Hk1; lia|]. split; [done|]. split; [done|].
    destruct (stepModel_summary rnd cfg (d_action dec) m c1 Hd) as (Ht & _).
    split; [done|].
    split; [apply (ma_tick _ _ _ _ H3) | apply (ma_reward _ _ _ _ H3)].
  - intros Hd δ Hδ Hb.
    destruct (pickAction_run rnd lps δ fuel e E m cfg (timeBudgetMs cfg)
                h c lc t Hδ Hm Hb)
      as (dec & h1 & c1 & lc1 & t1 & Hrun & _).
    by eexists _, _.
Qed.

Lemma step_leaves_the_given_model_witness :
  ∃ dec w1,
    pickAction 1 5%nat DEFAULTS (timeBudgetMs DEFAULTS)
      (World (heapOf scenarioModel) halfDraws 0 budgetClock 0 0)
    = Some (dec, w1)
    ∧ ∃ next ld w' m',
        step 1 5%nat DEFAULTS
          (World (heapOf scenarioModel) halfDraws 0 budgetClock 0 0)
        = Some (Some (next, ld), w')
        ∧ ld_decision ld = dec
        ∧ models (heap w') 5%nat scenarioModel
        ∧ models (heap w') next m'
        ∧ (length (heapOf scenarioModel) ≤ next)%nat
        ∧ d_action dec ∈ DIRS
        ∧ m' = (stepModel halfDraws DEFAULTS (d_action dec) scenarioModel
                  (rcur w1)).1
        ∧ (- 2 ^ 53 ≤ m_tick scenarioModel < 2 ^ 53 →
           m_tick m' = m_tick scenarioModel + 1)
        ∧ ld_tick ld = m_tick m' ∧ ld_reward ld = m_reward m'.
Proof.
  assert (H : models (heapOf scenarioModel) 5%nat scenarioModel).
  { apply (models_heapOf scenarioModel); compute_done. }
  eexists _, _. split; [vm_compute; reflexivity|].
  apply (proj1 (proj2 (step_leaves_the_given_model 1 5%nat DEFAULTS
           (World (heapOf scenarioModel) halfDraws 0 budgetClock 0 0)
           scenarioModel H))); [reflexivity|].
  vm_compute. reflexivity.
Defined.

(** ** The selection of [pickAction] *)





(** ** The goal bonus of a rollout *)

Lemma last_cons_default (m m' : model) (l : list model) :
  default m (last (m' :: l)) = default m' (last l).
Proof.
  revert m m'. induction l as [|x l IH]; intros m m'; [done|].
  change (last (m' :: x :: l)) with (last (x :: l)).
  by rewrite (IH m x), (IH m' x).
Qed.

(** The ticks listed by [goalTicks] are the ticks of the trace that end
    on the goal. *)
Lemma elem_of_goalTicks trace :
  ∀ t z,
    z ∈ goalTicks t trace
    ↔ ∃ (i : nat) mi,
        z = t + Z.of_nat i ∧ trace !! i = Some mi ∧ onGoal mi = true.
Proof.
  induction trace as [|m' trace IH]; intros t z; cbn [goalTicks].
  { split; [by intros ?%elem_of_nil | by intros (i & mi & _ & ? & _)]. }
  split.
  - intros Hz.
    assert (Hcase : (z = t ∧ onGoal m' = true) ∨ z ∈ goalTicks (t + 1) trace).
    { destruct (onGoal m'); [|by right].
      apply elem_of_cons in Hz as [->|Hz']; [by left | by right]. }
    clear Hz. destruct Hcase as [[-> Hg]|Hz].
    + exists 0%nat, m'. split; [simpl; lia | done].
    + apply IH in Hz as (i & mi & -> & Hi & Hg).
      exists (S i), mi. split; [lia | done].
  - intros (i & mi & -> & Hi & Hg). destruct i as [|i].
    + simpl in Hi. inversion Hi; subst. rewrite Hg.
      replace (t + Z.of_nat 0) with t by lia. apply list_elem_of_here.
    + simpl in Hi.
      assert (Hz : t + Z.of_nat (S i) ∈ goalTicks (t + 1) trace).
      { apply IH. exists i, mi. split; [lia | done]. }
      destruct (onGoal m'); [by apply list_elem_of_further | done].
Qed.

(** The rollout loop and its trace: the final model is the last of the
    trace, every tick of the trace is counted, the bonus is added on the
    ticks that end on the goal, and the total is the shaping of the
    ticks and 5 for each bonus. *)
Lemma rolloutV_trace rnd cfg action startSeen recentSet :
  ∀ n tk acc m c,
    let r := rolloutV rnd cfg action startSeen recentSet n tk acc m c in
    let trace := rolloutTrace rnd cfg action n tk m c in
    r.1.2 = default m (last trace)
    ∧ ticksRun r.1.1 = ticksRun acc + Z.of_nat (length trace)
    ∧ bonusAt r.1.1 = reverse (goalTicks tk trace) ++ bonusAt acc
    ∧ (total r.1.1
       == total acc + shapingSum startSeen recentSet tk trace
          + 5 * inject_Z (Z.of_nat (length (goalTicks tk trace))))%Q.
Proof.
  induction n as [|n IH]; intros tk acc m c; cbn [rolloutV rolloutTrace].
  { cbn. split; [done|]. split; [lia|]. split; [done|]. ring. }
  destruct (m_done m).
  { cbn. split; [done|]. split; [lia|]. split; [done|]. ring. }
  cbv zeta.
  set (a := if tk =? 0 then (action, c)
            else (default UP (pickAt rnd c DIRS), S c)).
  set (m' := (stepModel rnd cfg a.1 m a.2).1).
  set (c' := (stepModel rnd cfg a.1 m a.2).2).
  rewrite last_cons_default. cbn [length goalTicks shapingSum].
  unfold onGoal.
  match goal with
  | |- context [rolloutV _ _ _ _ _ n (tk + 1) ?acc' m' c'] =>
      destruct (IH (tk + 1) acc' m' c') as (H1 & H2 & H3 & H4)
  end.
  cbv zeta in *. rewrite H1, H2, H3, H4. clear H1 H2 H3 H4.
  unfold shapingOf.
  destruct (samePoint (m_agent m') (m_goal m'));
    destruct ((tk <? LOOP_PENALTY_STEPS)
              && JSSet.has (keyOf (m_agent m')) recentSet);
    cbn [total bonusAt ticksRun length];
    (split; [done|]); (split; [lia|]);
    (split; [by rewrite ?reverse_cons, <- ?app_assoc|]);
    rewrite ?Nat2Z.inj_succ, <- ?Z.add_1_r, ?inject_Z_plus; ring.
Qed.

(** [evaluateAction] leaves the duplicate with the model that the
    rollout ends in. *)
Lemma evaluateAction_tally_sim rnd lps lc t cfg action horizon h e E m c :
  models_at h e E m →
  ∃ h' sim,
    evaluateAction_tally e cfg action horizon (World h rnd c lps lc t)
    = Some ((evaluateActionV rnd cfg action horizon m c).1.1,
            World h' rnd (evaluateActionV rnd cfg action horizon m c).2
                  lps lc t)
    ∧ (length h ≤ sim)%nat
    ∧ models h' sim (evaluateActionV rnd cfg action horizon m c).1.2.
Proof.
  intros H. unfold evaluateAction_tally, evaluateActionV.
  destruct (cloneEnv_run rnd lps lc t h e E m c H)
    as (sim & h1 & E1 & Hclone & H1 & Hfresh & Hkeep).
  rewrite (bind_run _ _ _ _ _ Hclone).
  erewrite bind_run; [|apply getEnv_run, (ma_env _ _ _ _ H1)].
  erewrite bind_run; [|apply getSet_run, (ma_seen _ _ _ _ H1)].
  erewrite bind_run; [|apply getArray_run, (ma_recent _ _ _ _ H1)].
  cbv zeta.
  destruct (rollout_run rnd lps lc t cfg action (JSSet.size (m_seen m))
              (JSSet.of_list (m_recent m)) (length h) horizon 0
              (Tally 0 [] 0) h1 sim E1 m c H1 Hfresh)
    as (h' & E' & Hrun & Hm' & _).
  { by destruct Hkeep. }
  exists h', sim. split; [exact Hrun|].
  split; [apply Hfresh, list_elem_of_here | by exists E'].
Qed.

(** C9.  The goal bonus of [evaluateAction].  The returned score is the
    sum of the shaping terms of the simulated ticks and of 5 for each
    tick on which the bonus is added; the bonus is added on exactly the
    simulated ticks that end with the simulated agent on the goal, once
    each, whatever [episodic] is.  In episodic mode there is at most one
    such tick and it is the last tick of the rollout: the bonus is added
    at most once.  ([rolloutTrace] lists the models of the duplicate
    after each simulated tick; [bonusAt] lists the loop indices at which
    [total += 5] is executed and [ticksRun] counts the simulated
    ticks.) *)
Theorem C9_goal_bonus_on_goal_ticks h e m cfg a horizon rnd c lps lc t :
  models h e m →
  ∃ r w' sim,
    evaluateAction_tally e cfg a horizon (World h rnd c lps lc t)
    = Some (r, w')
    ∧ evaluateAction e cfg a horizon (World h rnd c lps lc t)
      = Some (total r, w')
    ∧ models (heap w') sim
        (default m (last (rolloutTrace rnd cfg a horizon 0 m c)))
    ∧ ticksRun r = Z.of_nat (length (rolloutTrace rnd cfg a horizon 0 m c))
    ∧ (horizon = 0%nat ∨ m_done m = true → total r = 0%Q)
    ∧ (total r
       == shapingSum (JSSet.size (m_seen m)) (JSSet.of_list (m_recent m)) 0
            (rolloutTrace rnd cfg a horizon 0 m c)
          + 5 * inject_Z (Z.of_nat (length (bonusAt r))))%Q
    ∧ NoDup (bonusAt r)
    ∧ (∀ i : nat,
         Z.of_nat i ∈ bonusAt r
         ↔ ∃ mi, rolloutTrace rnd cfg a horizon 0 m c !! i = Some mi
                 ∧ samePoint (m_agent mi) (m_goal mi) = true)
    ∧ (∀ z, z ∈ bonusAt r → 0 ≤ z < ticksRun r)
    ∧ (episodic cfg = true →
       bonusAt r = [] ∨ bonusAt r = [ticksRun r - 1]).
Proof.
  intros [E H].
  destruct (evaluateAction_tally_sim rnd lps lc t cfg a horizon h e E m c H)
    as (h' & sim & Hrun & _ & Hsim).
  destruct (rolloutV_trace rnd cfg a (JSSet.size (m_seen m))
              (JSSet.of_list (m_recent m)) horizon 0 (Tally 0 [] 0) m c)
    as (Hlast & Hticks & Hbonus & Htotal).
  fold (evaluateActionV rnd cfg a horizon m c) in Hlast, Hticks, Hbonus, Htotal.
  cbn [total bonusAt ticksRun] in Hticks, Hbonus, Htotal.
  rewrite app_nil_r in Hbonus.
  set (trace := rolloutTrace rnd cfg a horizon 0 m c) in *.
  assert (Hmem : ∀ z, z ∈ bonusAt (evaluateActionV rnd cfg a horizon m c).1.1
                      ↔ ∃ (i : nat) mi, z = Z.of_nat i ∧ trace !! i = Some mi
                                        ∧ onGoal mi = true).
  { intros z. rewrite Hbonus, elem_of_reverse, elem_of_goalTicks.
    by setoid_rewrite Z.add_0_l. }
  eexists _, _, sim. split; [exact Hrun|]. split.
  { unfold evaluateAction. by rewrite (bind_run _ _ _ _ _ Hrun). }
  simpl. split; [by rewrite <- Hlast|]. split; [lia|]. split.
  { unfold evaluateActionV. intros [->|Hd]; [done|].
    destruct horizon; [done|]. simpl. by rewrite Hd. }
  split.
  { rewrite Htotal, Hbonus, length_reverse. ring. }
  split.
  { rewrite Hbonus, reverse_Permutation. clear.
    generalize 0 at 1. induction trace as [|m' trace IH]; intros t0;
      cbn [goalTicks]; [constructor|].
    destruct (onGoal m'); [|apply IH].
    constructor; [|apply IH].
    intros (i & mi & Hi & _)%elem_of_goalTicks. lia. }
  split.
  { intros i. rewrite Hmem. split.
    - intros (j & mi & Hj & Hi & Hg). apply Nat2Z.inj in Hj as ->.
      by exists mi.
    - intros (mi & Hi & Hg). by exists i, mi. }
  split.
  { intros z (i & mi & -> & Hi & _)%Hmem.
    apply lookup_lt_Some in Hi. lia. }
  intros Hepi.
  apply (rolloutV_bonus rnd cfg a _ _ Hepi horizon 0 (Tally 0 [] 0) m c);
    [done | by left].
Qed.

Lemma C9_witness :
  ∃ r w' sim,
    evaluateAction_tally 5%nat (scenarioCfg false 3) UP 2
      (World (heapOf goalAdjacentModel) stayDraws 0 noLapse 0 0) = Some (r, w')
    ∧ evaluateAction 5%nat (scenarioCfg false 3) UP 2
        (World (heapOf goalAdjacentModel) stayDraws 0 noLapse 0 0)
      = Some (total r, w')
    ∧ models (heap w') sim
        (default goalAdjacentModel
           (last (rolloutTrace stayDraws (scenarioCfg false 3) UP 2 0
                    goalAdjacentModel 0)))
    ∧ ticksRun r
      = Z.of_nat (length (rolloutTrace stayDraws (scenarioCfg false 3) UP 2 0
                            goalAdjacentModel 0))
    ∧ (2%nat = 0%nat ∨ m_done goalAdjacentModel = true → total r = 0%Q)
    ∧ (total r
       == shapingSum (JSSet.size (m_seen goalAdjacentModel))
            (JSSet.of_list (m_recent goalAdjacentModel)) 0
            (rolloutTrace stayDraws (scenarioCfg false 3) UP 2 0
               goalAdjacentModel 0)
          + 5 * inject_Z (Z.of_nat (length (bonusAt r))))%Q
    ∧ NoDup (bonusAt r)
    ∧ (∀ i : nat,
         Z.of_nat i ∈ bonusAt r
         ↔ ∃ mi, rolloutTrace stayDraws (scenarioCfg false 3) UP 2 0
                   goalAdjacentModel 0 !! i = Some mi
                 ∧ samePoint (m_agent mi) (m_goal mi) = true)
    ∧ (∀ z, z ∈ bonusAt r → 0 ≤ z < ticksRun r)
    ∧ (episodic (scenarioCfg false 3) = true →
       bonusAt r = [] ∨ bonusAt r = [ticksRun r - 1]).
Proof.
  assert (H : models (heapOf goalAdjacentModel) 5%nat goalAdjacentModel).
  { apply (models_heapOf goalAdjacentModel); compute_done. }
  exact (C9_goal_bonus_on_goal_ticks _ _ _ (scenarioCfg false 3) UP 2%nat
           stayDraws 0%nat noLapse 0%nat 0%N H).
Defined.
